(** * NodeModal: the node content / JSON path dialog of the graph editor

    A shallow embedding of [src/features/modals/NodeModal/index.tsx]:
    the three helpers [normalizeNodeData], [jsonPathToString] and
    [updateJsonAtPath], and the view [NodeModal] with its handlers, together
    with the part of the JavaScript runtime they rest on ([JSON.parse],
    [JSON.stringify], property access on parsed documents).

    Conventions of the embedding.
    - A JavaScript string is the list of its UTF-16 code units.
    - A number is an exact decimal (sign, significant digits, decimal
      exponent), printed by the algorithm of [Number::toString].  This
      agrees with IEEE doubles on every literal of at most 15 significant
      digits whose magnitude lies between 1e-300 and 1e300; rounding,
      overflow to Infinity, NaN and the sign of zero are not modelled.
      What a written text parses back to is therefore compared with what
      was written by the text [JSON.stringify] gives for either
      ([written_alike]), which those do not affect.
    - Strings and arrays are unbounded: the limits an engine puts on their
      length are not modelled.  [JSON.parse] reads a text however deep it
      nests; [JSON.stringify] may raise on a value (see [Host] below).
    - A parsed document is a tree without sharing, so in-place mutation
      through the cursor [current] of [updateJsonAtPath] is modelled by a
      zipper on that tree.
    - The module is an ES module, hence strict: assigning a property of a
      primitive raises.
    - What lies outside the serialised document is a parameter, [Host]:
      which names the prototype chains carry besides [__proto__], what
      happens once the cursor has stepped onto such a property or onto a
      named property of an array, the coercion applied when the [length]
      of an array is assigned, and on which values [JSON.stringify] raises
      (a value nested too deep for the stack of the engine).  The theorems
      hold for every host.
    - The stores and the window are collaborators: the calls the component
      makes on them are recorded, in order, as a trace of effects, and what
      it reads from them is an input of each step. *)

From Stdlib Require Import String Ascii List ZArith NArith Lia Bool
  DecimalPos DecimalN.
Import ListNotations.

Set Implicit Arguments.
Set Warnings "-register-all".

(* ================================================================== *)
(** * Strings *)

Module Str.

(** A code unit is a number below [2^16]; a string is a list of them. *)
Abbreviation code_unit := N (only parsing).
Abbreviation jstring := (list N) (only parsing).

(** A Rocq string literal read as a JavaScript string. *)
Definition lit (s : string) : jstring :=
  map N_of_ascii (list_ascii_of_string s).

(** The same, with an apostrophe standing for the double quote, so that JSON
    texts can be written down: [jsn "{'a':1}"] is the text [{"a":1}]. *)
Definition jsn (s : string) : jstring :=
  map (fun c => if (c =? 39)%N then 34%N else c) (lit s).

Definition nl : code_unit := 10%N.

(** Lines joined by a line feed. *)
Fixpoint unlines (ls : list jstring) : jstring :=
  match ls with
  | [] => []
  | [l] => l
  | l :: rest => l ++ nl :: unlines rest
  end.

(** [Array.prototype.join] on strings. *)
Fixpoint join (sep : jstring) (parts : list jstring) : jstring :=
  match parts with
  | [] => []
  | [p] => p
  | p :: rest => p ++ sep ++ join sep rest
  end.

Fixpoint jstring_eqb (a b : jstring) : bool :=
  match a, b with
  | [], [] => true
  | x :: a', y :: b' => (x =? y)%N && jstring_eqb a' b'
  | _, _ => false
  end.

Definition spaces (n : nat) : jstring := repeat 32%N n.

End Str.
Import Str.

(* ================================================================== *)
(** * Numbers *)

Module Num.

(** The number [(-1)^nneg * 0.d1 d2 ... dk * 10^nexp], the digits being
    [ndigits] read modulo 10.  No digit at all is zero. *)
Record number := mkNumber {
  nneg : bool;
  ndigits : list N;
  nexp : Z
}.

Definition dig (d : N) : N := (d mod 10)%N.
Definition digit_char (d : N) : code_unit := (48 + dig d)%N.

Fixpoint drop_zeros (ds : list N) : list N :=
  match ds with
  | d :: ds' => if (dig d =? 0)%N then drop_zeros ds' else ds
  | [] => []
  end.

(** Canonical form: no leading zero (each one dropped lowers the exponent)
    and no trailing zero. *)
Definition canon (n : number) : number :=
  let lead := drop_zeros (ndigits n) in
  let e := (nexp n - Z.of_nat (length (ndigits n) - length lead))%Z in
  let ds := rev (drop_zeros (rev lead)) in
  match ds with
  | [] => mkNumber false [] 0
  | _ => mkNumber (nneg n) ds e
  end.

Fixpoint uint_chars (u : Decimal.uint) : jstring :=
  match u with
  | Decimal.Nil => []
  | Decimal.D0 u => 48%N :: uint_chars u
  | Decimal.D1 u => 49%N :: uint_chars u
  | Decimal.D2 u => 50%N :: uint_chars u
  | Decimal.D3 u => 51%N :: uint_chars u
  | Decimal.D4 u => 52%N :: uint_chars u
  | Decimal.D5 u => 53%N :: uint_chars u
  | Decimal.D6 u => 54%N :: uint_chars u
  | Decimal.D7 u => 55%N :: uint_chars u
  | Decimal.D8 u => 56%N :: uint_chars u
  | Decimal.D9 u => 57%N :: uint_chars u
  end.

(** Decimal representation of a natural number. *)
Definition decimal (n : N) : jstring := uint_chars (N.to_uint n).

Definition digit_chars (ds : list N) : jstring := map digit_char ds.

(** [Number::toString] (radix 10) of ECMA-262, on a finite number. *)
Definition Number_toString (x : number) : jstring :=
  let c := canon x in
  match ndigits c with
  | [] => lit "0"
  | d1 :: rest =>
      let ds := d1 :: rest in
      let k := Z.of_nat (length ds) in
      let n := nexp c in
      (if nneg c then lit "-" else []) ++
      (if (k <=? n)%Z && (n <=? 21)%Z then
         digit_chars ds ++ repeat 48%N (Z.to_nat (n - k))
       else if (0 <? n)%Z && (n <=? 21)%Z then
         digit_chars (firstn (Z.to_nat n) ds) ++ 46%N ::
         digit_chars (skipn (Z.to_nat n) ds)
       else if (-6 <? n)%Z && (n <=? 0)%Z then
         48%N :: 46%N :: repeat 48%N (Z.to_nat (- n)) ++ digit_chars ds
       else
         let e := (n - 1)%Z in
         let es := (if (e <? 0)%Z then 45%N else 43%N)
                   :: decimal (Z.to_N (Z.abs e)) in
         match rest with
         | [] => digit_char d1 :: 101%N :: es
         | _ => digit_char d1 :: 46%N :: digit_chars rest ++ 101%N :: es
         end)
  end.

(** A natural number as a number. *)
Definition of_N (n : N) : number :=
  mkNumber false (map (fun c => (c - 48)%N) (decimal n))
           (Z.of_nat (length (decimal n))).

End Num.
Import Num.

(* ================================================================== *)
(** * JSON values and [JSON.stringify] *)

Module Json.

Inductive value :=
| VNull
| VBool (b : bool)
| VNum (n : number)
| VStr (s : jstring)
| VArr (items : list value)
| VObj (props : list (jstring * value)).

Definition hex_digit (n : N) : code_unit :=
  if (n <? 10)%N then (48 + n)%N else (87 + n)%N.

(** [\uXXXX], lower-case, as [UnicodeEscape] of ECMA-262 writes it. *)
Definition unicode_escape (c : code_unit) : jstring :=
  [92; 117; hex_digit ((c / 4096) mod 16); hex_digit ((c / 256) mod 16);
   hex_digit ((c / 16) mod 16); hex_digit (c mod 16)]%N.

Definition is_high_surrogate (c : code_unit) : bool :=
  (55296 <=? c)%N && (c <=? 56319)%N.
Definition is_low_surrogate (c : code_unit) : bool :=
  (56320 <=? c)%N && (c <=? 57343)%N.

(** The body of [QuoteJSONString]: the short escapes, [\u00xx] for the other
    control characters, [\uxxxx] for a lone surrogate, and everything else as
    it is. *)
Fixpoint quote_chars (s : jstring) : jstring :=
  match s with
  | [] => []
  | c :: rest =>
      if (c =? 8)%N then 92%N :: 98%N :: quote_chars rest
      else if (c =? 9)%N then 92%N :: 116%N :: quote_chars rest
      else if (c =? 10)%N then 92%N :: 110%N :: quote_chars rest
      else if (c =? 12)%N then 92%N :: 102%N :: quote_chars rest
      else if (c =? 13)%N then 92%N :: 114%N :: quote_chars rest
      else if (c =? 34)%N then 92%N :: 34%N :: quote_chars rest
      else if (c =? 92)%N then 92%N :: 92%N :: quote_chars rest
      else if (c <? 32)%N then unicode_escape c ++ quote_chars rest
      else if is_high_surrogate c then
        match rest with
        | lo :: rest' =>
            if is_low_surrogate lo then c :: lo :: quote_chars rest'
            else unicode_escape c ++ quote_chars rest
        | [] => unicode_escape c
        end
      else if is_low_surrogate c then unicode_escape c ++ quote_chars rest
      else c :: quote_chars rest
  end.

Definition QuoteJSONString (s : jstring) : jstring :=
  34%N :: quote_chars s ++ [34%N].

(** [SerializeJSONProperty] with a gap of two spaces; [indent] is the
    current indentation. *)
Fixpoint serialize (indent : nat) (v : value) : jstring :=
  match v with
  | VNull => lit "null"
  | VBool true => lit "true"
  | VBool false => lit "false"
  | VNum n => Number_toString n
  | VStr s => QuoteJSONString s
  | VArr [] => lit "[]"
  | VArr items =>
      91%N :: nl ::
      join (44%N :: nl :: [])
           (map (fun x => spaces (indent + 2) ++ serialize (indent + 2) x)
                items)
      ++ nl :: spaces indent ++ [93%N]
  | VObj [] => lit "{}"
  | VObj props =>
      123%N :: nl ::
      join (44%N :: nl :: [])
           (map (fun kv =>
                   match kv with
                   | (k, x) => spaces (indent + 2) ++ QuoteJSONString k
                               ++ 58%N :: 32%N :: serialize (indent + 2) x
                   end)
                props)
      ++ nl :: spaces indent ++ [125%N]
  end.

(** [JSON.stringify(v, null, 2)]. *)
Definition JSON_stringify (v : value) : jstring := serialize 0 v.

End Json.
Import Json.

(* ================================================================== *)
(** * Own properties of ordinary objects *)

Module Props.

Definition is_digit (c : code_unit) : bool := (48 <=? c)%N && (c <=? 57)%N.

(** Value of a sequence of decimal digit characters. *)
Definition digits_value (s : jstring) : N :=
  fold_left (fun acc c => (10 * acc + (c - 48))%N) s 0%N.

(** An array index: the canonical decimal form of an integer below
    [2^32 - 1]. *)
Definition array_index (k : jstring) : option N :=
  match k with
  | [] => None
  | c :: r =>
      if forallb is_digit k
         && (negb (c =? 48)%N || match r with [] => true | _ => false end)
         && (digits_value k <? 4294967295)%N
      then Some (digits_value k) else None
  end.

Definition props := list (jstring * value).

Fixpoint own_get (ps : props) (k : jstring) : option value :=
  match ps with
  | [] => None
  | (k', v) :: rest => if jstring_eqb k' k then Some v else own_get rest k
  end.

Definition has_own (ps : props) (k : jstring) : bool :=
  match own_get ps k with Some _ => true | None => false end.

Fixpoint own_replace (ps : props) (k : jstring) (v : value) : props :=
  match ps with
  | [] => []
  | (k', v') :: rest =>
      if jstring_eqb k' k then (k', v) :: rest
      else (k', v') :: own_replace rest k v
  end.

(** Position of a new key in [OrdinaryOwnPropertyKeys] order: array indices
    first, ascending, then the other keys in order of creation. *)
Fixpoint own_insert_index (ps : props) (i : N) (k : jstring) (v : value)
  : props :=
  match ps with
  | [] => [(k, v)]
  | (k', v') :: rest =>
      match array_index k' with
      | Some j => if (j <? i)%N then (k', v') :: own_insert_index rest i k v
                  else (k, v) :: ps
      | None => (k, v) :: ps
      end
  end.

Definition own_insert (ps : props) (k : jstring) (v : value) : props :=
  match array_index k with
  | Some i => own_insert_index ps i k v
  | None => ps ++ [(k, v)]
  end.

(** [CreateDataProperty], and [Set] on an own data property: the value of an
    existing key is replaced where it stands, a new key takes its place in
    the enumeration order. *)
Definition own_set (ps : props) (k : jstring) (v : value) : props :=
  if has_own ps k then own_replace ps k v else own_insert ps k v.

End Props.
Import Props.

(* ================================================================== *)
(** * [JSON.parse] *)

Module Parse.

Definition is_ws (c : code_unit) : bool :=
  (c =? 32)%N || (c =? 9)%N || (c =? 10)%N || (c =? 13)%N.

Fixpoint skip_ws (s : jstring) : jstring :=
  match s with
  | c :: r => if is_ws c then skip_ws r else s
  | [] => []
  end.

(** The longest prefix of decimal digits, as digit values, and what follows. *)
Fixpoint span_digits (s : jstring) : list N * jstring :=
  match s with
  | c :: r =>
      if is_digit c then
        let (ds, r') := span_digits r in ((c - 48)%N :: ds, r')
      else ([], s)
  | [] => ([], [])
  end.

Definition hex_value (c : code_unit) : option N :=
  if is_digit c then Some (c - 48)%N
  else if (97 <=? c)%N && (c <=? 102)%N then Some (c - 87)%N
  else if (65 <=? c)%N && (c <=? 70)%N then Some (c - 55)%N
  else None.

Definition hex4 (a b c d : code_unit) : option code_unit :=
  match hex_value a, hex_value b, hex_value c, hex_value d with
  | Some x, Some y, Some z, Some w =>
      Some (4096 * x + 256 * y + 16 * z + w)%N
  | _, _, _, _ => None
  end.

(** The character a single-character escape stands for. *)
Definition simple_escape (e : code_unit) : option code_unit :=
  if (e =? 34)%N then Some 34%N
  else if (e =? 92)%N then Some 92%N
  else if (e =? 47)%N then Some 47%N
  else if (e =? 98)%N then Some 8%N
  else if (e =? 102)%N then Some 12%N
  else if (e =? 110)%N then Some 10%N
  else if (e =? 114)%N then Some 13%N
  else if (e =? 116)%N then Some 9%N
  else None.

Definition cons_fst (c : code_unit) (r : option (jstring * jstring))
  : option (jstring * jstring) :=
  match r with
  | Some (s, rest) => Some (c :: s, rest)
  | None => None
  end.

(** A string, after its opening quote: the characters up to the closing
    quote, and what follows it. *)
Fixpoint parse_string_chars (s : jstring) : option (jstring * jstring) :=
  match s with
  | [] => None
  | c :: r =>
      if (c =? 34)%N then Some ([], r)
      else if (c =? 92)%N then
        match r with
        | [] => None
        | e :: r1 =>
            if (e =? 117)%N then
              match r1 with
              | h1 :: h2 :: h3 :: h4 :: r2 =>
                  match hex4 h1 h2 h3 h4 with
                  | Some u => cons_fst u (parse_string_chars r2)
                  | None => None
                  end
              | _ => None
              end
            else
              match simple_escape e with
              | Some u => cons_fst u (parse_string_chars r1)
              | None => None
              end
        end
      else if (c <? 32)%N then None
      else cons_fst c (parse_string_chars r)
  end.

Definition digits_Z (ds : list N) : Z :=
  Z.of_N (fold_left (fun acc d => (10 * acc + d)%N) ds 0%N).

(** The optional exponent part of a number. *)
Definition parse_exponent (s : jstring) : option (Z * jstring) :=
  match s with
  | c :: r =>
      if (c =? 101)%N || (c =? 69)%N then
        let (neg, r1) :=
          match r with
          | sg :: r' =>
              if (sg =? 45)%N then (true, r')
              else if (sg =? 43)%N then (false, r')
              else (false, r)
          | [] => (false, r)
          end in
        match span_digits r1 with
        | ([], _) => None
        | (ds, r2) => Some (if neg then (- digits_Z ds)%Z else digits_Z ds, r2)
        end
      else Some (0%Z, s)
  | [] => Some (0%Z, s)
  end.

(** The optional fraction part of a number. *)
Definition parse_fraction (s : jstring) : option (list N * jstring) :=
  match s with
  | c :: r =>
      if (c =? 46)%N then
        match span_digits r with
        | ([], _) => None
        | (ds, r') => Some (ds, r')
        end
      else Some ([], s)
  | [] => Some ([], s)
  end.

(** The optional minus sign of a number. *)
Definition parse_sign (s : jstring) : bool * jstring :=
  match s with
  | c :: r => if (c =? 45)%N then (true, r) else (false, s)
  | [] => (false, s)
  end.

(** A number after its sign: an integer part without a superfluous leading
    zero, an optional fraction and an optional exponent. *)
Definition parse_unsigned (neg : bool) (s1 : jstring)
  : option (number * jstring) :=
  match span_digits s1 with
  | ([], _) => None
  | (d :: ip, s2) =>
      if (d =? 0)%N && negb (match ip with [] => true | _ => false end)
      then None
      else
        match parse_fraction s2 with
        | None => None
        | Some (fp, s3) =>
            match parse_exponent s3 with
            | None => None
            | Some (e, s4) =>
                Some (canon (mkNumber neg ((d :: ip) ++ fp)
                                      (Z.of_nat (length (d :: ip)) + e)),
                      s4)
            end
        end
  end.

(** A JSON number. *)
Definition parse_number (s : jstring) : option (number * jstring) :=
  let (neg, s1) := parse_sign s in parse_unsigned neg s1.

(** [s] starts with [p]: what follows [p]. *)
Fixpoint strip_prefix (p s : jstring) : option jstring :=
  match p, s with
  | [], _ => Some s
  | x :: p', y :: s' => if (x =? y)%N then strip_prefix p' s' else None
  | _ :: _, [] => None
  end.

Inductive presult (A : Type) :=
| POk (a : A) (rest : jstring)
| PErr
| PFuel.
Arguments PErr {A}.
Arguments PFuel {A}.

(** Recursive descent.  Every call spends one unit of [fuel]; a call is
    reached only after a character has been consumed, so the length of the
    text bounds the fuel needed ([parse_value_fuel] below). *)
Fixpoint parse_value (fuel : nat) (s : jstring) : presult value :=
  match fuel with
  | O => PFuel
  | S f =>
      match skip_ws s with
      | [] => PErr
      | c :: r =>
          if (c =? 123)%N then
            match skip_ws r with
            | [] => PErr
            | c' :: r' =>
                if (c' =? 125)%N then POk (VObj []) r'
                else
                  match parse_members f (c' :: r') with
                  | POk kvs rest =>
                      POk (VObj (fold_left
                                   (fun o kv => own_set o (fst kv) (snd kv))
                                   kvs [])) rest
                  | PErr => PErr
                  | PFuel => PFuel
                  end
            end
          else if (c =? 91)%N then
            match skip_ws r with
            | [] => PErr
            | c' :: r' =>
                if (c' =? 93)%N then POk (VArr []) r'
                else
                  match parse_elements f (c' :: r') with
                  | POk vs rest => POk (VArr vs) rest
                  | PErr => PErr
                  | PFuel => PFuel
                  end
            end
          else if (c =? 34)%N then
            match parse_string_chars r with
            | Some (str, rest) => POk (VStr str) rest
            | None => PErr
            end
          else if (c =? 116)%N then
            match strip_prefix (lit "rue") r with
            | Some rest => POk (VBool true) rest
            | None => PErr
            end
          else if (c =? 102)%N then
            match strip_prefix (lit "alse") r with
            | Some rest => POk (VBool false) rest
            | None => PErr
            end
          else if (c =? 110)%N then
            match strip_prefix (lit "ull") r with
            | Some rest => POk VNull rest
            | None => PErr
            end
          else
            match parse_number (c :: r) with
            | Some (n, rest) => POk (VNum n) rest
            | None => PErr
            end
      end
  end

with parse_elements (fuel : nat) (s : jstring) : presult (list value) :=
  match fuel with
  | O => PFuel
  | S f =>
      match parse_value f s with
      | POk v r =>
          match skip_ws r with
          | [] => PErr
          | c :: r' =>
              if (c =? 44)%N then
                match parse_elements f r' with
                | POk vs rest => POk (v :: vs) rest
                | PErr => PErr
                | PFuel => PFuel
                end
              else if (c =? 93)%N then POk [v] r'
              else PErr
          end
      | PErr => PErr
      | PFuel => PFuel
      end
  end

with parse_members (fuel : nat) (s : jstring)
  : presult (list (jstring * value)) :=
  match fuel with
  | O => PFuel
  | S f =>
      match skip_ws s with
      | [] => PErr
      | q :: r =>
          if (q =? 34)%N then
            match parse_string_chars r with
            | None => PErr
            | Some (k, r1) =>
                match skip_ws r1 with
                | [] => PErr
                | c :: r2 =>
                    if (c =? 58)%N then
                      match parse_value f r2 with
                      | POk v r3 =>
                          match skip_ws r3 with
                          | [] => PErr
                          | c' :: r4 =>
                              if (c' =? 44)%N then
                                match parse_members f r4 with
                                | POk kvs rest => POk ((k, v) :: kvs) rest
                                | PErr => PErr
                                | PFuel => PFuel
                                end
                              else if (c' =? 125)%N then POk [(k, v)] r4
                              else PErr
                          end
                      | PErr => PErr
                      | PFuel => PFuel
                      end
                    else PErr
                end
            end
          else PErr
      end
  end.

(** [JSON.parse]: [None] is the [SyntaxError]. *)
Definition JSON_parse (s : jstring) : option value :=
  match parse_value (S (2 * length s)) s with
  | POk v rest =>
      match skip_ws rest with
      | [] => Some v
      | _ :: _ => None
      end
  | _ => None
  end.

End Parse.
Import Parse.

(* ================================================================== *)
(** * Property access on a parsed document *)

Module Access.

Inductive exn := SyntaxError | TypeError | RangeError.

Inductive result (A : Type) :=
| Ok (a : A)
| Throw (e : exn).
Arguments Throw {A}.

Definition bind {A B} (r : result A) (k : A -> result B) : result B :=
  match r with
  | Ok a => k a
  | Throw e => Throw e
  end.

Notation "x <- r ;; k" := (bind r (fun x => k))
  (at level 61, r at next level, right associativity).

(** A path segment: an object key or a number. *)
Inductive segment :=
| SKey (k : jstring)
| SIndex (n : number).

(** [typeof seg === "number"]. *)
Definition is_number (s : segment) : bool :=
  match s with
  | SIndex _ => true
  | SKey _ => false
  end.

(** [ToString] of a segment: a number in its decimal form. *)
Definition segment_text (s : segment) : jstring :=
  match s with
  | SKey k => k
  | SIndex n => Number_toString n
  end.

(** [ToPropertyKey]: a number is looked up under its decimal form. *)
Definition property_key (s : segment) : jstring := segment_text s.

(** What the embedding leaves open about the engine and its built-in
    objects. *)
Record Host := mkHost {
  (** [inherited is_array k]: [k in o] holds although [o] has no property
      [k] of its own, because [k] is found on the prototype chain of an
      object, or of an array ([toString], [constructor], ...). *)
  inherited : bool -> jstring -> bool;
  (** Once the cursor has left the document at container [o] (through an
      inherited property, or a named property of an array), whether the rest
      of the update, along the remaining segments and with the new value,
      raises. *)
  off_document_raises : value -> list segment -> value -> bool;
  (** The array length a value denotes ([ToUint32] of [ToNumber], when they
      agree); [None] is the [RangeError] of [ArraySetLength]. *)
  to_array_length : value -> option N;
  (** [JSON.stringify] raises on the value: [SerializeJSONProperty] is
      recursive, and an engine gives up with a [RangeError] on a value nested
      deeper than its stack allows, although [JSON.parse] has read it. *)
  stringify_raises : value -> bool
}.

(** [items[i] = v]; writing past the end extends the array.  The padding is
    serialised as [null] and is never inspected before serialisation, so it
    is kept as [VNull]. *)
Fixpoint set_index (items : list value) (i : nat) (v : value) : list value :=
  match i, items with
  | O, [] => [v]
  | O, _ :: rest => v :: rest
  | S i', [] => VNull :: set_index [] i' v
  | S i', x :: rest => x :: set_index rest i' v
  end.

(** [items.length = n]. *)
Fixpoint resize (items : list value) (n : nat) : list value :=
  match n, items with
  | O, _ => []
  | S n', [] => VNull :: resize [] n'
  | S n', x :: rest => x :: resize rest n'
  end.

Inductive found :=
| Own (child : value)
| Inherited
| Missing.

Definition proto_key : jstring := lit "__proto__".
Definition length_key : jstring := lit "length".

(** [k] is found on the prototype chain: [__proto__] always is, the rest is
    the host's. *)
Definition on_chain (h : Host) (is_array : bool) (k : jstring) : bool :=
  jstring_eqb k proto_key || inherited h is_array k.

(** [key in current], with the value of [current[key]] when the cursor can
    follow it: a property or an element of the document, or the [length] of
    an array.  The [in] operator raises on a primitive. *)
Definition lookup (h : Host) (current : value) (k : jstring) : result found :=
  match current with
  | VObj ps =>
      match own_get ps k with
      | Some child => Ok (Own child)
      | None => Ok (if on_chain h false k then Inherited else Missing)
      end
  | VArr items =>
      match array_index k with
      | Some i =>
          match nth_error items (N.to_nat i) with
          | Some child => Ok (Own child)
          | None => Ok (if on_chain h true k then Inherited else Missing)
          end
      | None =>
          if jstring_eqb k length_key
          then Ok (Own (VNum (of_N (N.of_nat (length items)))))
          else Ok (if on_chain h true k then Inherited else Missing)
      end
  | _ => Throw TypeError
  end.

(** The document after [container[k] = v], for a key that is, or becomes, an
    own property or an element. *)
Definition put (container : value) (k : jstring) (v : value) : value :=
  match container with
  | VObj ps => VObj (own_set ps k v)
  | VArr items =>
      match array_index k with
      | Some i => VArr (set_index items (N.to_nat i) v)
      | None => container
      end
  | _ => container
  end.

(** [current[k] = v] in strict mode (the file is an ES module).
    - A primitive cannot take a property: [TypeError].
    - On an object without an own [__proto__], assigning [__proto__] calls
      the setter of [Object.prototype]; no property is created.
    - On an array, an index writes the element, [length] resizes, and any
      other key creates a named property, which [JSON.stringify] ignores. *)
Definition assign (h : Host) (current : value) (k : jstring) (v : value)
  : result value :=
  match current with
  | VObj ps =>
      if jstring_eqb k proto_key && negb (has_own ps k) then Ok current
      else Ok (VObj (own_set ps k v))
  | VArr items =>
      match array_index k with
      | Some i => Ok (VArr (set_index items (N.to_nat i) v))
      | None =>
          if jstring_eqb k length_key then
            match to_array_length h v with
            | Some n => Ok (VArr (resize items (N.to_nat n)))
            | None => Throw RangeError
            end
          else Ok current
      end
  | _ => Throw TypeError
  end.

(** The cursor [current] as a zipper: the containers above it, innermost
    first, each with the key the cursor went through. *)
Definition frame := (value * jstring)%type.

Fixpoint plug (ctx : list frame) (current : value) : value :=
  match ctx with
  | [] => current
  | (parent, k) :: up => plug up (put parent k current)
  end.

End Access.
Import Access.

(* ================================================================== *)
(** * The helpers of the modal *)

Module NodeModal.

(** [NodeData["path"]]: the segments from the root of the document. *)
Definition Path := list segment.

(** ** [updateJsonAtPath] *)

(** Where the loop over the leading segments ends. *)
Inductive cursor :=
| AtLast (ctx : list frame) (current : value) (lastKey : segment)
| OffDocument (obj : value) (container : value) (rest : list segment).

(** The [for] loop: for every segment but the last, create the container
    when [key in current] fails, then move [current] into [current[key]]. *)
Fixpoint descend (h : Host) (ctx : list frame) (current : value) (p : Path)
  : result cursor :=
  match p with
  | [] => Throw TypeError
  | [lastKey] => Ok (AtLast ctx current lastKey)
  | key :: ((next :: _) as rest) =>
      let k := property_key key in
      f <- lookup h current k ;;
      match f with
      | Own child => descend h ((current, k) :: ctx) child rest
      | Inherited => Ok (OffDocument (plug ctx current) current p)
      | Missing =>
          let fresh := if is_number next then VArr [] else VObj [] in
          match current, array_index k with
          | VArr _, None => Ok (OffDocument (plug ctx current) current p)
          | _, _ => descend h ((put current k fresh, k) :: ctx) fresh rest
          end
      end
  end.

(** [try { parsedValue = JSON.parse(newValue) } catch { parsedValue =
    newValue }]. *)
Definition parse_or_raw (newValue : jstring) : value :=
  match JSON_parse newValue with
  | Some v => v
  | None => VStr newValue
  end.

(** [JSON.stringify(v, null, 2)] on a host: the text, unless the stack is
    exhausted. *)
Definition stringify (h : Host) (v : value) : result jstring :=
  if stringify_raises h v then Throw RangeError else Ok (JSON_stringify v).

(** [try { ... } catch { ... }]. *)
Definition catch {A : Type} (r : result A) (handler : exn -> result A)
  : result A :=
  match r with
  | Ok a => Ok a
  | Throw e => handler e
  end.

(** [JSON.parse] as a computation that may raise. *)
Definition parse (s : jstring) : result value :=
  match JSON_parse s with
  | Some v => Ok v
  | None => Throw SyntaxError
  end.

(** The body of the outer [try].  In the branch without path the inner
    [try] holds the parse and the serialisation, and its [catch] serialises
    the new text as a string, which does not nest. *)
Definition updateJsonAtPath_body (h : Host) (json : jstring)
  (p : option Path) (newValue : jstring) : result jstring :=
  match JSON_parse json with
  | None => Throw SyntaxError
  | Some obj =>
      match p with
      | None | Some [] =>
          catch (v <- parse newValue ;; stringify h v)
                (fun _ => Ok (JSON_stringify (VStr newValue)))
      | Some p =>
          c <- descend h [] obj p ;;
          let parsedValue := parse_or_raw newValue in
          match c with
          | AtLast ctx current lastKey =>
              current' <- assign h current (property_key lastKey) parsedValue ;;
              stringify h (plug ctx current')
          | OffDocument obj' container rest =>
              if off_document_raises h container rest parsedValue
              then Throw TypeError
              else stringify h obj'
          end
      end
  end.

(** [updateJsonAtPath]: the body, and the original text when it raised. *)
Definition updateJsonAtPath (h : Host) (json : jstring) (p : option Path)
  (newValue : jstring) : jstring :=
  match updateJsonAtPath_body h json p newValue with
  | Ok s => s
  | Throw _ => json
  end.

(** ** [normalizeNodeData] *)

(** Modelled from the spec: the type [NodeData] of [types/graph] is not
    among the sources.  Section 3 gives a node an identifier, rows
    [{key?, value, type}] and a path; the value of a row is a primitive. *)
Inductive scalar :=
| PNull
| PBool (b : bool)
| PNum (n : number)
| PStr (s : jstring).

(** A row of [NodeData["text"]]; [key], [value] and [type] of the source. *)
Record NodeRow := mkRow {
  row_key : option jstring;
  row_value : scalar;
  row_type : option jstring
}.

Definition scalar_value (x : scalar) : value :=
  match x with
  | PNull => VNull
  | PBool b => VBool b
  | PNum n => VNum n
  | PStr s => VStr s
  end.

(** The value inside a template literal: [ToString]. *)
Definition template (x : scalar) : jstring :=
  match x with
  | PNull => lit "null"
  | PBool true => lit "true"
  | PBool false => lit "false"
  | PNum n => Number_toString n
  | PStr s => s
  end.

(** Truthiness of [row.key]: present and not the empty string. *)
Definition truthy_key (k : option jstring) : option jstring :=
  match k with
  | Some (c :: r) => Some (c :: r)
  | _ => None
  end.

Definition type_is (t : option jstring) (name : string) : bool :=
  match t with
  | Some s => jstring_eqb s (lit name)
  | None => false
  end.

(** The object [obj] while [forEach] fills it: its own properties, and
    whether its prototype is still [Object.prototype]. *)
Record literal := mkLiteral {
  fields : props;
  has_prototype : bool
}.

(** [const obj = {}]. *)
Definition empty_literal : literal := mkLiteral [] true.

(** [obj[k] = v].  As long as [obj] has no [__proto__] of its own and its
    prototype is [Object.prototype], the key [__proto__] reaches the setter
    found there: [null] removes the prototype, any other primitive is
    ignored, and no property is created.  Once the prototype is removed the
    setter is out of reach, and [__proto__] is a key like any other. *)
Definition object_assign (obj : literal) (k : jstring) (v : value)
  : literal :=
  if jstring_eqb k proto_key && negb (has_own (fields obj) k)
     && has_prototype obj
  then mkLiteral (fields obj) (match v with VNull => false | _ => true end)
  else mkLiteral (own_set (fields obj) k v) (has_prototype obj).

(** The body of the [forEach] callback. *)
Definition add_row (obj : literal) (row : NodeRow) : literal :=
  if negb (type_is (row_type row) "array")
     && negb (type_is (row_type row) "object")
  then
    match truthy_key (row_key row) with
    | Some k => object_assign obj k (scalar_value (row_value row))
    | None => obj
    end
  else obj.

Definition normalizeNodeData (nodeRows : option (list NodeRow)) : jstring :=
  match nodeRows with
  | None | Some [] => lit "{}"
  | Some (r0 :: rest) =>
      match rest, truthy_key (row_key r0) with
      | [], None => template (row_value r0)
      | _, _ =>
          JSON_stringify
            (VObj (fields (fold_left add_row (r0 :: rest) empty_literal)))
      end
  end.

(** ** [jsonPathToString] *)

(** An element of the array [segments]: a number left as it is, or the
    key between double quotes.  [join] then applies [ToString] to each. *)
Definition quoted (seg : segment) : segment :=
  match seg with
  | SIndex n => SIndex n
  | SKey s => SKey (34%N :: s ++ [34%N])
  end.

Definition jsonPathToString (p : option Path) : jstring :=
  match p with
  | None | Some [] => lit "$"
  | Some p =>
      let segments := map quoted p in
      lit "$[" ++ join (lit "][") (map segment_text segments) ++ lit "]"
  end.

(** ** The view *)

(** A node of the graph, by its fields [id], [text] and [path] (see
    [scalar] for where the type comes from). *)
Record NodeData := mkNode {
  id : jstring;
  text : option (list NodeRow);
  path : option Path
}.

(** Modelled from the spec: the stores [useGraph], [useJson] and [useFile]
    are not among the sources.  Section 6 lists what the component takes
    from them.  This is what it reads at a render: the selected node and the
    node list of the graph store, the text of the document store.  What it
    calls on them is recorded as an [effect]. *)
Record Stores := mkStores {
  selectedNode : option NodeData;
  nodes : list NodeData;
  json : jstring
}.

(** The local state: [isEditing] and [editValue]. *)
Record View := mkView {
  isEditing : bool;
  editValue : jstring
}.

(** The function handed to [setTimeout]; it closes over [originalNodeId]. *)
Inductive callback :=
| Reselect (originalNodeId : jstring).

(** Calls on the collaborators and on the window, in program order. *)
Inductive effect :=
| ConsoleError (msg : jstring) (e : exn)
| Alert (msg : jstring)
| SetJson (contents : jstring)
| SetContents (contents : jstring) (hasChanges skipUpdate : bool)
| SetSelectedNode (n : NodeData)
| SetTimeout (cb : callback) (delay : N).

Definition initial : View := mkView false [].

(** The [console.error] of [updateJsonAtPath]. *)
Definition updateJsonAtPath_log (h : Host) (json : jstring) (p : option Path)
  (newValue : jstring) : list effect :=
  match updateJsonAtPath_body h json p newValue with
  | Ok _ => []
  | Throw e => [ConsoleError (lit "Failed to update JSON:") e]
  end.

(** The [useEffect] on [[nodeData, isEditing]]. *)
Definition sync_effect (nodeData : option NodeData) (v : View) : View :=
  match nodeData with
  | Some n =>
      if isEditing v then
        mkView (isEditing v)
               (normalizeNodeData
                  (Some (match text n with Some rows => rows | None => [] end)))
      else v
  | None => v
  end.

Definition handleEdit (v : View) : View := mkView true (editValue v).

Definition handleCancel (v : View) : View := mkView false [].

Definition invalid_message : jstring :=
  lit "Invalid JSON format. Please check your input.".

Definition handleSave (h : Host) (st : Stores) (v : View)
  : View * list effect :=
  match selectedNode st with
  | None => (v, [])
  | Some nodeData =>
      let updatedJson :=
        updateJsonAtPath h (json st) (path nodeData) (editValue v) in
      let log :=
        updateJsonAtPath_log h (json st) (path nodeData) (editValue v) in
      match JSON_parse updatedJson with
      | Some _ =>
          let originalNodeId := id nodeData in
          (mkView false (editValue v),
           log ++ [SetJson updatedJson;
                   SetContents updatedJson true false;
                   SetTimeout (Reselect originalNodeId) 200%N])
      | None =>
          (v, log ++ [ConsoleError (lit "Invalid JSON:") SyntaxError;
                      Alert invalid_message])
      end
  end.

(** The delayed callback, run against the graph store as it is then. *)
Definition run_callback (cb : callback) (currentNodes : list NodeData)
  : list effect :=
  match cb with
  | Reselect originalNodeId =>
      match find (fun node => jstring_eqb (id node) originalNodeId)
                 currentNodes with
      | Some updatedNode => [SetSelectedNode updatedNode]
      | None => []
      end
  end.

(** What can happen to the mounted component.  The buttons and the text area
    exist only in the state that renders them.  The stores belong to the
    collaborators: a call on them is recorded in the trace, and a change of
    what they hold reaches the component as an event. *)
Inductive event :=
| ClickEdit
| ClickCancel
| ClickSave
| Input (s : jstring)
| SelectionChanged (nodeData : option NodeData)
| NodesChanged (currentNodes : list NodeData)
| DocumentChanged (contents : jstring)
| TimerFired (cb : callback).

Record State := mkState {
  view : View;
  stores : Stores;
  trace : list effect
}.

(** After a render, the effect runs when one of its dependencies changed. *)
Definition rerender (changed : bool) (st : Stores) (v : View) : View :=
  if changed then sync_effect (selectedNode st) v else v.

Definition step (h : Host) (s : State) (e : event) : State :=
  let v := view s in
  let st := stores s in
  match e with
  | ClickEdit =>
      if isEditing v then s
      else mkState (rerender true st (handleEdit v)) st (trace s)
  | ClickCancel =>
      if isEditing v
      then mkState (rerender true st (handleCancel v)) st (trace s)
      else s
  | ClickSave =>
      if isEditing v then
        let (v', effs) := handleSave h st v in
        mkState (rerender (negb (eqb (isEditing v') (isEditing v))) st v')
                st (trace s ++ effs)
      else s
  | Input txt =>
      if isEditing v then mkState (mkView (isEditing v) txt) st (trace s)
      else s
  | SelectionChanged nodeData =>
      let st' := mkStores nodeData (nodes st) (json st) in
      mkState (rerender true st' v) st' (trace s)
  | NodesChanged currentNodes =>
      mkState v (mkStores (selectedNode st) currentNodes (json st)) (trace s)
  | DocumentChanged contents =>
      mkState v (mkStores (selectedNode st) (nodes st) contents) (trace s)
  | TimerFired cb =>
      mkState v st (trace s ++ run_callback cb (nodes st))
  end.

Definition run (h : Host) (s : State) (es : list event) : State :=
  fold_left (step h) es s.

End NodeModal.
Import NodeModal.

(* ================================================================== *)
(** * The vocabulary of the statements *)

Module Statements.


(** ** Paths as text *)

(** One bracketed term: a number as it prints, a key between double
    quotes. *)
Definition bracketed (seg : segment) : jstring :=
  match seg with
  | SIndex n => lit "[" ++ Number_toString n ++ lit "]"
  | SKey s => lit "[" ++ 34%N :: s ++ 34%N :: lit "]"
  end.

(** ** Effects *)

(** A write to the document store, the file-content store or the selection
    store. *)
Definition is_store_write (e : effect) : bool :=
  match e with
  | SetJson _ | SetContents _ _ _ | SetSelectedNode _ => true
  | _ => false
  end.

Definition is_timer (e : effect) : bool :=
  match e with
  | SetTimeout _ _ => true
  | _ => false
  end.

Definition is_alert (e : effect) : bool :=
  match e with
  | Alert _ => true
  | _ => false
  end.

End Statements.
Import Statements.

(* ================================================================== *)
(** * [normalizeNodeData], as described *)

Module NormalizeSpec.

(** The entry a row contributes to the mapping: its key and value, unless
    the row has no key or is of type array or object.  [keyed] says what
    having a key means. *)
Definition entry (keyed : NodeRow -> option jstring) (row : NodeRow)
  : list (jstring * value) :=
  match keyed row with
  | Some k =>
      if type_is (row_type row) "array" || type_is (row_type row) "object"
      then []
      else [(k, scalar_value (row_value row))]
  | None => []
  end.

(** The object that maps each key to its value (a later entry for a key
    replaces an earlier one). *)
Definition mapping (entries : list (jstring * value)) : props :=
  fold_left (fun o kv => own_set o (fst kv) (snd kv)) entries [].

(** The description of [normalizeNodeData] in three cases. *)
Definition described (keyed : NodeRow -> option jstring)
  (nodeRows : option (list NodeRow)) : jstring :=
  match nodeRows with
  | None | Some [] => lit "{}"
  | Some rows =>
      match rows, map keyed rows with
      | [r], [None] => template (row_value r)
      | _, _ => JSON_stringify (VObj (mapping (flat_map (entry keyed) rows)))
      end
  end.

(** A row has a key when the field is there. *)
Definition key_present (row : NodeRow) : option jstring := row_key row.

(** A row has a key when the field is there and is not the empty string. *)
Definition key_nonempty (row : NodeRow) : option jstring :=
  truthy_key (row_key row).

End NormalizeSpec.
Import NormalizeSpec.

(* ================================================================== *)
(** * [updateJsonAtPath] along a path, as described *)

Module UpdateSpec.

(** The entry of a container under a key: a property of an object, an
    element of an array. *)
Definition entry_of (container : value) (k : jstring) : option value :=
  match container with
  | VObj ps => own_get ps k
  | VArr items =>
      match array_index k with
      | Some i => nth_error items (N.to_nat i)
      | None => None
      end
  | _ => None
  end.

(** The container created for a missing step. *)
Definition created (next : segment) : value :=
  if is_number next then VArr [] else VObj [].

(** The update as section 4.3 describes it: walk the segments but the last,
    creating a container at each missing step; assign at the last. *)
Fixpoint update_along (current : value) (p : Path) (v : value) : value :=
  match p with
  | [] => current
  | [lastKey] => put current (property_key lastKey) v
  | key :: ((next :: _) as rest) =>
      let k := property_key key in
      let child :=
        match entry_of current k with
        | Some c => c
        | None => created next
        end in
      put current k (update_along child rest v)
  end.

(** A key addresses the document at a container: the container is an object
    or an array, and the key is an entry of it, or is simply absent (neither
    inherited nor, on an array, anything but an index). *)
Definition addresses (h : Host) (container : value) (k : jstring) : bool :=
  match container with
  | VObj ps => has_own ps k || negb (on_chain h false k)
  | VArr items =>
      match array_index k with
      | Some i =>
          (i <? N.of_nat (length items))%N || negb (on_chain h true k)
      | None => false
      end
  | _ => false
  end.

(** A key can be assigned in the document at a container: an object, unless
    the key is a [__proto__] it does not own; an array, at an index. *)
Definition assignable (container : value) (k : jstring) : bool :=
  match container with
  | VObj ps => negb (jstring_eqb k proto_key) || has_own ps k
  | VArr _ =>
      match array_index k with
      | Some _ => true
      | None => false
      end
  | _ => false
  end.

(** The whole walk stays in the document. *)
Fixpoint within_document (h : Host) (current : value) (p : Path) : bool :=
  match p with
  | [] => false
  | [lastKey] => assignable current (property_key lastKey)
  | key :: ((next :: _) as rest) =>
      let k := property_key key in
      addresses h current k
      && within_document h
           (match entry_of current k with
            | Some c => c
            | None => created next
            end) rest
  end.

Definition is_primitive (v : value) : bool :=
  match v with
  | VArr _ | VObj _ => false
  | _ => true
  end.

(** Following entries that exist, the walk arrives at a primitive with
    segments still to go. *)
Fixpoint reaches_primitive (current : value) (p : Path) : bool :=
  match p with
  | [] => false
  | key :: rest =>
      is_primitive current
      || match rest with
         | [] => false
         | _ :: _ =>
             match entry_of current (property_key key) with
             | Some c => reaches_primitive c rest
             | None => false
             end
         end
  end.

End UpdateSpec.
Import UpdateSpec.

(* ================================================================== *)
(** * Serialised texts *)

Module Texts.

(** What may follow a serialised value: the end of the text, a comma or a
    line feed. *)
Definition follows (rest : jstring) : Prop :=
  rest = [] \/ exists r, rest = 44%N :: r \/ rest = nl :: r.

(** The text does not go on with a digit. *)
Definition stops (rest : jstring) : Prop :=
  match rest with
  | [] => True
  | c :: _ => is_digit c = false
  end.

(** The general shape of a number text: integer digits, fraction digits
    after a point when there are any, and an exponent when there is one. *)
Definition fraction_text (fp : list N) : jstring :=
  match fp with
  | [] => []
  | _ => 46%N :: digit_chars fp
  end.

Definition exponent_text (ex : option (bool * list N)) : jstring :=
  match ex with
  | None => []
  | Some (neg, eds) =>
      101%N :: (if neg then 45%N else 43%N) :: digit_chars eds
  end.

(** The line feed, the indentation and the bracket that close a container. *)
Definition closing (indent : nat) (bracket : code_unit) (rest : jstring)
  : jstring :=
  nl :: spaces indent ++ bracket :: rest.

Definition separator : jstring := [44%N; nl].

Definition element_text (indent : nat) (x : value) : jstring :=
  spaces indent ++ serialize indent x.

Definition member_text (indent : nat) (kv : jstring * value) : jstring :=
  spaces indent ++ QuoteJSONString (fst kv)
  ++ 58%N :: 32%N :: serialize indent (snd kv).

Definition lift_result {A B : Type} (f : A -> B) (r : presult A)
  : presult B :=
  match r with
  | POk a rest => POk (f a) rest
  | PErr => PErr
  | PFuel => PFuel
  end.

Definition object_of (kvs : list (jstring * value)) : value :=
  VObj (fold_left (fun o kv => own_set o (fst kv) (snd kv)) kvs []).

(** The parser succeeds and leaves [rest]. *)
Definition accepts {A : Type} (r : presult A) (rest : jstring) : Prop :=
  exists a, r = POk a rest.

Definition value_ok (f : nat) : Prop :=
  forall v indent rest,
    length (serialize indent v) < f ->
    follows rest ->
    accepts (parse_value f (serialize indent v ++ rest)) rest.

Definition elements_ok (f : nat) : Prop :=
  forall indent items ci rest,
    items <> [] ->
    S (length (join separator (map (element_text indent) items))) < f ->
    accepts
      (parse_elements f
         (join separator (map (element_text indent) items)
          ++ closing ci 93%N rest))
      rest.

Definition members_ok (f : nat) : Prop :=
  forall indent items ci rest,
    items <> [] ->
    S (length (join separator (map (member_text indent) items))) < f ->
    accepts
      (parse_members f
         (join separator (map (member_text indent) items)
          ++ closing ci 125%N rest))
      rest.

Definition value_consumes (f : nat) : Prop :=
  forall s v r, parse_value f s = POk v r -> length r < length s.

Definition elements_consume (f : nat) : Prop :=
  forall s vs r, parse_elements f s = POk vs r -> length r < length s.

Definition members_consume (f : nat) : Prop :=
  forall s kvs r, parse_members f s = POk kvs r -> length r < length s.

Definition value_fuelled (f : nat) : Prop :=
  forall s, 2 * length s < f -> parse_value f s <> PFuel.

Definition elements_fuelled (f : nat) : Prop :=
  forall s, 2 * length s + 1 < f -> parse_elements f s <> PFuel.

Definition members_fuelled (f : nat) : Prop :=
  forall s, 2 * length s < f -> parse_members f s <> PFuel.

End Texts.
Import Texts.

(* ================================================================== *)
(** * Sample data *)

Module Samples.

(** A host without inherited properties; the examples below do not depend
    on it. *)
Definition bare_host : Host :=
  mkHost (fun _ _ => false) (fun _ _ _ => false) (fun _ => None)
         (fun _ => false).

Definition sample_node : NodeData :=
  mkNode (lit "2") (Some [mkRow None (PNum (of_N 1)) (Some (lit "number"))])
         (Some [SKey (lit "a")]).

Definition other_node : NodeData :=
  mkNode (lit "3")
         (Some [mkRow (Some (lit "name")) (PStr (lit "x")) (Some (lit "string"))])
         (Some [SKey (lit "b")]).

Definition sample_rows : list NodeRow :=
  [mkRow (Some (lit "a")) (PNum (of_N 1)) (Some (lit "number"));
   mkRow (Some (lit "b")) (PStr (lit "[]")) (Some (lit "array"))].

(** The row [{key: "", value: 5, type: "number"}]. *)
Definition empty_key_row : NodeRow :=
  mkRow (Some []) (PNum (mkNumber false [5%N] 1)) (Some (lit "number")).

Definition path_a_b_c : Path :=
  [SKey (lit "a"); SKey (lit "b"); SKey (lit "c")].

Definition document_a : jstring := jsn "{'a':1}".

Definition emptied_text : jstring := unlines (map jsn ["{"; "  'a': ''"; "}"]%string).

Definition viewing_state : State :=
  mkState initial (mkStores (Some sample_node) [sample_node] document_a) [].

Definition editing_state : State :=
  mkState (mkView true (lit "2"))
          (mkStores (Some sample_node) [sample_node] (jsn "{'a':1}")) [].


End Samples.
Import Samples.

(* ================================================================== *)
(** * What the view renders *)

Module Rendering.

(** The content panel: the text area while editing, the highlighted code
    otherwise. *)
Inductive panel :=
| Textarea (value : jstring)
| CodeHighlight (code : jstring).

Inductive button := EditButton | CancelButton | SaveButton.

Record Rendered := mkRendered {
  content : panel;
  jsonPath : jstring;
  buttons : list button
}.

(** [nodeData?.text ?? []]. *)
Definition rows_of (nodeData : option NodeData) : list NodeRow :=
  match nodeData with
  | Some n => match text n with Some rows => rows | None => [] end
  | None => []
  end.

(** [nodeData?.path]. *)
Definition path_of (nodeData : option NodeData) : option Path :=
  match nodeData with
  | Some n => path n
  | None => None
  end.

(** The element [NodeModal] returns: the content panel, the JSON path
    panel, and the buttons of the current state. *)
Definition render (st : Stores) (v : View) : Rendered :=
  mkRendered
    (if isEditing v then Textarea (editValue v)
     else CodeHighlight (normalizeNodeData (Some (rows_of (selectedNode st)))))
    (jsonPathToString (path_of (selectedNode st)))
    (if isEditing v then [CancelButton; SaveButton] else [EditButton]).

Definition screen (s : State) : Rendered := render (stores s) (view s).

End Rendering.
Import Rendering.

(* ================================================================== *)
(** * Reading a document along a path *)

Module Reading.

(** The value at a path: entries of objects and elements of arrays,
    followed from the root. *)
Fixpoint get_at (v : value) (p : Path) : option value :=
  match p with
  | [] => Some v
  | key :: rest =>
      match entry_of v (property_key key) with
      | Some child => get_at child rest
      | None => None
      end
  end.

(** Two paths part ways: after a common beginning they go on under
    different keys. *)
Inductive part_ways : Path -> Path -> Prop :=
| part_here (k1 k2 : segment) (p q : Path) :
    property_key k1 <> property_key k2 ->
    part_ways (k1 :: p) (k2 :: q)
| part_later (k1 k2 : segment) (p q : Path) :
    property_key k1 = property_key k2 ->
    part_ways p q ->
    part_ways (k1 :: p) (k2 :: q).

(** The keys of a path hold no double quote. *)
Definition quote_free (p : Path) : Prop :=
  forall s, In (SKey s) p -> ~ In 34%N s.

(** The keys of an object, in the order [JSON.stringify] writes them. *)
Definition keys (ps : props) : list jstring := map fst ps.

(** A store write that carries a text. *)
Definition committed (e : effect) : option jstring :=
  match e with
  | SetJson u => Some u
  | SetContents u _ _ => Some u
  | _ => None
  end.

(** The store writes of a piece of trace are sound: every text handed to
    the document store parses and is handed to the file-content store as
    well, with [hasChanges] set and [skipUpdate] cleared; and the
    file-content store receives nothing else. *)
Definition sound_writes (added : list effect) : Prop :=
  (forall u, In (SetJson u) added ->
             JSON_parse u <> None /\ In (SetContents u true false) added)
  /\ (forall c a b, In (SetContents c a b) added ->
                    a = true /\ b = false /\ In (SetJson c) added).

End Reading.
Import Reading.

(* ================================================================== *)
(** * Canonical values *)

Module Canonical.

(** A number of the engine has one representation; the record [number] has
    several, which [canon] identifies.  The canonical one stands for the
    number. *)

(** A number in the form [canon] gives: digits below ten, the first and the
    last not zero; zero has no digit, no sign and exponent 0. *)
Definition canonical_number (x : number) : bool :=
  forallb (fun d => (d <? 10)%N) (ndigits x)
  && match ndigits x with
     | [] => negb (nneg x) && (nexp x =? 0)%Z
     | d :: _ => negb (d =? 0)%N && negb (last (ndigits x) 0 =? 0)%N
     end.

(** The exponent a written exponent part stands for. *)
Definition exponent_value (ex : option (bool * list N)) : Z :=
  match ex with
  | None => 0%Z
  | Some (neg, eds) =>
      if neg then (- digits_Z (map dig eds))%Z else digits_Z (map dig eds)
  end.

(** A key may come later than another one in the enumeration of own
    properties: array indices ascending first, then the other keys. *)
Definition may_follow (first later : jstring) : bool :=
  negb (jstring_eqb first later)
  && match array_index first, array_index later with
     | Some i, Some j => (i <? j)%N
     | Some _, None => true
     | None, Some _ => false
     | None, None => true
     end.

(** Keys as [OrdinaryOwnPropertyKeys] lists them, none twice. *)
Fixpoint keys_ordered (ks : list jstring) : bool :=
  match ks with
  | [] => true
  | k :: rest => forallb (may_follow k) rest && keys_ordered rest
  end.

(** A value as [JSON.parse] builds it: numbers in canonical form, the
    properties of every object in enumeration order. *)
Fixpoint canonical (v : value) : bool :=
  match v with
  | VNum n => canonical_number n
  | VArr items => forallb canonical items
  | VObj ps =>
      keys_ordered (keys ps) && forallb (fun kv => canonical (snd kv)) ps
  | _ => true
  end.

(** With [f] units of fuel, a canonical value whose text is shorter than [f]
    is parsed back from its text; likewise the elements of an array and the
    members of an object, up to the closing bracket. *)
Definition value_back (f : nat) : Prop :=
  forall v indent rest,
    canonical v = true ->
    length (serialize indent v) < f ->
    follows rest ->
    parse_value f (serialize indent v ++ rest) = POk v rest.

Definition elements_back (f : nat) : Prop :=
  forall indent items ci rest,
    items <> [] ->
    forallb canonical items = true ->
    S (length (join separator (map (element_text indent) items))) < f ->
    parse_elements f
      (join separator (map (element_text indent) items)
       ++ closing ci 93%N rest)
    = POk items rest.

Definition members_back (f : nat) : Prop :=
  forall indent items ci rest,
    items <> [] ->
    forallb (fun kv => canonical (snd kv)) items = true ->
    S (length (join separator (map (member_text indent) items))) < f ->
    parse_members f
      (join separator (map (member_text indent) items)
       ++ closing ci 125%N rest)
    = POk items rest.

(** Digits as the parser reads them. *)
Definition small_digits (ds : list N) : bool :=
  forallb (fun d => (d <? 10)%N) ds.

(** With [f] units of fuel, what the parser returns is canonical. *)
Definition value_canonical (f : nat) : Prop :=
  forall s v r, parse_value f s = POk v r -> canonical v = true.

Definition elements_canonical (f : nat) : Prop :=
  forall s vs r, parse_elements f s = POk vs r -> forallb canonical vs = true.

Definition members_canonical (f : nat) : Prop :=
  forall s kvs r,
    parse_members f s = POk kvs r ->
    forallb (fun kv => canonical (snd kv)) kvs = true.

End Canonical.
Import Canonical.

(* ================================================================== *)
(** * The rows of a node, read back *)

Module Rows.



(** The value of a node that is a lone row without key. *)
Definition leaf_value (rows : list NodeRow) : option scalar :=
  match rows with
  | [r] =>
      match truthy_key (row_key r) with
      | None => Some (row_value r)
      | Some _ => None
      end
  | _ => None
  end.

(** The object [forEach] leaves, as a value. *)
Definition rows_object (rows : list NodeRow) : value :=
  VObj (fields (fold_left add_row rows empty_literal)).

(** What the text shown for the rows is read back as: the object of the
    keyed scalar rows; for a lone row without key, its value, a string being
    parsed when it can be. *)
Definition rows_value (rows : list NodeRow) : value :=
  match leaf_value rows with
  | Some (PStr s) => parse_or_raw s
  | Some x => scalar_value x
  | None => rows_object rows
  end.

(** Two values are written alike: [JSON.stringify] gives the same text for
    both.  What a text parses to is compared with what was written up to
    this, so that nothing hinges on what the text does not tell apart. *)
Definition written_alike (v w : value) : Prop :=
  JSON_stringify v = JSON_stringify w.

(** The value the branch without path serialises: what the new text parses
    to, or the new text itself, as a string, when it does not parse or when
    the serialisation of what it parses to raises. *)
Definition replacement (h : Host) (newValue : jstring) : value :=
  match JSON_parse newValue with
  | Some v => if stringify_raises h v then VStr newValue else v
  | None => VStr newValue
  end.

(** A sample: a node with a scalar field and a nested object. *)
Definition nested_node : NodeData :=
  mkNode (lit "1")
         (Some [mkRow (Some (lit "a")) (PNum (of_N 1)) (Some (lit "number"));
                mkRow (Some (lit "b")) (PStr (lit "{1 key}"))
                      (Some (lit "object"))])
         (Some [SKey (lit "x")]).

Definition nested_state : State :=
  mkState initial
          (mkStores (Some nested_node) [nested_node]
                    (jsn "{'x':{'a':1,'b':{'c':2}}}")) [].

(** A sample: a node whose path leads through the number at [a]. *)
Definition deep_node : NodeData :=
  mkNode (lit "4") (Some [mkRow None (PNum (of_N 1)) (Some (lit "number"))])
         (Some path_a_b_c).

Definition deep_state : State :=
  mkState (mkView true (lit "2"))
          (mkStores (Some deep_node) [deep_node] document_a) [].

(** A sample: rows that write [__proto__] twice, first with [null]. *)
Definition proto_rows : list NodeRow :=
  [mkRow (Some proto_key) PNull (Some (lit "null"));
   mkRow (Some proto_key) (PNum (of_N 5)) (Some (lit "number"))].

End Rows.
Import Rows.

(* ================================================================== *)
(** * A bounded stack *)

Module Stack.

(** How deep the arrays and objects of a value nest. *)
Fixpoint depth (v : value) : nat :=
  match v with
  | VArr items => S (fold_right (fun x d => Nat.max (depth x) d) 0 items)
  | VObj ps => S (fold_right (fun kv d => Nat.max (depth (snd kv)) d) 0 ps)
  | _ => 0
  end.

(** A host like [bare_host], whose [JSON.stringify] gives up on a value
    nested deeper than [limit].  Engines differ in the depth they reach. *)
Definition stack_host (limit : nat) : Host :=
  mkHost (fun _ _ => false) (fun _ _ _ => false) (fun _ => None)
         (fun v => limit <? depth v).

(** [n] opening brackets followed by [n] closing ones, and the arrays they
    stand for. *)
Definition brackets (n : nat) : jstring := repeat 91%N n ++ repeat 93%N n.

Fixpoint nest (n : nat) : value :=
  match n with
  | O => VArr []
  | S m => VArr [nest m]
  end.

(** A sample: a document of two elements, 1001 nested arrays and the
    number 1. *)
Definition deep_document : jstring := 91%N :: brackets 1001 ++ lit ",1]".

End Stack.
Import Stack.

(* ================================================================== *)
(** * Strings *)

Lemma jstring_eqb_eq (a b : jstring) : jstring_eqb a b = true <-> a = b.
Proof.
  revert b; induction a as [|x a IH]; intros [|y b]; simpl;
    try (split; [discriminate | congruence]); try tauto.
  rewrite andb_true_iff, N.eqb_eq, IH.
  split; [intros [-> ->]; reflexivity | intros H; inversion H; auto].
Qed.

Lemma jstring_eqb_refl (a : jstring) : jstring_eqb a a = true.
Proof. apply jstring_eqb_eq; reflexivity. Qed.

Lemma jstring_eqb_neq (a b : jstring) : jstring_eqb a b = false <-> a <> b.
Proof.
  split.
  - intros H E. apply jstring_eqb_eq in E. congruence.
  - intros H. destruct (jstring_eqb a b) eqn:E; [|reflexivity].
    apply jstring_eqb_eq in E. contradiction.
Qed.

(* ================================================================== *)
(** * The fuel [JSON.parse] gives the parser is enough *)

Lemma skip_ws_length (s : jstring) : length (skip_ws s) <= length s.
Proof.
  induction s as [|c s IH]; simpl; [lia|].
  destruct (is_ws c); simpl; lia.
Qed.

Lemma cons_fst_some (c : code_unit) (r : option (jstring * jstring))
  (k rest : jstring) :
  cons_fst c r = Some (k, rest) -> exists k', r = Some (k', rest).
Proof.
  destruct r as [[k' rest']|]; simpl; [|discriminate].
  intros H. injection H as _ <-. eauto.
Qed.

Lemma parse_string_chars_length_bounded (n : nat) :
  forall s k rest,
    length s <= n ->
    parse_string_chars s = Some (k, rest) -> length rest < length s.
Proof.
  induction n as [|n IH]; intros s k rest Hl H.
  - destruct s; [discriminate | simpl in Hl; lia].
  - destruct s as [|c r]; [discriminate|]. simpl in H, Hl.
    destruct (c =? 34)%N.
    { injection H as _ <-. simpl. lia. }
    destruct (c =? 92)%N.
    { destruct r as [|e r1]; [discriminate|].
      destruct (e =? 117)%N.
      - destruct r1 as [|h1 [|h2 [|h3 [|h4 r2]]]]; try discriminate.
        destruct (hex4 h1 h2 h3 h4); [|discriminate].
        apply cons_fst_some in H. destruct H as [k' H].
        apply IH in H; simpl in *; lia.
      - destruct (simple_escape e); [|discriminate].
        apply cons_fst_some in H. destruct H as [k' H].
        apply IH in H; simpl in *; lia. }
    destruct (c <? 32)%N; [discriminate|].
    apply cons_fst_some in H. destruct H as [k' H].
    apply IH in H; simpl in *; lia.
Qed.

Lemma parse_string_chars_length (s k rest : jstring) :
  parse_string_chars s = Some (k, rest) -> length rest < length s.
Proof. apply (parse_string_chars_length_bounded (n := length s)). lia. Qed.

Lemma span_digits_length (s : jstring) :
  length (snd (span_digits s)) <= length s
  /\ (fst (span_digits s) <> [] -> length (snd (span_digits s)) < length s).
Proof.
  induction s as [|c s [IH1 IH2]]; simpl; [split; [lia | congruence]|].
  destruct (is_digit c).
  - destruct (span_digits s) as [ds r]. simpl in *. split; lia.
  - simpl. split; [lia | congruence].
Qed.

Lemma parse_fraction_length (s : jstring) (fp : list N) (rest : jstring) :
  parse_fraction s = Some (fp, rest) -> length rest <= length s.
Proof.
  unfold parse_fraction. destruct s as [|c r]; [intros H; injection H as _ <-; lia|].
  destruct (c =? 46)%N.
  - pose proof (span_digits_length r) as [H1 _].
    destruct (span_digits r) as [[|d ds] r']; [discriminate|].
    intros H. injection H as _ <-. simpl in *. lia.
  - intros H. injection H as _ <-. lia.
Qed.

Lemma parse_exponent_length (s : jstring) (e : Z) (rest : jstring) :
  parse_exponent s = Some (e, rest) -> length rest <= length s.
Proof.
  unfold parse_exponent.
  destruct s as [|c r]; [intros H; injection H as _ <-; lia|].
  destruct ((c =? 101)%N || (c =? 69)%N).
  - destruct r as [|sg r'].
    + simpl. discriminate.
    + destruct (sg =? 45)%N; [|destruct (sg =? 43)%N].
      * pose proof (span_digits_length r') as [H1 _].
        destruct (span_digits r') as [[|d ds] r2]; [discriminate|].
        intros H. injection H as _ <-. simpl in *. lia.
      * pose proof (span_digits_length r') as [H1 _].
        destruct (span_digits r') as [[|d ds] r2]; [discriminate|].
        intros H. injection H as _ <-. simpl in *. lia.
      * pose proof (span_digits_length (sg :: r')) as [H1 _].
        destruct (span_digits (sg :: r')) as [[|d ds] r2]; [discriminate|].
        intros H. injection H as _ <-. simpl in *. lia.
  - intros H. injection H as _ <-. lia.
Qed.

Lemma parse_unsigned_length (neg : bool) (s : jstring) (n : number)
  (rest : jstring) :
  parse_unsigned neg s = Some (n, rest) -> length rest < length s.
Proof.
  unfold parse_unsigned.
  pose proof (span_digits_length s) as [_ H2].
  destruct (span_digits s) as [[|d ip] s2]; [discriminate|].
  simpl in H2. assert (Hlt : length s2 < length s) by (apply H2; discriminate).
  destruct ((d =? 0)%N && negb match ip with [] => true | _ => false end);
    [discriminate|].
  destruct (parse_fraction s2) as [[fp s3]|] eqn:Ef; [|discriminate].
  destruct (parse_exponent s3) as [[e s4]|] eqn:Ee; [|discriminate].
  intros H. injection H as _ <-.
  apply parse_fraction_length in Ef. apply parse_exponent_length in Ee. lia.
Qed.

Lemma parse_number_length (s : jstring) (n : number) (rest : jstring) :
  parse_number s = Some (n, rest) -> length rest < length s.
Proof.
  unfold parse_number, parse_sign. destruct s as [|c r].
  - intros H. apply parse_unsigned_length in H. simpl in H. lia.
  - destruct (c =? 45)%N; intros H; apply parse_unsigned_length in H;
      simpl in *; lia.
Qed.

Lemma strip_prefix_length (p s rest : jstring) :
  strip_prefix p s = Some rest -> length rest <= length s.
Proof.
  revert s; induction p as [|x p IH]; intros s; simpl.
  - intros H. injection H as <-. lia.
  - destruct s as [|y s]; [discriminate|]. destruct (x =? y)%N; [|discriminate].
    intros H. apply IH in H. simpl. lia.
Qed.

Lemma lift_result_ok {A B : Type} (g : A -> B) (x : presult A) (b : B)
  (r : jstring) :
  lift_result g x = POk b r -> exists a, x = POk a r.
Proof.
  destruct x as [a r'| |]; simpl; try discriminate.
  intros H. injection H as _ <-. eauto.
Qed.

Lemma lift_result_fuel {A B : Type} (g : A -> B) (x : presult A) :
  x <> PFuel -> lift_result g x <> PFuel.
Proof. destruct x; simpl; congruence. Qed.

Lemma parse_elements_S (f : nat) (s : jstring) :
  parse_elements (S f) s
  = match parse_value f s with
    | POk v r =>
        match skip_ws r with
        | [] => PErr
        | c :: r' =>
            if (c =? 44)%N then
              lift_result (cons v) (parse_elements f r')
            else if (c =? 93)%N then POk [v] r'
            else PErr
        end
    | PErr => PErr
    | PFuel => PFuel
    end.
Proof.
  simpl. destruct (parse_value f s) as [v r| |]; reflexivity.
Qed.

Lemma parse_value_S (f : nat) (s : jstring) :
  parse_value (S f) s
  = match skip_ws s with
    | [] => PErr
    | c :: r =>
        if (c =? 123)%N then
          match skip_ws r with
          | [] => PErr
          | c' :: r' =>
              if (c' =? 125)%N then POk (VObj []) r'
              else lift_result object_of (parse_members f (c' :: r'))
          end
        else if (c =? 91)%N then
          match skip_ws r with
          | [] => PErr
          | c' :: r' =>
              if (c' =? 93)%N then POk (VArr []) r'
              else lift_result VArr (parse_elements f (c' :: r'))
          end
        else if (c =? 34)%N then
          match parse_string_chars r with
          | Some (str, rest) => POk (VStr str) rest
          | None => PErr
          end
        else if (c =? 116)%N then
          match strip_prefix (lit "rue") r with
          | Some rest => POk (VBool true) rest
          | None => PErr
          end
        else if (c =? 102)%N then
          match strip_prefix (lit "alse") r with
          | Some rest => POk (VBool false) rest
          | None => PErr
          end
        else if (c =? 110)%N then
          match strip_prefix (lit "ull") r with
          | Some rest => POk VNull rest
          | None => PErr
          end
        else
          match parse_number (c :: r) with
          | Some (n, rest) => POk (VNum n) rest
          | None => PErr
          end
    end.
Proof.
  cbn [parse_value]. destruct (skip_ws s) as [|c r]; [reflexivity|].
  destruct (c =? 123)%N.
  { destruct (skip_ws r) as [|c' r']; [reflexivity|].
    destruct (c' =? 125)%N; [reflexivity|].
    destruct (parse_members f (c' :: r')); reflexivity. }
  destruct (c =? 91)%N; [|reflexivity].
  destruct (skip_ws r) as [|c' r']; [reflexivity|].
  destruct (c' =? 93)%N; [reflexivity|].
  destruct (parse_elements f (c' :: r')); reflexivity.
Qed.

Lemma value_consumes_step (f : nat) :
  elements_consume f -> members_consume f -> value_consumes (S f).
Proof.
  intros He Hm s v r H. rewrite parse_value_S in H.
  pose proof (skip_ws_length s) as Hs.
  destruct (skip_ws s) as [|c t]; [discriminate|]. simpl in Hs.
  destruct (c =? 123)%N.
  { pose proof (skip_ws_length t) as Ht.
    destruct (skip_ws t) as [|c' t']; [discriminate|]. simpl in Ht.
    destruct (c' =? 125)%N; [injection H as _ <-; lia|].
    apply lift_result_ok in H. destruct H as [kvs E].
    apply Hm in E. simpl in E. lia. }
  destruct (c =? 91)%N.
  { pose proof (skip_ws_length t) as Ht.
    destruct (skip_ws t) as [|c' t']; [discriminate|]. simpl in Ht.
    destruct (c' =? 93)%N; [injection H as _ <-; lia|].
    apply lift_result_ok in H. destruct H as [vs E].
    apply He in E. simpl in E. lia. }
  destruct (c =? 34)%N.
  { destruct (parse_string_chars t) as [[str r']|] eqn:E; [|discriminate].
    injection H as _ <-. apply parse_string_chars_length in E. lia. }
  destruct (c =? 116)%N.
  { destruct (strip_prefix (lit "rue") t) as [r'|] eqn:E; [|discriminate].
    injection H as _ <-. apply strip_prefix_length in E. lia. }
  destruct (c =? 102)%N.
  { destruct (strip_prefix (lit "alse") t) as [r'|] eqn:E; [|discriminate].
    injection H as _ <-. apply strip_prefix_length in E. lia. }
  destruct (c =? 110)%N.
  { destruct (strip_prefix (lit "ull") t) as [r'|] eqn:E; [|discriminate].
    injection H as _ <-. apply strip_prefix_length in E. lia. }
  destruct (parse_number (c :: t)) as [[n r']|] eqn:E; [|discriminate].
  injection H as _ <-. apply parse_number_length in E. simpl in E. lia.
Qed.

Lemma elements_consume_step (f : nat) :
  value_consumes f -> elements_consume f -> elements_consume (S f).
Proof.
  intros Hv He s vs r H. rewrite parse_elements_S in H.
  destruct (parse_value f s) as [v r1| |] eqn:E; try discriminate.
  apply Hv in E. pose proof (skip_ws_length r1) as Hs.
  destruct (skip_ws r1) as [|c r']; [discriminate|]. simpl in Hs.
  destruct (c =? 44)%N.
  - apply lift_result_ok in H. destruct H as [vs' H]. apply He in H. lia.
  - destruct (c =? 93)%N; [|discriminate]. injection H as _ <-. lia.
Qed.

Lemma members_consume_step (f : nat) :
  value_consumes f -> members_consume f -> members_consume (S f).
Proof.
  intros Hv Hm s kvs r H. simpl in H.
  pose proof (skip_ws_length s) as Hs.
  destruct (skip_ws s) as [|q t]; [discriminate|]. simpl in Hs.
  destruct (q =? 34)%N; [|discriminate].
  destruct (parse_string_chars t) as [[k r1]|] eqn:Ek; [|discriminate].
  apply parse_string_chars_length in Ek.
  pose proof (skip_ws_length r1) as Hs1.
  destruct (skip_ws r1) as [|c r2]; [discriminate|]. simpl in Hs1.
  destruct (c =? 58)%N; [|discriminate].
  destruct (parse_value f r2) as [v r3| |] eqn:Ev; try discriminate.
  apply Hv in Ev. pose proof (skip_ws_length r3) as Hs3.
  destruct (skip_ws r3) as [|c' r4]; [discriminate|]. simpl in Hs3.
  destruct (c' =? 44)%N.
  - destruct (parse_members f r4) as [kvs' r5| |] eqn:Em; try discriminate.
    injection H as _ <-. apply Hm in Em. lia.
  - destruct (c' =? 125)%N; [|discriminate]. injection H as _ <-. lia.
Qed.

Lemma parser_consumes (f : nat) :
  value_consumes f /\ elements_consume f /\ members_consume f.
Proof.
  induction f as [|f (Hv & He & Hm)].
  - repeat split; intro; intros; discriminate.
  - repeat split.
    + apply value_consumes_step; assumption.
    + apply elements_consume_step; assumption.
    + apply members_consume_step; assumption.
Qed.

Lemma value_fuelled_step (f : nat) :
  elements_fuelled f -> members_fuelled f -> value_fuelled (S f).
Proof.
  intros He Hm s Hl. rewrite parse_value_S.
  pose proof (skip_ws_length s) as Hs.
  destruct (skip_ws s) as [|c t]; [discriminate|]. simpl in Hs.
  destruct (c =? 123)%N.
  { pose proof (skip_ws_length t) as Ht.
    destruct (skip_ws t) as [|c' t']; [discriminate|]. simpl in Ht.
    destruct (c' =? 125)%N; [discriminate|].
    apply lift_result_fuel, Hm. simpl. lia. }
  destruct (c =? 91)%N.
  { pose proof (skip_ws_length t) as Ht.
    destruct (skip_ws t) as [|c' t']; [discriminate|]. simpl in Ht.
    destruct (c' =? 93)%N; [discriminate|].
    apply lift_result_fuel, He. simpl. lia. }
  destruct (c =? 34)%N.
  { destruct (parse_string_chars t) as [[str r']|]; discriminate. }
  destruct (c =? 116)%N.
  { destruct (strip_prefix (lit "rue") t); discriminate. }
  destruct (c =? 102)%N.
  { destruct (strip_prefix (lit "alse") t); discriminate. }
  destruct (c =? 110)%N.
  { destruct (strip_prefix (lit "ull") t); discriminate. }
  destruct (parse_number (c :: t)) as [[n r']|]; discriminate.
Qed.

Lemma elements_fuelled_step (f : nat) :
  value_fuelled f -> elements_fuelled f -> elements_fuelled (S f).
Proof.
  intros Hv He s Hl. rewrite parse_elements_S.
  assert (E : parse_value f s <> PFuel) by (apply Hv; lia).
  destruct (parse_value f s) as [v r1| |] eqn:Ev; try congruence.
  apply (proj1 (parser_consumes f)) in Ev.
  pose proof (skip_ws_length r1) as Hs.
  destruct (skip_ws r1) as [|c r']; [discriminate|]. simpl in Hs.
  destruct (c =? 44)%N.
  - apply lift_result_fuel, He. lia.
  - destruct (c =? 93)%N; discriminate.
Qed.

Lemma members_fuelled_step (f : nat) :
  value_fuelled f -> members_fuelled f -> members_fuelled (S f).
Proof.
  intros Hv Hm s Hl. simpl.
  pose proof (skip_ws_length s) as Hs.
  destruct (skip_ws s) as [|q t]; [discriminate|]. simpl in Hs.
  destruct (q =? 34)%N; [|discriminate].
  destruct (parse_string_chars t) as [[k r1]|] eqn:Ek; [|discriminate].
  apply parse_string_chars_length in Ek.
  pose proof (skip_ws_length r1) as Hs1.
  destruct (skip_ws r1) as [|c r2]; [discriminate|]. simpl in Hs1.
  destruct (c =? 58)%N; [|discriminate].
  assert (E : parse_value f r2 <> PFuel) by (apply Hv; lia).
  destruct (parse_value f r2) as [v r3| |] eqn:Ev; try congruence.
  apply (proj1 (parser_consumes f)) in Ev.
  pose proof (skip_ws_length r3) as Hs3.
  destruct (skip_ws r3) as [|c' r4]; [discriminate|]. simpl in Hs3.
  destruct (c' =? 44)%N.
  - assert (E' : parse_members f r4 <> PFuel) by (apply Hm; lia).
    destruct (parse_members f r4); congruence.
  - destruct (c' =? 125)%N; discriminate.
Qed.

Lemma parser_fuelled (f : nat) :
  value_fuelled f /\ elements_fuelled f /\ members_fuelled f.
Proof.
  induction f as [|f (Hv & He & Hm)].
  - repeat split; intro; intros; lia.
  - repeat split.
    + apply value_fuelled_step; assumption.
    + apply elements_fuelled_step; assumption.
    + apply members_fuelled_step; assumption.
Qed.

(** [JSON.parse] never runs out of fuel: [None] is a syntax error found in
    the text. *)
Theorem JSON_parse_fuel (s : jstring) :
  parse_value (S (2 * length s)) s <> PFuel.
Proof. apply (proj1 (parser_fuelled (S (2 * length s)))). lia. Qed.

Corollary JSON_parse_error (s : jstring) :
  JSON_parse s = None ->
  parse_value (S (2 * length s)) s = PErr
  \/ exists v rest,
       parse_value (S (2 * length s)) s = POk v rest /\ skip_ws rest <> [].
Proof.
  unfold JSON_parse. pose proof (JSON_parse_fuel s) as Hf.
  destruct (parse_value (S (2 * length s)) s) as [v r| |]; try tauto.
  intros H. right. exists v, r. split; [reflexivity|].
  destruct (skip_ws r); [discriminate | discriminate].
Qed.

(* ================================================================== *)
(** * What [JSON.stringify] writes, [JSON.parse] reads *)


(** ** Numbers *)

Lemma dig_lt (d : N) : (dig d < 10)%N.
Proof. apply N.mod_upper_bound. discriminate. Qed.

Lemma is_digit_digit_char (d : N) : is_digit (digit_char d) = true.
Proof.
  unfold is_digit, digit_char. pose proof (dig_lt d).
  apply andb_true_iff. split; apply N.leb_le; lia.
Qed.

Lemma digit_char_value (d : N) : (digit_char d - 48)%N = dig d.
Proof. unfold digit_char. lia. Qed.

Lemma span_digits_stop (rest : jstring) :
  stops rest -> span_digits rest = ([], rest).
Proof. destruct rest as [|c r]; simpl; [reflexivity|]. intros ->. reflexivity. Qed.

Lemma span_digits_chars (ds : list N) (rest : jstring) :
  stops rest ->
  span_digits (digit_chars ds ++ rest) = (map dig ds, rest).
Proof.
  intros Hs. induction ds as [|d ds IH]; simpl.
  - apply span_digits_stop, Hs.
  - rewrite is_digit_digit_char, IH, digit_char_value. reflexivity.
Qed.

Lemma follows_stops (rest : jstring) : follows rest -> stops rest.
Proof. intros [-> | [r [-> | ->]]]; reflexivity. Qed.

Lemma zeros_chars (m : nat) : repeat 48%N m = digit_chars (repeat 0%N m).
Proof. induction m as [|m IH]; simpl; [|rewrite IH]; reflexivity. Qed.

Lemma uint_chars_digits (u : Decimal.uint) :
  exists ds, uint_chars u = digit_chars ds
             /\ (u <> Decimal.Nil -> ds <> []).
Proof.
  induction u as [|u [ds [E H]]|u [ds [E H]]|u [ds [E H]]|u [ds [E H]]
                  |u [ds [E H]]|u [ds [E H]]|u [ds [E H]]|u [ds [E H]]
                  |u [ds [E H]]|u [ds [E H]]]; simpl.
  - exists []. split; [reflexivity | congruence].
  - exists (0%N :: ds). rewrite E. split; [reflexivity | discriminate].
  - exists (1%N :: ds). rewrite E. split; [reflexivity | discriminate].
  - exists (2%N :: ds). rewrite E. split; [reflexivity | discriminate].
  - exists (3%N :: ds). rewrite E. split; [reflexivity | discriminate].
  - exists (4%N :: ds). rewrite E. split; [reflexivity | discriminate].
  - exists (5%N :: ds). rewrite E. split; [reflexivity | discriminate].
  - exists (6%N :: ds). rewrite E. split; [reflexivity | discriminate].
  - exists (7%N :: ds). rewrite E. split; [reflexivity | discriminate].
  - exists (8%N :: ds). rewrite E. split; [reflexivity | discriminate].
  - exists (9%N :: ds). rewrite E. split; [reflexivity | discriminate].
Qed.

Lemma decimal_digits (n : N) :
  exists ds, decimal n = digit_chars ds /\ ds <> [].
Proof.
  unfold decimal. destruct (uint_chars_digits (N.to_uint n)) as [ds [E H]].
  exists ds. split; [assumption|]. apply H.
  destruct n as [|p]; simpl; [discriminate|].
  apply DecimalPos.Unsigned.to_uint_nonnil.
Qed.

Lemma parse_fraction_text (fp : list N) (rest : jstring) :
  stops rest ->
  match rest with c :: _ => c <> 46%N | [] => True end ->
  parse_fraction (fraction_text fp ++ rest) = Some (map dig fp, rest).
Proof.
  intros Hs Hd. destruct fp as [|d fp].
  - simpl. destruct rest as [|c r]; [reflexivity|].
    simpl. apply N.eqb_neq in Hd. rewrite Hd. reflexivity.
  - unfold fraction_text.
    change ((46%N :: digit_chars (d :: fp)) ++ rest)
      with (46%N :: digit_chars (d :: fp) ++ rest).
    unfold parse_fraction. change (46 =? 46)%N with true. cbv iota.
    rewrite span_digits_chars by assumption. reflexivity.
Qed.

Lemma parse_exponent_text (ex : option (bool * list N)) (rest : jstring) :
  follows rest ->
  match ex with Some (_, eds) => eds <> [] | None => True end ->
  exists e, parse_exponent (exponent_text ex ++ rest) = Some (e, rest).
Proof.
  intros Hf He. destruct ex as [[neg eds]|].
  - unfold exponent_text.
    destruct eds as [|d eds]; [congruence|].
    destruct neg; simpl app; unfold parse_exponent;
      change (101 =? 101)%N with true; cbv iota beta;
      change (orb true _) with true; cbv iota.
    + change (45 =? 45)%N with true. cbv iota.
      change (digit_char d :: digit_chars eds ++ rest)
        with (digit_chars (d :: eds) ++ rest).
      rewrite span_digits_chars by (apply follows_stops, Hf).
      simpl map. eauto.
    + change (43 =? 45)%N with false. change (43 =? 43)%N with true.
      cbv iota.
      change (digit_char d :: digit_chars eds ++ rest)
        with (digit_chars (d :: eds) ++ rest).
      rewrite span_digits_chars by (apply follows_stops, Hf).
      simpl map. eauto.
  - simpl. destruct Hf as [-> | [r [-> | ->]]]; simpl; eauto.
Qed.

Lemma exponent_text_head (ex : option (bool * list N)) (rest : jstring) :
  follows rest ->
  stops (exponent_text ex ++ rest)
  /\ match exponent_text ex ++ rest with c :: _ => c <> 46%N | [] => True end.
Proof.
  intros Hf. destruct ex as [[neg eds]|]; simpl.
  - split; [reflexivity | discriminate].
  - destruct Hf as [-> | [r [-> | ->]]]; simpl; split;
      try reflexivity; try discriminate; auto.
Qed.

Lemma parse_unsigned_text (neg : bool) (d : N) (ip fp : list N)
  (ex : option (bool * list N)) (rest : jstring) :
  dig d <> 0%N \/ ip = [] ->
  match ex with Some (_, eds) => eds <> [] | None => True end ->
  follows rest ->
  exists n,
    parse_unsigned neg
      (digit_chars (d :: ip) ++ fraction_text fp ++ exponent_text ex ++ rest)
    = Some (n, rest).
Proof.
  intros Hd He Hf. unfold parse_unsigned.
  destruct (exponent_text_head ex Hf) as [Hs Hp].
  rewrite span_digits_chars.
  2:{ destruct fp; [exact Hs | reflexivity]. }
  simpl map.
  assert (Hz : (dig d =? 0)%N
               && negb match map dig ip with [] => true | _ => false end
               = false).
  { destruct Hd as [Hd | ->]; [|apply andb_false_r].
    apply N.eqb_neq in Hd. rewrite Hd. reflexivity. }
  cbv iota beta. rewrite Hz. rewrite parse_fraction_text by assumption.
  destruct (parse_exponent_text ex Hf He) as [e ->]. eauto.
Qed.

Lemma drop_zeros_head (ds : list N) (d : N) (t : list N) :
  drop_zeros ds = d :: t -> dig d <> 0%N.
Proof.
  induction ds as [|a ds IH]; simpl; [discriminate|].
  destruct (dig a =? 0)%N eqn:E; [exact IH|].
  intros H. injection H as <- _. apply N.eqb_neq, E.
Qed.

Lemma drop_zeros_suffix (ds : list N) : exists p, ds = p ++ drop_zeros ds.
Proof.
  induction ds as [|a ds [p IH]]; simpl; [exists []; reflexivity|].
  destruct (dig a =? 0)%N.
  - exists (a :: p). simpl. rewrite <- IH. reflexivity.
  - exists []. reflexivity.
Qed.

Lemma canon_head (x : number) (d1 : N) (r : list N) :
  ndigits (canon x) = d1 :: r -> dig d1 <> 0%N.
Proof.
  unfold canon. set (lead := drop_zeros (ndigits x)).
  destruct (rev (drop_zeros (rev lead))) as [|a t] eqn:E; simpl;
    [discriminate|].
  intros H. injection H as <- <-.
  apply (f_equal (@rev N)) in E. rewrite rev_involutive in E.
  destruct (drop_zeros_suffix (rev lead)) as [p Hp]. rewrite E in Hp.
  apply (f_equal (@rev N)) in Hp. rewrite rev_involutive in Hp.
  rewrite rev_app_distr in Hp. rewrite rev_involutive in Hp.
  simpl in Hp. unfold lead in Hp. apply (drop_zeros_head _ Hp).
Qed.

(** Every text [Number::toString] produces has the shape of a JSON number. *)
Lemma Number_toString_shape (x : number) :
  exists (sg : bool) (d : N) (ip fp : list N) (ex : option (bool * list N)),
    Number_toString x
    = (if sg then [45%N] else [])
      ++ digit_chars (d :: ip) ++ fraction_text fp ++ exponent_text ex
    /\ (dig d <> 0%N \/ ip = [])
    /\ match ex with Some (_, eds) => eds <> [] | None => True end.
Proof.
  unfold Number_toString.
  destruct (ndigits (canon x)) as [|d1 r] eqn:E.
  - exists false, 0%N, [], [], None. repeat split; auto.
  - pose proof (canon_head x E) as Hd.
    set (k := Z.of_nat (length (d1 :: r))).
    set (n := nexp (canon x)).
    exists (nneg (canon x)).
    destruct ((k <=? n)%Z && (n <=? 21)%Z) eqn:C1;
      [|destruct ((0 <? n)%Z && (n <=? 21)%Z) eqn:C2;
        [|destruct ((-6 <? n)%Z && (n <=? 0)%Z) eqn:C3]].
    + exists d1, (r ++ repeat 0%N (Z.to_nat (n - k))), [], None.
      split; [|auto]. f_equal.
      simpl fraction_text. simpl exponent_text. rewrite !app_nil_r.
      rewrite zeros_chars. unfold digit_chars.
      change (d1 :: r ++ repeat 0%N (Z.to_nat (n - k)))
        with ((d1 :: r) ++ repeat 0%N (Z.to_nat (n - k))).
      rewrite map_app. reflexivity.
    + apply andb_true_iff in C2. destruct C2 as [C2 C2'].
      apply Z.ltb_lt in C2. apply Z.leb_le in C2'.
      assert (Hlt : (n < k)%Z).
      { destruct (k <=? n)%Z eqn:C; [|apply Z.leb_gt, C].
        simpl in C1. apply Z.leb_gt in C1. lia. }
      destruct (Z.to_nat n) as [|m] eqn:Em; [lia|].
      exists d1, (firstn m r), (skipn m r), None.
      split; [|auto]. f_equal.
      simpl firstn. simpl skipn. simpl exponent_text. rewrite app_nil_r.
      assert (Hne : skipn m r <> []).
      { intros H. apply (f_equal (@length N)) in H.
        rewrite length_skipn in H. simpl in H. unfold k in Hlt.
        simpl length in Hlt. lia. }
      unfold fraction_text. destruct (skipn m r); [congruence|]. reflexivity.
    + apply andb_true_iff in C3. destruct C3 as [C3 C3'].
      exists 0%N, [], (repeat 0%N (Z.to_nat (- n)) ++ d1 :: r), None.
      split; [|auto]. f_equal.
      simpl exponent_text. rewrite app_nil_r.
      unfold fraction_text.
      destruct (repeat 0%N (Z.to_nat (- n)) ++ d1 :: r) eqn:Ef.
      { destruct (repeat 0%N (Z.to_nat (- n))); discriminate. }
      rewrite <- Ef. unfold digit_chars at 3. rewrite map_app.
      fold (digit_chars (repeat 0%N (Z.to_nat (- n)))).
      rewrite <- zeros_chars. reflexivity.
    + destruct (decimal_digits (Z.to_N (Z.abs (n - 1)))) as [eds [Ed Hn]].
      exists d1, [], r, (Some ((n - 1 <? 0)%Z, eds)).
      split; [|auto]. f_equal. cbv zeta. rewrite Ed.
      destruct r as [|d2 r]; reflexivity.
Qed.

Lemma parse_sign_digit (d : N) (t : jstring) :
  parse_sign (digit_char d :: t) = (false, digit_char d :: t).
Proof.
  unfold parse_sign.
  assert (Hc : (digit_char d =? 45)%N = false).
  { apply N.eqb_neq. unfold digit_char. lia. }
  rewrite Hc. reflexivity.
Qed.

Lemma number_parses (x : number) (rest : jstring) :
  follows rest ->
  exists n, parse_number (Number_toString x ++ rest) = Some (n, rest).
Proof.
  intros Hf.
  destruct (Number_toString_shape x) as (sg & d & ip & fp & ex & -> & Hd & He).
  destruct (@parse_unsigned_text sg d ip fp ex rest Hd He Hf) as [n Hn].
  exists n. unfold parse_number.
  rewrite <- !app_assoc.
  destruct sg.
  - simpl. exact Hn.
  - change (digit_chars (d :: ip)) with (digit_char d :: digit_chars ip) in *.
    cbn [app] in *. rewrite parse_sign_digit. exact Hn.
Qed.

(** A number text starts with a minus sign or a digit. *)
Lemma Number_toString_head (x : number) :
  exists c tl, Number_toString x = c :: tl
               /\ (c = 45%N \/ is_digit c = true).
Proof.
  destruct (Number_toString_shape x) as (sg & d & ip & fp & ex & -> & _).
  destruct sg; simpl.
  - eauto.
  - eexists _, _. split; [reflexivity|]. right. apply is_digit_digit_char.
Qed.

(** ** Strings *)

Lemma hex_value_hex_digit_nat (m : nat) :
  m < 16 -> hex_value (hex_digit (N.of_nat m)) = Some (N.of_nat m).
Proof.
  intros H. do 16 (destruct m as [|m]; [reflexivity|]). lia.
Qed.

Lemma hex_value_hex_digit (n : N) :
  (n < 16)%N -> hex_value (hex_digit n) = Some n.
Proof.
  intros H. rewrite <- (N2Nat.id n). apply hex_value_hex_digit_nat. lia.
Qed.

Lemma parse_string_chars_unicode (a b c d : code_unit) (t : jstring) :
  parse_string_chars (92 :: 117 :: a :: b :: c :: d :: t)%N
  = match hex4 a b c d with
    | Some u => cons_fst u (parse_string_chars t)
    | None => None
    end.
Proof. reflexivity. Qed.

Lemma parse_unicode_escape (c : code_unit) :
  exists u, forall t,
    parse_string_chars (unicode_escape c ++ t)
    = cons_fst u (parse_string_chars t).
Proof.
  unfold unicode_escape.
  assert (H16 : forall x, (x mod 16 < 16)%N)
    by (intros x; apply N.mod_upper_bound; discriminate).
  eexists. intros t. cbn [app]. rewrite parse_string_chars_unicode.
  unfold hex4. rewrite !hex_value_hex_digit by apply H16. reflexivity.
Qed.

Lemma parse_string_chars_raw (c : code_unit) (t : jstring) :
  (c =? 34)%N = false -> (c =? 92)%N = false -> (c <? 32)%N = false ->
  parse_string_chars (c :: t) = cons_fst c (parse_string_chars t).
Proof. intros H1 H2 H3. simpl. rewrite H1, H2, H3. reflexivity. Qed.

Lemma quote_chars_cons (c : code_unit) (rest : jstring) :
  quote_chars (c :: rest)
  = if (c =? 8)%N then 92%N :: 98%N :: quote_chars rest
    else if (c =? 9)%N then 92%N :: 116%N :: quote_chars rest
    else if (c =? 10)%N then 92%N :: 110%N :: quote_chars rest
    else if (c =? 12)%N then 92%N :: 102%N :: quote_chars rest
    else if (c =? 13)%N then 92%N :: 114%N :: quote_chars rest
    else if (c =? 34)%N then 92%N :: 34%N :: quote_chars rest
    else if (c =? 92)%N then 92%N :: 92%N :: quote_chars rest
    else if (c <? 32)%N then unicode_escape c ++ quote_chars rest
    else if is_high_surrogate c then
      match rest with
      | lo :: rest' =>
          if is_low_surrogate lo then c :: lo :: quote_chars rest'
          else unicode_escape c ++ quote_chars rest
      | [] => unicode_escape c
      end
    else if is_low_surrogate c then unicode_escape c ++ quote_chars rest
    else c :: quote_chars rest.
Proof. reflexivity. Qed.

Lemma low_surrogate_raw (c : code_unit) :
  is_low_surrogate c = true ->
  (c =? 34)%N = false /\ (c =? 92)%N = false /\ (c <? 32)%N = false.
Proof.
  unfold is_low_surrogate. intros H. apply andb_true_iff in H.
  destruct H as [H _]. apply N.leb_le in H.
  repeat split; [apply N.eqb_neq | apply N.eqb_neq | apply N.ltb_ge]; lia.
Qed.

(** A short escape, and a [\u] escape, followed by the rest of the string. *)
Ltac short_escape Ht := cbn [app]; simpl; rewrite Ht; simpl; eauto.
Ltac long_escape Hu Ht := rewrite <- app_assoc, Hu, Ht; simpl; eauto.

Lemma quoted_parses_bounded (n : nat) :
  forall s rest,
    length s <= n ->
    exists s', parse_string_chars (quote_chars s ++ 34%N :: rest)
               = Some (s', rest).
Proof.
  induction n as [|n IH]; intros s rest Hl.
  - destruct s; [|simpl in Hl; lia]. simpl. eauto.
  - destruct s as [|c t]; [simpl; eauto|]. simpl in Hl.
    assert (Ht : exists s', parse_string_chars (quote_chars t ++ 34%N :: rest)
                            = Some (s', rest)) by (apply IH; lia).
    destruct Ht as [st Ht].
    destruct (parse_unicode_escape c) as [u Hu].
    rewrite quote_chars_cons.
    destruct (c =? 8)%N; [short_escape Ht|].
    destruct (c =? 9)%N; [short_escape Ht|].
    destruct (c =? 10)%N; [short_escape Ht|].
    destruct (c =? 12)%N; [short_escape Ht|].
    destruct (c =? 13)%N; [short_escape Ht|].
    destruct (c =? 34)%N eqn:E34;
      [short_escape Ht|].
    destruct (c =? 92)%N eqn:E92;
      [short_escape Ht|].
    destruct (c <? 32)%N eqn:E32.
    { long_escape Hu Ht. }
    destruct (is_high_surrogate c).
    { destruct t as [|lo t'].
      - rewrite Hu. simpl. eauto.
      - destruct (is_low_surrogate lo) eqn:Elo.
        + destruct (low_surrogate_raw lo Elo) as (L1 & L2 & L3).
          assert (Ht' : exists s', parse_string_chars
                                     (quote_chars t' ++ 34%N :: rest)
                                   = Some (s', rest))
            by (apply IH; simpl in Hl; lia).
          destruct Ht' as [st' Ht'].
          cbn [app]. rewrite parse_string_chars_raw by assumption.
          rewrite parse_string_chars_raw by assumption.
          rewrite Ht'. simpl. eauto.
        + long_escape Hu Ht. }
    destruct (is_low_surrogate c).
    { long_escape Hu Ht. }
    cbn [app]. rewrite parse_string_chars_raw by assumption.
    rewrite Ht. simpl. eauto.
Qed.

Lemma quoted_parses (s rest : jstring) :
  exists s', parse_string_chars (quote_chars s ++ 34%N :: rest)
             = Some (s', rest).
Proof. apply (quoted_parses_bounded (n := length s)). lia. Qed.

(** ** White space *)

Lemma skip_ws_head (c : code_unit) (s : jstring) :
  is_ws c = false -> skip_ws (c :: s) = c :: s.
Proof. intros H. simpl. rewrite H. reflexivity. Qed.

Lemma skip_ws_spaces (n : nat) (s : jstring) :
  skip_ws (spaces n ++ s) = skip_ws s.
Proof. induction n as [|n IH]; [reflexivity | exact IH]. Qed.

Lemma skip_ws_idem (s : jstring) : skip_ws (skip_ws s) = skip_ws s.
Proof.
  induction s as [|c s IH]; [reflexivity|]. simpl.
  destruct (is_ws c) eqn:E; [exact IH|]. simpl. rewrite E. reflexivity.
Qed.

Lemma length_spaces (n : nat) : length (spaces n) = n.
Proof. apply repeat_length. Qed.

Lemma skip_ws_closing (indent : nat) (bracket : code_unit) (rest : jstring) :
  is_ws bracket = false ->
  skip_ws (closing indent bracket rest) = bracket :: rest.
Proof.
  intros H. unfold closing.
  change (skip_ws (nl :: spaces indent ++ bracket :: rest))
    with (skip_ws (spaces indent ++ bracket :: rest)).
  rewrite skip_ws_spaces. apply skip_ws_head, H.
Qed.

Lemma follows_closing (indent : nat) (bracket : code_unit) (rest : jstring) :
  follows (closing indent bracket rest).
Proof. right. eexists. right. reflexivity. Qed.

(** ** One step of each parsing function *)

Lemma parse_value_ws (f : nat) (a b : jstring) :
  skip_ws a = skip_ws b -> parse_value f a = parse_value f b.
Proof. intros H. destruct f; [reflexivity|]. simpl. rewrite H. reflexivity. Qed.

Lemma parse_members_ws (f : nat) (a b : jstring) :
  skip_ws a = skip_ws b -> parse_members f a = parse_members f b.
Proof. intros H. destruct f; [reflexivity|]. simpl. rewrite H. reflexivity. Qed.

Lemma parse_elements_ws (f : nat) (a b : jstring) :
  skip_ws a = skip_ws b -> parse_elements f a = parse_elements f b.
Proof.
  intros H. destruct f; [reflexivity|].
  rewrite !parse_elements_S, (parse_value_ws f a b H). reflexivity.
Qed.

Lemma parse_value_open_array (f : nat) (r : jstring) (c : code_unit)
  (r' : jstring) :
  skip_ws r = c :: r' -> c <> 93%N ->
  parse_value (S f) (91%N :: r) = lift_result VArr (parse_elements f r).
Proof.
  intros H Hc. apply N.eqb_neq in Hc. simpl. rewrite H, Hc.
  rewrite (parse_elements_ws f r (c :: r')).
  - destruct (parse_elements f (c :: r')); reflexivity.
  - rewrite <- H. symmetry. apply skip_ws_idem.
Qed.

Lemma parse_value_open_object (f : nat) (r : jstring) (c : code_unit)
  (r' : jstring) :
  skip_ws r = c :: r' -> c <> 125%N ->
  parse_value (S f) (123%N :: r) = lift_result object_of (parse_members f r).
Proof.
  intros H Hc. apply N.eqb_neq in Hc. simpl. rewrite H, Hc.
  rewrite (parse_members_ws f r (c :: r')).
  - destruct (parse_members f (c :: r')); reflexivity.
  - rewrite <- H. symmetry. apply skip_ws_idem.
Qed.

Lemma parse_value_string (f : nat) (r : jstring) :
  parse_value (S f) (34%N :: r)
  = match parse_string_chars r with
    | Some (str, rest) => POk (VStr str) rest
    | None => PErr
    end.
Proof. reflexivity. Qed.

Lemma parse_value_number (f : nat) (c : code_unit) (r : jstring) :
  c = 45%N \/ is_digit c = true ->
  parse_value (S f) (c :: r)
  = match parse_number (c :: r) with
    | Some (n, rest) => POk (VNum n) rest
    | None => PErr
    end.
Proof.
  intros [-> | H]; [reflexivity|].
  unfold is_digit in H. apply andb_true_iff in H. destruct H as [H1 H2].
  apply N.leb_le in H1. apply N.leb_le in H2.
  assert (Hw : is_ws c = false).
  { unfold is_ws. repeat (apply orb_false_iff; split); apply N.eqb_neq; lia. }
  assert (E1 : (c =? 123)%N = false) by (apply N.eqb_neq; lia).
  assert (E2 : (c =? 91)%N = false) by (apply N.eqb_neq; lia).
  assert (E3 : (c =? 34)%N = false) by (apply N.eqb_neq; lia).
  assert (E4 : (c =? 116)%N = false) by (apply N.eqb_neq; lia).
  assert (E5 : (c =? 102)%N = false) by (apply N.eqb_neq; lia).
  assert (E6 : (c =? 110)%N = false) by (apply N.eqb_neq; lia).
  simpl. rewrite Hw, E1, E2, E3, E4, E5, E6. reflexivity.
Qed.

Lemma parse_members_S (f : nat) (s X : jstring) (k : jstring) (r2 : jstring) :
  skip_ws s = 34%N :: X ->
  parse_string_chars X = Some (k, 58%N :: r2) ->
  parse_members (S f) s
  = match parse_value f r2 with
    | POk v r3 =>
        match skip_ws r3 with
        | [] => PErr
        | c' :: r4 =>
            if (c' =? 44)%N then
              lift_result (cons (k, v)) (parse_members f r4)
            else if (c' =? 125)%N then POk [(k, v)] r4
            else PErr
        end
    | PErr => PErr
    | PFuel => PFuel
    end.
Proof.
  intros Hs Hk. simpl. rewrite Hs. simpl. rewrite Hk. simpl.
  destruct (parse_value f r2) as [v r3| |]; reflexivity.
Qed.

(** ** The text of a container *)

Lemma serialize_array (indent : nat) (x : value) (xs : list value) :
  serialize indent (VArr (x :: xs))
  = 91%N :: nl ::
    join separator (map (element_text (indent + 2)) (x :: xs))
    ++ nl :: spaces indent ++ [93%N].
Proof. reflexivity. Qed.

Lemma serialize_object (indent : nat) (p : jstring * value)
  (ps : list (jstring * value)) :
  serialize indent (VObj (p :: ps))
  = 123%N :: nl ::
    join separator (map (member_text (indent + 2)) (p :: ps))
    ++ nl :: spaces indent ++ [125%N].
Proof.
  transitivity
    (123%N :: nl ::
     join separator
       (map (fun kv : jstring * value =>
               match kv with
               | (k, x) => spaces (indent + 2) ++ QuoteJSONString k
                           ++ 58%N :: 32%N :: serialize (indent + 2) x
               end) (p :: ps))
     ++ nl :: spaces indent ++ [125%N]); [reflexivity|].
  do 4 f_equal. apply map_ext. intros [k x]. reflexivity.
Qed.

Lemma join_two (sep a b : jstring) (l : list jstring) :
  join sep (a :: b :: l) = a ++ sep ++ join sep (b :: l).
Proof. reflexivity. Qed.

(** A serialised value starts with a character that is neither white space
    nor a closing bracket. *)
Lemma serialize_head (indent : nat) (v : value) :
  exists c tl, serialize indent v = c :: tl
               /\ is_ws c = false /\ c <> 93%N /\ c <> 125%N.
Proof.
  destruct v as [|[|]|n|s|[|x xs]|[|p ps]];
    try (eexists _, _; split; [reflexivity|];
         repeat split; try reflexivity; discriminate).
  - destruct (Number_toString_head n) as (c & tl & E & Hc).
    exists c, tl. split; [exact E|].
    destruct Hc as [-> | Hd];
      [repeat split; try reflexivity; discriminate|].
    unfold is_digit in Hd. apply andb_true_iff in Hd. destruct Hd as [H1 H2].
    apply N.leb_le in H1. apply N.leb_le in H2.
    repeat split; try lia.
    unfold is_ws. repeat (apply orb_false_iff; split); apply N.eqb_neq; lia.
Qed.

Lemma skip_ws_element (indent : nat) (x : value) (tail : jstring) :
  exists c r, skip_ws (element_text indent x ++ tail) = c :: r
              /\ c <> 93%N.
Proof.
  destruct (serialize_head indent x) as (c & tl & E & Hw & H93 & _).
  exists c, (tl ++ tail). split; [|exact H93].
  unfold element_text. rewrite <- app_assoc, skip_ws_spaces, E.
  apply skip_ws_head, Hw.
Qed.

Lemma elements_text_cons (indent : nat) (x : value) (xs : list value) :
  exists tail,
    join separator (map (element_text indent) (x :: xs))
    = element_text indent x ++ tail.
Proof.
  destruct xs as [|y ys].
  - exists []. simpl. rewrite app_nil_r. reflexivity.
  - eexists. simpl map. rewrite join_two. reflexivity.
Qed.

Lemma members_text_cons (indent : nat) (p : jstring * value)
  (ps : list (jstring * value)) :
  exists tail,
    join separator (map (member_text indent) (p :: ps))
    = member_text indent p ++ tail.
Proof.
  destruct ps as [|y ys].
  - exists []. simpl. rewrite app_nil_r. reflexivity.
  - eexists. simpl map. rewrite join_two. reflexivity.
Qed.

Lemma skip_ws_member (indent : nat) (p : jstring * value) (tail : jstring) :
  skip_ws (member_text indent p ++ tail)
  = 34%N :: quote_chars (fst p)
           ++ 34%N :: 58%N :: 32%N :: serialize indent (snd p) ++ tail.
Proof.
  unfold member_text, QuoteJSONString.
  rewrite <- app_assoc, skip_ws_spaces.
  cbn [app]. rewrite <- !app_assoc. reflexivity.
Qed.

(** ** Values *)

Lemma accepts_ok {A : Type} (a : A) (rest : jstring) :
  accepts (POk a rest) rest.
Proof. exists a. reflexivity. Qed.

Lemma close_app (body : jstring) (indent : nat) (bracket : code_unit)
  (rest : jstring) :
  (body ++ nl :: spaces indent ++ [bracket]) ++ rest
  = body ++ closing indent bracket rest.
Proof.
  unfold closing. rewrite <- app_assoc. cbn [app]. rewrite <- app_assoc.
  reflexivity.
Qed.

Lemma value_ok_step (f : nat) :
  value_ok f -> elements_ok f -> members_ok f -> value_ok (S f).
Proof.
  intros IHv IHe IHm v indent rest Hl Hf.
  destruct v as [|[|]|n|s|[|x xs]|[|p ps]]; try (eexists; reflexivity; fail).
  - (* number *)
    destruct (Number_toString_head n) as (c & tl & E & Hc).
    destruct (number_parses n Hf) as [n' Hn].
    change (serialize indent (VNum n)) with (Number_toString n).
    rewrite E in *. cbn [app] in *.
    rewrite (parse_value_number f _ Hc), Hn. apply accepts_ok.
  - (* string *)
    change (serialize indent (VStr s)) with (QuoteJSONString s).
    unfold QuoteJSONString. cbn [app]. rewrite <- app_assoc. cbn [app].
    rewrite parse_value_string.
    destruct (quoted_parses s rest) as [s' ->]. apply accepts_ok.
  - (* array *)
    rewrite serialize_array in *. cbn [app]. rewrite close_app.
    set (J := join separator (map (element_text (indent + 2)) (x :: xs))) in *.
    assert (HJ : S (length J) < f).
    { simpl length in Hl. rewrite length_app in Hl. simpl length in Hl. lia. }
    destruct (elements_text_cons (indent + 2) x xs) as [tail Et].
    fold J in Et.
    destruct (skip_ws_element (indent + 2) x (tail ++ closing indent 93%N rest))
      as (c & r & Hs & Hc).
    rewrite (@parse_value_open_array f _ c r).
    + rewrite (parse_elements_ws f _ (J ++ closing indent 93%N rest))
        by reflexivity.
      destruct (IHe (indent + 2) (x :: xs) indent rest) as [vs Hvs];
        [discriminate | exact HJ |].
      fold J in Hvs. rewrite Hvs. simpl. apply accepts_ok.
    + change (skip_ws (nl :: J ++ closing indent 93%N rest))
        with (skip_ws (J ++ closing indent 93%N rest)).
      rewrite Et, <- app_assoc. exact Hs.
    + exact Hc.
  - (* object *)
    rewrite serialize_object in *. cbn [app]. rewrite close_app.
    set (J := join separator (map (member_text (indent + 2)) (p :: ps))) in *.
    assert (HJ : S (length J) < f).
    { simpl length in Hl. rewrite length_app in Hl. simpl length in Hl. lia. }
    destruct (members_text_cons (indent + 2) p ps) as [tail Et].
    fold J in Et.
    rewrite (@parse_value_open_object f _ 34%N
               (quote_chars (fst p)
                ++ 34%N :: 58%N :: 32%N :: serialize (indent + 2) (snd p)
                ++ tail ++ closing indent 125%N rest)).
    + rewrite (parse_members_ws f _ (J ++ closing indent 125%N rest))
        by reflexivity.
      destruct (IHm (indent + 2) (p :: ps) indent rest) as [kvs Hk];
        [discriminate | exact HJ |].
      fold J in Hk. rewrite Hk. simpl. apply accepts_ok.
    + change (skip_ws (nl :: J ++ closing indent 125%N rest))
        with (skip_ws (J ++ closing indent 125%N rest)).
      rewrite Et, <- app_assoc. apply skip_ws_member.
    + discriminate.
Qed.

Lemma elements_ok_step (f : nat) :
  value_ok f -> elements_ok f -> elements_ok (S f).
Proof.
  intros IHv IHe indent items ci rest Hne Hl.
  destruct items as [|x xs]; [congruence|].
  rewrite parse_elements_S.
  destruct xs as [|y ys].
  - change (join separator (map (element_text indent) [x]))
      with (element_text indent x) in *.
    unfold element_text in *. rewrite <- app_assoc.
    rewrite (parse_value_ws f _ (serialize indent x ++ closing ci 93%N rest))
      by apply skip_ws_spaces.
    destruct (IHv x indent (closing ci 93%N rest)) as [v' Hv].
    { rewrite length_app in Hl. lia. }
    { apply follows_closing. }
    rewrite Hv, skip_ws_closing by reflexivity. simpl. apply accepts_ok.
  - change (map (element_text indent) (x :: y :: ys))
      with (element_text indent x :: element_text indent y
            :: map (element_text indent) ys) in *.
    rewrite join_two in *.
    change (element_text indent y :: map (element_text indent) ys)
      with (map (element_text indent) (y :: ys)) in *.
    set (J := join separator (map (element_text indent) (y :: ys))) in *.
    unfold element_text at 1. rewrite <- !app_assoc.
    rewrite (parse_value_ws f _
               (serialize indent x ++ separator ++ J ++ closing ci 93%N rest))
      by apply skip_ws_spaces.
    rewrite !length_app in Hl. unfold element_text at 1 in Hl.
    rewrite length_app in Hl. simpl length in Hl.
    destruct (IHv x indent (separator ++ J ++ closing ci 93%N rest)) as [v' Hv].
    { lia. }
    { right. eexists. left. reflexivity. }
    rewrite Hv. cbn [separator app skip_ws is_ws]. simpl.
    rewrite (parse_elements_ws f _ (J ++ closing ci 93%N rest)) by reflexivity.
    destruct (IHe indent (y :: ys) ci rest) as [vs Hvs];
      [discriminate | fold J; lia |].
    fold J in Hvs. rewrite Hvs. simpl. apply accepts_ok.
Qed.

Lemma members_ok_step (f : nat) :
  value_ok f -> members_ok f -> members_ok (S f).
Proof.
  intros IHv IHm indent items ci rest Hne Hl.
  destruct items as [|p ps]; [congruence|].
  assert (Hp : forall tail,
            follows tail ->
            length (serialize indent (snd p)) < f ->
            exists k v',
              parse_members (S f) (member_text indent p ++ tail)
              = match skip_ws tail with
                | [] => PErr
                | c' :: r4 =>
                    if (c' =? 44)%N then
                      lift_result (cons (k, v')) (parse_members f r4)
                    else if (c' =? 125)%N then POk [(k, v')] r4
                    else PErr
                end).
  { intros tail Hf Hlen.
    destruct (quoted_parses (fst p)
                (58%N :: 32%N :: serialize indent (snd p) ++ tail))
      as [k Hk].
    destruct (IHv (snd p) indent tail Hlen Hf) as [v' Hv].
    exists k, v'.
    rewrite (@parse_members_S f _ _ k
               (32%N :: serialize indent (snd p) ++ tail)
               (skip_ws_member indent p tail) Hk).
    rewrite (parse_value_ws f _ (serialize indent (snd p) ++ tail))
      by reflexivity.
    rewrite Hv. reflexivity. }
  destruct ps as [|y ys].
  - change (join separator (map (member_text indent) [p]))
      with (member_text indent p) in *.
    destruct (Hp (closing ci 125%N rest)) as (k & v' & E).
    { apply follows_closing. }
    { unfold member_text in Hl. rewrite !length_app in Hl.
      simpl length in Hl. lia. }
    rewrite E, skip_ws_closing by reflexivity. simpl. apply accepts_ok.
  - change (map (member_text indent) (p :: y :: ys))
      with (member_text indent p :: member_text indent y
            :: map (member_text indent) ys) in *.
    rewrite join_two in *.
    change (member_text indent y :: map (member_text indent) ys)
      with (map (member_text indent) (y :: ys)) in *.
    set (J := join separator (map (member_text indent) (y :: ys))) in *.
    rewrite <- !app_assoc.
    rewrite !length_app in Hl. unfold member_text at 1 in Hl.
    rewrite !length_app in Hl. simpl length in Hl.
    destruct (Hp (separator ++ J ++ closing ci 125%N rest)) as (k & v' & E).
    { right. eexists. left. reflexivity. }
    { lia. }
    rewrite E. cbn [separator app skip_ws is_ws]. simpl.
    rewrite (parse_members_ws f _ (J ++ closing ci 125%N rest)) by reflexivity.
    destruct (IHm indent (y :: ys) ci rest) as [kvs Hk];
      [discriminate | fold J; lia |].
    fold J in Hk. rewrite Hk. simpl. apply accepts_ok.
Qed.

Lemma serialized_parses (f : nat) :
  value_ok f /\ elements_ok f /\ members_ok f.
Proof.
  induction f as [|f (IHv & IHe & IHm)].
  - repeat split; intro; intros; lia.
  - repeat split.
    + apply value_ok_step; assumption.
    + apply elements_ok_step; assumption.
    + apply members_ok_step; assumption.
Qed.

(** The 2-space serialisation of any value is parsed back. *)
Theorem JSON_stringify_parses (v : value) :
  exists v', JSON_parse (JSON_stringify v) = Some v'.
Proof.
  unfold JSON_parse, JSON_stringify.
  destruct (serialized_parses (S (2 * length (serialize 0 v)))) as [Hv _].
  destruct (Hv v 0 []) as [v' E]; [lia | left; reflexivity |].
  rewrite app_nil_r in E. exists v'. rewrite E. reflexivity.
Qed.

(* ================================================================== *)
(** * Writing a property twice *)

Lemma own_get_replace (ps : props) (k : jstring) (a : value) :
  has_own ps k = true -> own_get (own_replace ps k a) k = Some a.
Proof.
  unfold has_own. induction ps as [|[k' v'] ps IH]; simpl; [discriminate|].
  destruct (jstring_eqb k' k) eqn:E; simpl; rewrite E; auto.
Qed.

Lemma own_replace_replace (ps : props) (k : jstring) (a b : value) :
  own_replace (own_replace ps k a) k b = own_replace ps k b.
Proof.
  induction ps as [|[k' v'] ps IH]; simpl; [reflexivity|].
  destruct (jstring_eqb k' k) eqn:E; simpl; rewrite E; congruence.
Qed.

Lemma own_get_insert_index (ps : props) (i : N) (k : jstring) (a : value) :
  has_own ps k = false -> own_get (own_insert_index ps i k a) k = Some a.
Proof.
  unfold has_own. induction ps as [|[k' v'] ps IH]; simpl.
  - rewrite jstring_eqb_refl. reflexivity.
  - destruct (jstring_eqb k' k) eqn:E; [discriminate|]. intros H.
    destruct (array_index k') as [j|]; [destruct (j <? i)%N|]; simpl;
      rewrite ?E, ?jstring_eqb_refl; auto.
Qed.

Lemma own_replace_insert_index (ps : props) (i : N) (k : jstring)
  (a b : value) :
  has_own ps k = false ->
  own_replace (own_insert_index ps i k a) k b = own_insert_index ps i k b.
Proof.
  unfold has_own. induction ps as [|[k' v'] ps IH]; simpl.
  - rewrite jstring_eqb_refl. reflexivity.
  - destruct (jstring_eqb k' k) eqn:E; [discriminate|]. intros H.
    destruct (array_index k') as [j|]; [destruct (j <? i)%N|]; simpl;
      rewrite ?E, ?jstring_eqb_refl; try reflexivity.
    rewrite IH by assumption. reflexivity.
Qed.

Lemma own_get_snoc (ps : props) (k : jstring) (a : value) :
  has_own ps k = false -> own_get (ps ++ [(k, a)]) k = Some a.
Proof.
  unfold has_own. induction ps as [|[k' v'] ps IH]; simpl.
  - rewrite jstring_eqb_refl. reflexivity.
  - destruct (jstring_eqb k' k); [discriminate | assumption].
Qed.

Lemma own_replace_snoc (ps : props) (k : jstring) (a b : value) :
  has_own ps k = false ->
  own_replace (ps ++ [(k, a)]) k b = ps ++ [(k, b)].
Proof.
  unfold has_own. induction ps as [|[k' v'] ps IH]; simpl.
  - rewrite jstring_eqb_refl. reflexivity.
  - destruct (jstring_eqb k' k); [discriminate|]. intros H.
    rewrite IH by assumption. reflexivity.
Qed.

Lemma own_get_set (ps : props) (k : jstring) (a : value) :
  own_get (own_set ps k a) k = Some a.
Proof.
  unfold own_set. destruct (has_own ps k) eqn:E.
  - apply own_get_replace, E.
  - unfold own_insert. destruct (array_index k).
    + apply own_get_insert_index, E.
    + apply own_get_snoc, E.
Qed.

Lemma own_set_set (ps : props) (k : jstring) (a b : value) :
  own_set (own_set ps k a) k b = own_set ps k b.
Proof.
  unfold own_set at 1. unfold has_own at 1. rewrite own_get_set.
  unfold own_set. destruct (has_own ps k) eqn:E.
  - apply own_replace_replace.
  - unfold own_insert. destruct (array_index k).
    + apply own_replace_insert_index, E.
    + apply own_replace_snoc, E.
Qed.

Lemma set_index_set_index (items : list value) (i : nat) (a b : value) :
  set_index (set_index items i a) i b = set_index items i b.
Proof.
  revert items; induction i as [|i IH]; intros [|x items]; simpl;
    try reflexivity; rewrite IH; reflexivity.
Qed.

Lemma put_put (container : value) (k : jstring) (a b : value) :
  put (put container k a) k b = put container k b.
Proof.
  destruct container as [| | | |items|ps]; simpl; try reflexivity.
  - destruct (array_index k) eqn:E; simpl; rewrite ?E; [|reflexivity].
    rewrite set_index_set_index. reflexivity.
  - rewrite own_set_set. reflexivity.
Qed.

(* ================================================================== *)
(** * [jsonPathToString] *)

Lemma bracketed_quoted (seg : segment) :
  bracketed seg = lit "[" ++ segment_text (quoted seg) ++ lit "]".
Proof.
  destruct seg as [s|n]; simpl; [|reflexivity].
  rewrite <- app_assoc. reflexivity.
Qed.

Lemma join_brackets (seg : segment) (p : Path) :
  lit "[" ++ join (lit "][") (map segment_text (map quoted (seg :: p)))
  ++ lit "]"
  = concat (map bracketed (seg :: p)).
Proof.
  revert seg; induction p as [|seg' p IH]; intros seg.
  - simpl concat. rewrite app_nil_r. apply eq_sym, bracketed_quoted.
  - change (concat (map bracketed (seg :: seg' :: p)))
      with (bracketed seg ++ concat (map bracketed (seg' :: p))).
    rewrite <- IH, bracketed_quoted.
    change (join (lit "][") (map segment_text (map quoted (seg :: seg' :: p))))
      with (segment_text (quoted seg) ++ lit "][" ++
            join (lit "][") (map segment_text (map quoted (seg' :: p)))).
    rewrite <- !app_assoc. reflexivity.
Qed.

(** C6.  [jsonPathToString] is ["$"] on an absent or empty path; on a path
    with segments it is ["$"] followed by one bracketed term per segment, in
    order, a number unquoted and a key in double quotes; and
    [jsonPathToString(["a",0,"b"])] is [$["a"][0]["b"]]. *)
Theorem jsonPathToString_spec :
  jsonPathToString None = lit "$"
  /\ jsonPathToString (Some []) = lit "$"
  /\ (forall seg p,
        jsonPathToString (Some (seg :: p))
        = lit "$" ++ concat (map bracketed (seg :: p)))
  /\ jsonPathToString
       (Some [SKey (lit "a"); SIndex (of_N 0); SKey (lit "b")])
     = jsn "$['a'][0]['b']".
Proof.
  repeat split; try reflexivity.
  intros seg p. rewrite <- join_brackets. reflexivity.
Qed.

(* ================================================================== *)
(** * [normalizeNodeData] *)

Lemma add_row_entry (obj : literal) (row : NodeRow) :
  row_key row <> Some proto_key ->
  add_row obj row
  = mkLiteral (fold_left (fun o kv => own_set o (fst kv) (snd kv))
                         (entry key_nonempty row) (fields obj))
              (has_prototype obj).
Proof.
  intros Hk. unfold add_row, entry, key_nonempty. destruct obj as [ps b].
  destruct (type_is (row_type row) "array"),
           (type_is (row_type row) "object"); simpl;
    destruct (truthy_key (row_key row)) as [k|] eqn:E; try reflexivity.
  simpl. unfold object_assign.
  assert (Hne : jstring_eqb k proto_key = false).
  { apply jstring_eqb_neq. intros ->. apply Hk.
    destruct (row_key row) as [[|c r]|]; simpl in E; congruence. }
  rewrite Hne. reflexivity.
Qed.

Lemma fold_add_row (rows : list NodeRow) (obj : literal) :
  Forall (fun row => row_key row <> Some proto_key) rows ->
  fold_left add_row rows obj
  = mkLiteral (fold_left (fun o kv => own_set o (fst kv) (snd kv))
                         (flat_map (entry key_nonempty) rows) (fields obj))
              (has_prototype obj).
Proof.
  intros H; revert obj; induction H as [|row rows Hrow _ IH]; intros obj.
  - destruct obj. reflexivity.
  - simpl. rewrite fold_left_app, IH, add_row_entry by assumption.
    reflexivity.
Qed.

(** C5, as stated, fails on a single row whose key is the empty string: the
    row has a key, so the description gives the object with that one field,
    while the code returns the bare value. *)
Lemma normalizeNodeData_empty_key :
  normalizeNodeData (Some [empty_key_row]) = lit "5"
  /\ described key_present (Some [empty_key_row])
     = unlines (map jsn ["{"; "  '': 5"; "}"]%string)
  /\ normalizeNodeData (Some [empty_key_row])
     <> described key_present (Some [empty_key_row]).
Proof.
  split; [reflexivity|]. split; [reflexivity|]. vm_compute. discriminate.
Qed.

(** C5, amended.  A row counts as having a key when its key is present and
    not empty.  With that reading, and when no row is keyed [__proto__]:
    [normalizeNodeData] is ["{}"] for an absent or empty list; the value
    itself, as a string, for a single row without key; and otherwise the
    2-space serialisation of the mapping from key to value over the rows
    that have a key and whose type is neither array nor object. *)
Theorem normalizeNodeData_spec (nodeRows : option (list NodeRow)) :
  (forall rows, nodeRows = Some rows ->
                Forall (fun row => row_key row <> Some proto_key) rows) ->
  normalizeNodeData nodeRows = described key_nonempty nodeRows.
Proof.
  intros H. destruct nodeRows as [[|r0 rest]|]; try reflexivity.
  specialize (H _ eq_refl).
  unfold normalizeNodeData, described. simpl map.
  change (key_nonempty r0) with (truthy_key (row_key r0)).
  unfold mapping. rewrite (fold_add_row empty_literal H).
  destruct rest; destruct (truthy_key (row_key r0)); reflexivity.
Qed.

Lemma normalizeNodeData_spec_witness :
  normalizeNodeData (Some sample_rows)
  = described key_nonempty (Some sample_rows).
Proof.
  apply (@normalizeNodeData_spec (Some sample_rows)).
  intros rows E. injection E as <-.
  repeat constructor; discriminate.
Defined.

(** The values section 8 of the specification lists. *)
Example normalizeNodeData_examples :
  normalizeNodeData (Some []) = lit "{}"
  /\ normalizeNodeData None = lit "{}"
  /\ normalizeNodeData (Some [mkRow None (PStr (lit "x")) None]) = lit "x"
  /\ normalizeNodeData (Some sample_rows)
     = unlines (map jsn ["{"; "  'a': 1"; "}"]%string).
Proof. repeat split; reflexivity. Qed.

(* ================================================================== *)
(** * [updateJsonAtPath]: failures and the whole-document case *)



(** A row of [n + 1] nested arrays is read from its brackets. *)
Lemma brackets_nest_1000 : JSON_parse (brackets 1001) = Some (nest 1000).
Proof. vm_compute. reflexivity. Qed.

(** C7, as stated, fails on a new value that parses but nests deeper than
    the engine serialises: 1001 nested arrays are read by [JSON.parse], on
    a host whose [JSON.stringify] gives up beyond 1000 levels the inner
    [try] is left through its [catch], and the text returned is the new
    value as a string literal, not its pretty-printed form. *)
Lemma updateJsonAtPath_whole_document_deep :
  JSON_parse (brackets 1001) = Some (nest 1000)
  /\ updateJsonAtPath (stack_host 1000) (jsn "{}") None (brackets 1001)
     = QuoteJSONString (brackets 1001)
  /\ ~ (forall (h : Host) (json : jstring) (obj : value) (p : option Path)
               (newValue : jstring) (v : value),
           JSON_parse json = Some obj ->
           p = None \/ p = Some [] ->
           JSON_parse newValue = Some v ->
           updateJsonAtPath h json p newValue = JSON_stringify v).
Proof.
  assert (E : updateJsonAtPath (stack_host 1000) (jsn "{}") None
                               (brackets 1001)
              = QuoteJSONString (brackets 1001))
    by (vm_compute; reflexivity).
  split; [exact brackets_nest_1000|]. split; [exact E|].
  intros H.
  specialize (H (stack_host 1000) (jsn "{}") (VObj []) None
                (brackets 1001) (nest 1000) eq_refl (or_introl eq_refl)
                brackets_nest_1000).
  rewrite E in H. change (nest 1000) with (VArr [nest 999]) in H.
  unfold JSON_stringify in H. rewrite serialize_array in H.
  unfold QuoteJSONString in H. discriminate.
Qed.

(** C7, amended.  On a document that parses, with an absent or empty path,
    the result is the new value parsed and pretty-printed when the new value
    parses and its serialisation completes; it is the new value as a JSON
    string literal when the new value does not parse, and also when the
    serialisation of what it parses to raises. *)
Theorem updateJsonAtPath_whole_document (h : Host) (json : jstring)
  (obj : value) (p : option Path) (newValue : jstring) :
  JSON_parse json = Some obj ->
  p = None \/ p = Some [] ->
  updateJsonAtPath h json p newValue
  = match JSON_parse newValue with
    | Some v =>
        if stringify_raises h v then QuoteJSONString newValue
        else JSON_stringify v
    | None => QuoteJSONString newValue
    end.
Proof.
  intros Hj Hp. unfold updateJsonAtPath, updateJsonAtPath_body. rewrite Hj.
  unfold parse, stringify.
  destruct Hp as [-> | ->]; destruct (JSON_parse newValue) as [v|];
    cbn [bind catch]; try reflexivity;
    destruct (stringify_raises h v); reflexivity.
Qed.

Lemma updateJsonAtPath_whole_document_witness :
  updateJsonAtPath bare_host (jsn "{'a':1}") None (jsn "[1, 'x']")
  = match JSON_parse (jsn "[1, 'x']") with
    | Some v =>
        if stringify_raises bare_host v then QuoteJSONString (jsn "[1, 'x']")
        else JSON_stringify v
    | None => QuoteJSONString (jsn "[1, 'x']")
    end.
Proof.
  apply (@updateJsonAtPath_whole_document bare_host (jsn "{'a':1}")
           (VObj [(lit "a", VNum (of_N 1))]) None (jsn "[1, 'x']")).
  - vm_compute. reflexivity.
  - left. reflexivity.
Defined.

(* ================================================================== *)
(** * [updateJsonAtPath] along a path *)

Lemma nth_error_lt (items : list value) (i : N) :
  (i <? N.of_nat (length items))%N = true ->
  exists c, nth_error items (N.to_nat i) = Some c.
Proof.
  intros H. apply N.ltb_lt in H.
  destruct (nth_error items (N.to_nat i)) eqn:E; [eauto|].
  apply nth_error_None in E. lia.
Qed.

(** On the walk of a path that stays in the document, the loop ends at the
    last segment, the assignment succeeds, and plugging the cursor back
    gives the described update. *)
Lemma descend_within (h : Host) (v : value) (p : Path) :
  forall ctx current,
    within_document h current p = true ->
    exists ctx' current' lastKey current'',
      descend h ctx current p = Ok (AtLast ctx' current' lastKey)
      /\ assign h current' (property_key lastKey) v = Ok current''
      /\ plug ctx' current'' = plug ctx (update_along current p v).
Proof.
  induction p as [|key rest IH]; intros ctx current Hw; [discriminate|].
  destruct rest as [|next rest].
  - exists ctx, current, key. simpl in Hw |- *.
    unfold assignable in Hw. unfold assign, put.
    destruct current as [| | | |items|ps]; try discriminate.
    + destruct (array_index (property_key key)); [eauto | discriminate].
    + destruct (jstring_eqb (property_key key) proto_key); simpl in Hw.
      * rewrite Hw. simpl. eauto.
      * simpl. eauto.
  - change (within_document h current (key :: next :: rest))
      with (addresses h current (property_key key)
            && within_document h
                 (match entry_of current (property_key key) with
                  | Some c => c
                  | None => created next
                  end) (next :: rest)) in Hw.
    apply andb_true_iff in Hw. destruct Hw as [Ha Hw].
    change (update_along current (key :: next :: rest) v)
      with (put current (property_key key)
              (update_along
                 (match entry_of current (property_key key) with
                  | Some c => c
                  | None => created next
                  end) (next :: rest) v)).
    change (descend h ctx current (key :: next :: rest))
      with (f <- lookup h current (property_key key) ;;
            match f with
            | Own child =>
                descend h ((current, property_key key) :: ctx) child
                        (next :: rest)
            | Inherited =>
                Ok (OffDocument (plug ctx current) current
                                (key :: next :: rest))
            | Missing =>
                match current, array_index (property_key key) with
                | VArr _, None =>
                    Ok (OffDocument (plug ctx current) current
                                    (key :: next :: rest))
                | _, _ =>
                    descend h
                      ((put current (property_key key) (created next),
                        property_key key) :: ctx)
                      (created next) (next :: rest)
                end
            end).
    set (k := property_key key) in *.
    destruct current as [| | | |items|ps]; try discriminate; simpl in Ha.
    + (* array *)
      unfold lookup, entry_of in *.
      destruct (array_index k) as [i|] eqn:Ei; [|discriminate].
      destruct (nth_error items (N.to_nat i)) as [c|] eqn:En.
      * cbn [bind].
        destruct (IH ((VArr items, k) :: ctx) c Hw)
          as (ctx' & cur' & lk & cur'' & Hd & Has & Hp).
        exists ctx', cur', lk, cur''. repeat split; assumption.
      * assert (Hi : on_chain h true k = false).
        { destruct (i <? N.of_nat (length items))%N eqn:El.
          - apply nth_error_lt in El. destruct El as [c Hc]. congruence.
          - simpl in Ha. destruct (on_chain h true k); [discriminate|].
            reflexivity. }
        rewrite Hi. cbn [bind].
        destruct (IH ((put (VArr items) k (created next), k) :: ctx)
                     (created next) Hw)
          as (ctx' & cur' & lk & cur'' & Hd & Has & Hp).
        exists ctx', cur', lk, cur''. repeat split; try assumption.
        rewrite Hp. cbn [plug]. rewrite put_put. reflexivity.
    + (* object *)
      unfold lookup, entry_of in *. unfold has_own in Ha.
      destruct (own_get ps k) as [c|] eqn:Eg.
      * cbn [bind].
        destruct (IH ((VObj ps, k) :: ctx) c Hw)
          as (ctx' & cur' & lk & cur'' & Hd & Has & Hp).
        exists ctx', cur', lk, cur''. repeat split; assumption.
      * simpl in Ha. destruct (on_chain h false k); [discriminate|].
        cbn [bind].
        destruct (IH ((put (VObj ps) k (created next), k) :: ctx)
                     (created next) Hw)
          as (ctx' & cur' & lk & cur'' & Hd & Has & Hp).
        exists ctx', cur', lk, cur''. repeat split; try assumption.
        rewrite Hp. cbn [plug]. rewrite put_put. reflexivity.
Qed.

(** When the walk arrives at a primitive, the [in] test or the assignment
    raises. *)
Lemma descend_primitive (h : Host) (v : value) (p : Path) :
  forall ctx current,
    reaches_primitive current p = true ->
    descend h ctx current p = Throw TypeError
    \/ exists ctx' current' lastKey,
         descend h ctx current p = Ok (AtLast ctx' current' lastKey)
         /\ assign h current' (property_key lastKey) v = Throw TypeError.
Proof.
  induction p as [|key rest IH]; intros ctx current Hr; [discriminate|].
  destruct rest as [|next rest].
  - right. exists ctx, current, key. split; [reflexivity|].
    simpl in Hr. rewrite orb_false_r in Hr.
    destruct current; try discriminate; reflexivity.
  - change (reaches_primitive current (key :: next :: rest))
      with (is_primitive current
            || match entry_of current (property_key key) with
               | Some c => reaches_primitive c (next :: rest)
               | None => false
               end) in Hr.
    destruct (is_primitive current) eqn:Ep.
    + left. destruct current; try discriminate; reflexivity.
    + simpl in Hr.
      destruct (entry_of current (property_key key)) as [c|] eqn:Ee;
        [|discriminate].
      assert (Hl : lookup h current (property_key key) = Ok (Own c)).
      { unfold lookup, entry_of in *.
        destruct current as [| | | |items|ps]; try discriminate.
        - destruct (array_index (property_key key)); [|discriminate].
          rewrite Ee. reflexivity.
        - rewrite Ee. reflexivity. }
      change (descend h ctx current (key :: next :: rest))
        with (f <- lookup h current (property_key key) ;;
              match f with
              | Own child =>
                  descend h ((current, property_key key) :: ctx) child
                          (next :: rest)
              | Inherited =>
                  Ok (OffDocument (plug ctx current) current
                                  (key :: next :: rest))
              | Missing =>
                  match current, array_index (property_key key) with
                  | VArr _, None =>
                      Ok (OffDocument (plug ctx current) current
                                      (key :: next :: rest))
                  | _, _ =>
                      descend h
                        ((put current (property_key key) (created next),
                          property_key key) :: ctx)
                        (created next) (next :: rest)
                  end
              end).
      rewrite Hl. cbn [bind]. apply IH, Hr.
Qed.

(** C3, as stated, fails when the walk meets a primitive: in [{"a":1}] the
    path [a, b, c] leads through the number 1, [("b" in 1)] raises, and the
    text comes back as it was given, not re-serialised with indentation. *)
Lemma updateJsonAtPath_through_number :
  JSON_parse (jsn "{'a':1}") = Some (VObj [(lit "a", VNum (of_N 1))])
  /\ updateJsonAtPath bare_host (jsn "{'a':1}") (Some path_a_b_c) (lit "5")
     = jsn "{'a':1}"
  /\ JSON_stringify
       (update_along (VObj [(lit "a", VNum (of_N 1))]) path_a_b_c
                     (parse_or_raw (lit "5")))
     = unlines (map jsn ["{"; "  'a': 1"; "}"]%string)
  /\ ~ (forall (h : Host) (json : jstring) (obj : value) (p : Path)
               (newValue : jstring),
           JSON_parse json = Some obj ->
           p <> [] ->
           updateJsonAtPath h json (Some p) newValue
           = JSON_stringify (update_along obj p (parse_or_raw newValue))).
Proof.
  split; [reflexivity|]. split; [reflexivity|]. split; [reflexivity|].
  intros H.
  specialize (H bare_host (jsn "{'a':1}") (VObj [(lit "a", VNum (of_N 1))])
                path_a_b_c (lit "5") eq_refl).
  assert (Hne : path_a_b_c <> []) by discriminate.
  specialize (H Hne). vm_compute in H. discriminate.
Qed.

(** C3, amended.  On a document that parses:
    - if the walk of a non-empty path stays in the document (every container
      it reaches is an object or an array, no step goes through an inherited
      property or a named property of an array, and the last key can be
      assigned), the document is updated along the path, a missing step
      being created as an empty array when the next segment is a number and
      as an empty object otherwise, and the last segment receiving the
      parsed new value, or the raw string when it does not parse; the result
      is the 2-space serialisation of the updated document, and, when
      [JSON.stringify] raises on it, the text as it was given;
    - if the walk arrives at a primitive value, the text is returned as it
      was given. *)
Theorem updateJsonAtPath_along_path (h : Host) (json : jstring)
  (obj : value) (p : Path) (newValue : jstring) :
  JSON_parse json = Some obj ->
  (within_document h obj p = true ->
   updateJsonAtPath h json (Some p) newValue
   = if stringify_raises h (update_along obj p (parse_or_raw newValue))
     then json
     else JSON_stringify (update_along obj p (parse_or_raw newValue)))
  /\ (reaches_primitive obj p = true ->
      updateJsonAtPath h json (Some p) newValue = json).
Proof.
  intros Hj. unfold updateJsonAtPath, updateJsonAtPath_body. rewrite Hj.
  split; intros Hw.
  - destruct (descend_within h (parse_or_raw newValue) p [] obj Hw)
      as (ctx' & cur' & lk & cur'' & Hd & Ha & Hp).
    destruct p as [|key rest]; [discriminate|].
    rewrite Hd. cbn [bind]. rewrite Ha. cbn [bind]. rewrite Hp.
    cbn [plug]. unfold stringify.
    destruct (stringify_raises h _); reflexivity.
  - destruct p as [|key rest]; [discriminate|].
    destruct (descend_primitive h (parse_or_raw newValue) (key :: rest) []
                                obj Hw)
      as [Hd | (ctx' & cur' & lk & Hd & Ha)]; rewrite Hd; cbn [bind].
    + reflexivity.
    + rewrite Ha. reflexivity.
Qed.

(** [updateJsonAtPath('{"a":1}', ["b",0], "5")] creates [b] as an array and
    puts 5 at its index 0. *)
Lemma updateJsonAtPath_along_path_witness :
  updateJsonAtPath bare_host (jsn "{'a':1}")
                   (Some [SKey (lit "b"); SIndex (of_N 0)]) (lit "5")
  = unlines (map jsn ["{"; "  'a': 1,"; "  'b': ["; "    5"; "  ]"; "}"]%string).
Proof.
  exact (proj1 (@updateJsonAtPath_along_path bare_host (jsn "{'a':1}")
                  (VObj [(lit "a", VNum (of_N 1))])
                  [SKey (lit "b"); SIndex (of_N 0)] (lit "5") eq_refl)
               eq_refl).
Defined.

(** On a host whose [JSON.stringify] gives up beyond 1000 levels, writing 5
    over the second element of a document whose first element is 1001
    nested arrays stays in the document, [JSON.stringify] raises at the end
    of the [try] block, and the text comes back as it was given: it is not
    the serialisation of the updated document. *)
Example updateJsonAtPath_deep_document :
  JSON_parse deep_document = Some (VArr [nest 1000; VNum (of_N 1)])
  /\ within_document (stack_host 1000) (VArr [nest 1000; VNum (of_N 1)])
                     [SIndex (of_N 1)] = true
  /\ update_along (VArr [nest 1000; VNum (of_N 1)]) [SIndex (of_N 1)]
                  (parse_or_raw (lit "5"))
     = VArr [nest 1000; VNum (of_N 5)]
  /\ updateJsonAtPath (stack_host 1000) deep_document
                      (Some [SIndex (of_N 1)]) (lit "5")
     = deep_document
  /\ updateJsonAtPath_log (stack_host 1000) deep_document
                          (Some [SIndex (of_N 1)]) (lit "5")
     = [ConsoleError (lit "Failed to update JSON:") RangeError]
  /\ deep_document <> JSON_stringify (VArr [nest 1000; VNum (of_N 5)]).
Proof.
  do 5 (split; [vm_compute; reflexivity|]).
  unfold JSON_stringify. rewrite serialize_array. unfold deep_document.
  discriminate.
Qed.

(** The other values section 8 of the specification lists. *)
Example updateJsonAtPath_examples :
  updateJsonAtPath bare_host (jsn "{'a':1}") (Some [SKey (lit "a")]) (lit "2")
  = unlines (map jsn ["{"; "  'a': 2"; "}"]%string)
  /\ updateJsonAtPath bare_host (jsn "{'a':{'b':1}}")
       (Some [SKey (lit "a"); SKey (lit "c")]) (jsn "'x'")
     = unlines (map jsn ["{"; "  'a': {"; "    'b': 1,"; "    'c': 'x'";
                         "  }"; "}"]%string).
Proof. split; reflexivity. Qed.

(** Further cases: an index past the end pads the array with [null]; a new
    index-like key of an object comes before the other keys; a property of a
    primitive cannot be assigned; the [length] of an array is a number, which
    cannot take a property. *)
Example updateJsonAtPath_corner_cases :
  updateJsonAtPath bare_host (jsn "[1]") (Some [SIndex (of_N 3)]) (lit "5")
  = unlines (map jsn ["["; "  1,"; "  null,"; "  null,"; "  5"; "]"]%string)
  /\ updateJsonAtPath bare_host (jsn "{'b':1}") (Some [SKey (lit "1")])
       (lit "2")
     = unlines (map jsn ["{"; "  '1': 2,"; "  'b': 1"; "}"]%string)
  /\ updateJsonAtPath bare_host (jsn "{'a':1}")
       (Some [SKey (lit "a"); SKey (lit "b")]) (lit "5")
     = jsn "{'a':1}"
  /\ updateJsonAtPath bare_host (jsn "[1,2]")
       (Some [SKey (lit "length"); SKey (lit "x")]) (lit "5")
     = jsn "[1,2]".
Proof. repeat split; reflexivity. Qed.

(* ================================================================== *)
(** * What [updateJsonAtPath] returns parses, if the document did *)

Lemma updateJsonAtPath_body_within (h : Host) (json : jstring)
  (obj : value) (p : Path) (newValue : jstring) :
  JSON_parse json = Some obj ->
  within_document h obj p = true ->
  updateJsonAtPath_body h json (Some p) newValue
  = stringify h (update_along obj p (parse_or_raw newValue)).
Proof.
  intros Hj Hw. unfold updateJsonAtPath_body. rewrite Hj.
  destruct (descend_within h (parse_or_raw newValue) p [] obj Hw)
    as (ctx' & cur' & lk & cur'' & Hd & Ha & Hp).
  destruct p as [|key rest]; [discriminate|].
  rewrite Hd. cbn [bind]. rewrite Ha. cbn [bind]. rewrite Hp. reflexivity.
Qed.

Lemma stringify_quiet (h : Host) (v : value) :
  stringify_raises h v = false -> stringify h v = Ok (JSON_stringify v).
Proof. unfold stringify. intros ->. reflexivity. Qed.

Lemma stringify_cases (h : Host) (v : value) :
  stringify h v = Ok (JSON_stringify v) \/ stringify h v = Throw RangeError.
Proof. unfold stringify. destruct (stringify_raises h v); auto. Qed.

Lemma updateJsonAtPath_body_primitive (h : Host) (json : jstring)
  (obj : value) (p : Path) (newValue : jstring) :
  JSON_parse json = Some obj ->
  reaches_primitive obj p = true ->
  updateJsonAtPath_body h json (Some p) newValue = Throw TypeError.
Proof.
  intros Hj Hr. unfold updateJsonAtPath_body. rewrite Hj.
  destruct p as [|key rest]; [discriminate|].
  destruct (descend_primitive h (parse_or_raw newValue) (key :: rest) []
                              obj Hr)
    as [Hd | (ctx' & cur' & lk & Hd & Ha)]; rewrite Hd; cbn [bind].
  - reflexivity.
  - rewrite Ha. reflexivity.
Qed.

Lemma updateJsonAtPath_cases (h : Host) (json : jstring) (p : option Path)
  (newValue : jstring) :
  updateJsonAtPath h json p newValue = json
  \/ exists v, updateJsonAtPath h json p newValue = JSON_stringify v.
Proof.
  unfold updateJsonAtPath, updateJsonAtPath_body.
  destruct (JSON_parse json) as [obj|]; [|auto].
  unfold parse, stringify.
  destruct p as [[|key rest]|].
  - destruct (JSON_parse newValue) as [v|]; cbn [bind catch];
      [destruct (stringify_raises h v)|]; cbn [catch]; eauto.
  - destruct (descend h [] obj (key :: rest)) as [[ctx cur lk|obj' c r]|e];
      cbn [bind]; [| |auto].
    + destruct (assign h cur (property_key lk) (parse_or_raw newValue))
        as [cur'|]; cbn [bind]; [|auto].
      destruct (stringify_raises h (plug ctx cur')); eauto.
    + destruct (off_document_raises h c r (parse_or_raw newValue)); [auto|].
      destruct (stringify_raises h obj'); eauto.
  - destruct (JSON_parse newValue) as [v|]; cbn [bind catch];
      [destruct (stringify_raises h v)|]; cbn [catch]; eauto.
Qed.

Lemma updateJsonAtPath_parses (h : Host) (json : jstring) (obj : value)
  (p : option Path) (newValue : jstring) :
  JSON_parse json = Some obj ->
  exists x, JSON_parse (updateJsonAtPath h json p newValue) = Some x.
Proof.
  intros Hj.
  destruct (updateJsonAtPath_cases h json p newValue) as [-> | [v ->]].
  - eauto.
  - apply JSON_stringify_parses.
Qed.

(* ================================================================== *)
(** * Saving *)

Lemma updateJsonAtPath_log_quiet (h : Host) (json : jstring)
  (p : option Path) (newValue : jstring) :
  forall e, In e (updateJsonAtPath_log h json p newValue) ->
            is_store_write e = false /\ is_timer e = false
            /\ is_alert e = false.
Proof.
  unfold updateJsonAtPath_log.
  destruct (updateJsonAtPath_body h json p newValue); simpl.
  - contradiction.
  - intros x [<- | []]. auto.
Qed.

Section Save.

Variable h : Host.
Variable s : State.
Variable nodeData : NodeData.

Hypothesis editing : isEditing (view s) = true.
Hypothesis selected : selectedNode (stores s) = Some nodeData.

Let updatedJson : jstring :=
  updateJsonAtPath h (json (stores s)) (path nodeData)
                   (editValue (view s)).

Let log : list effect :=
  updateJsonAtPath_log h (json (stores s)) (path nodeData)
                       (editValue (view s)).


Lemma save_accepted (x : value) :
  JSON_parse updatedJson = Some x ->
  step h s ClickSave
  = mkState (mkView false (editValue (view s))) (stores s)
            (trace s ++ log ++
             [SetJson updatedJson; SetContents updatedJson true false;
              SetTimeout (Reselect (id nodeData)) 200%N]).
Proof.
  intros Hu. unfold step, handleSave. rewrite editing, selected.
  fold updatedJson log. rewrite Hu. unfold rerender, sync_effect. simpl.
  rewrite selected. reflexivity.
Qed.

End Save.



(** C8.  When the updated text parses, Save commits it to the document
    store, writes the same text to the file-content store with
    [hasChanges] set, and leaves the Editing state. *)
Theorem save_valid_commits (h : Host) (s : State) (nodeData : NodeData)
  (x : value) :
  isEditing (view s) = true ->
  selectedNode (stores s) = Some nodeData ->
  let updatedJson :=
    updateJsonAtPath h (json (stores s)) (path nodeData)
                     (editValue (view s)) in
  JSON_parse updatedJson = Some x ->
  let s' := step h s ClickSave in
  isEditing (view s') = false
  /\ (exists before after,
        trace s' = trace s ++ before ++
                   SetJson updatedJson
                   :: SetContents updatedJson true false :: after
        /\ forallb (fun e => negb (is_store_write e) && negb (is_alert e))
                   (before ++ after) = true).
Proof.
  intros He Hs u Hu s'. unfold s'.
  rewrite (@save_accepted h s nodeData He Hs x Hu). simpl. split; [reflexivity|].
  eexists _, [_]. split; [reflexivity|].
  apply forallb_forall. intros e Hin. apply in_app_or in Hin.
  destruct Hin as [Hin | [<- | []]]; [|reflexivity].
  apply updateJsonAtPath_log_quiet in Hin. destruct Hin as (-> & _ & ->).
  reflexivity.
Qed.

Lemma save_valid_commits_witness :
  let updatedJson := unlines (map jsn ["{"; "  'a': 2"; "}"]%string) in
  let s' := step bare_host editing_state ClickSave in
  isEditing (view s') = false
  /\ (exists before after,
        trace s' = trace editing_state ++ before ++
                   SetJson updatedJson
                   :: SetContents updatedJson true false :: after
        /\ forallb (fun e => negb (is_store_write e) && negb (is_alert e))
                   (before ++ after) = true).
Proof.
  apply (@save_valid_commits bare_host editing_state sample_node
           (VObj [(lit "a", VNum (of_N 2))])).
  - reflexivity.
  - reflexivity.
  - vm_compute. reflexivity.
Defined.

(** C9.  A save that commits schedules exactly one callback, with a delay of
    200.  When it runs, it looks the original identifier up in the node list
    the graph store has then: it selects a node exactly when one with that
    identifier is in the list (the first such), and otherwise does nothing
    at all. *)
Theorem save_schedules_reselection (h : Host) (s : State)
  (nodeData : NodeData) (x : value) :
  isEditing (view s) = true ->
  selectedNode (stores s) = Some nodeData ->
  JSON_parse (updateJsonAtPath h (json (stores s)) (path nodeData)
                               (editValue (view s))) = Some x ->
  (exists added,
     trace (step h s ClickSave) = trace s ++ added
     /\ filter is_timer added
        = [SetTimeout (Reselect (id nodeData)) 200%N])
  /\ forall later : State,
       let fired := run_callback (Reselect (id nodeData))
                                 (nodes (stores later)) in
       step h later (TimerFired (Reselect (id nodeData)))
       = mkState (view later) (stores later) (trace later ++ fired)
       /\ ((exists n, In n (nodes (stores later)) /\ id n = id nodeData)
           -> exists n, fired = [SetSelectedNode n]
                        /\ In n (nodes (stores later))
                        /\ id n = id nodeData)
       /\ ((forall n, In n (nodes (stores later)) -> id n <> id nodeData)
           -> fired = []).
Proof.
  intros He Hs Hu. split.
  - rewrite (@save_accepted h s nodeData He Hs x Hu). simpl. eexists. split; [reflexivity|].
    rewrite filter_app.
    assert (Hlog : filter is_timer
              (updateJsonAtPath_log h (json (stores s)) (path nodeData)
                                    (editValue (view s))) = []).
    { unfold updateJsonAtPath_log.
      destruct (updateJsonAtPath_body _ _ _ _); reflexivity. }
    rewrite Hlog. reflexivity.
  - intros later fired. split; [reflexivity|]. unfold fired, run_callback.
    destruct (find _ (nodes (stores later))) as [n|] eqn:Hf; split.
    + intros _. apply find_some in Hf. destruct Hf as [Hin Hid].
      apply jstring_eqb_eq in Hid. eauto.
    + intros Hno. apply find_some in Hf. destruct Hf as [Hin Hid].
      apply jstring_eqb_eq in Hid. destruct (Hno n Hin Hid).
    + intros [n [Hin Hid]]. apply (find_none _ _ Hf) in Hin.
      apply jstring_eqb_neq in Hin. contradiction.
    + reflexivity.
Qed.

Lemma save_schedules_reselection_witness :
  (exists added,
     trace (step bare_host editing_state ClickSave)
     = trace editing_state ++ added
     /\ filter is_timer added
        = [SetTimeout (Reselect (id sample_node)) 200%N])
  /\ forall later : State,
       let fired := run_callback (Reselect (id sample_node))
                                 (nodes (stores later)) in
       step bare_host later (TimerFired (Reselect (id sample_node)))
       = mkState (view later) (stores later) (trace later ++ fired)
       /\ ((exists n, In n (nodes (stores later)) /\ id n = id sample_node)
           -> exists n, fired = [SetSelectedNode n]
                        /\ In n (nodes (stores later))
                        /\ id n = id sample_node)
       /\ ((forall n, In n (nodes (stores later)) -> id n <> id sample_node)
           -> fired = []).
Proof.
  apply (@save_schedules_reselection bare_host editing_state sample_node
           (VObj [(lit "a", VNum (of_N 2))])).
  - reflexivity.
  - reflexivity.
  - vm_compute. reflexivity.
Defined.

(* ================================================================== *)
(** * The edit buffer follows the selection *)

(** C10.  While [isEditing] holds, a change of the selected node to a node
    [n] replaces the edit buffer by [normalizeNodeData] of the rows of [n],
    whatever the buffer held; the view stays in Editing and nothing is
    reported. *)
Theorem selection_change_overwrites_buffer (h : Host) (s : State)
  (n : NodeData) :
  isEditing (view s) = true ->
  let s' := step h s (SelectionChanged (Some n)) in
  editValue (view s')
  = normalizeNodeData
      (Some (match text n with Some rows => rows | None => [] end))
  /\ isEditing (view s') = true
  /\ trace s' = trace s.
Proof.
  intros He s'. unfold s', step, rerender, sync_effect. simpl.
  rewrite He. simpl. auto.
Qed.

Lemma selection_change_overwrites_buffer_witness :
  let s' := step bare_host editing_state (SelectionChanged (Some other_node)) in
  editValue (view s')
  = normalizeNodeData
      (Some (match text other_node with Some rows => rows | None => [] end))
  /\ isEditing (view s') = true
  /\ trace s' = trace editing_state.
Proof.
  apply (@selection_change_overwrites_buffer bare_host editing_state other_node).
  reflexivity.
Defined.

(* ================================================================== *)
(** * The text [updateJsonAtPath] returns and the document *)

Lemma updateJsonAtPath_unparsed (h : Host) (json : jstring) (p : option Path)
  (newValue : jstring) :
  JSON_parse json = None -> updateJsonAtPath h json p newValue = json.
Proof.
  intros H. unfold updateJsonAtPath, updateJsonAtPath_body. rewrite H.
  reflexivity.
Qed.

(** X1.  Whatever the path and the new value, the text [updateJsonAtPath]
    returns parses exactly when the document text did. *)
Theorem updateJsonAtPath_parses_iff (h : Host) (json : jstring)
  (p : option Path) (newValue : jstring) :
  JSON_parse (updateJsonAtPath h json p newValue) = None
  <-> JSON_parse json = None.
Proof.
  split; intros H.
  - destruct (JSON_parse json) as [obj|] eqn:E; [|reflexivity].
    destruct (@updateJsonAtPath_parses h json obj p newValue E) as [x Hx].
    congruence.
  - rewrite updateJsonAtPath_unparsed; assumption.
Qed.

(* ================================================================== *)
(** * What Save does, over whole runs *)


Lemma sync_effect_isEditing (nodeData : option NodeData) (v : View) :
  isEditing (sync_effect nodeData v) = isEditing v.
Proof.
  unfold sync_effect. destruct nodeData; [|reflexivity].
  destruct (isEditing v) eqn:E; [reflexivity | exact E].
Qed.

Lemma rerender_isEditing (changed : bool) (st : Stores) (v : View) :
  isEditing (rerender changed st v) = isEditing v.
Proof.
  unfold rerender. destruct changed; [apply sync_effect_isEditing|reflexivity].
Qed.





Lemma sound_writes_quiet (added : list effect) :
  (forall e, In e added -> committed e = None) -> sound_writes added.
Proof.
  intros H. split.
  - intros u Hin. apply H in Hin. discriminate.
  - intros c a b Hin. apply H in Hin. discriminate.
Qed.

Lemma sound_writes_app (a b : list effect) :
  sound_writes a -> sound_writes b -> sound_writes (a ++ b).
Proof.
  intros [A1 A2] [B1 B2]. split.
  - intros u Hin. apply in_app_or in Hin. destruct Hin as [Hin | Hin].
    + destruct (A1 u Hin). split; [assumption | apply in_or_app; auto].
    + destruct (B1 u Hin). split; [assumption | apply in_or_app; auto].
  - intros c x y Hin. apply in_app_or in Hin. destruct Hin as [Hin | Hin].
    + destruct (A2 c x y Hin) as (? & ? & ?).
      repeat split; try assumption. apply in_or_app; auto.
    + destruct (B2 c x y Hin) as (? & ? & ?).
      repeat split; try assumption. apply in_or_app; auto.
Qed.

Lemma handleSave_sound (h : Host) (st : Stores) (v : View) :
  sound_writes (snd (handleSave h st v)).
Proof.
  unfold handleSave. destruct (selectedNode st) as [n|].
  2:{ apply sound_writes_quiet. intros e []. }
  pose proof (updateJsonAtPath_log_quiet h (json st) (path n) (editValue v))
    as Hq.
  assert (Hlog : sound_writes
                   (updateJsonAtPath_log h (json st) (path n) (editValue v))).
  { apply sound_writes_quiet. intros e Hin. apply Hq in Hin.
    destruct Hin as (Hw & _). destruct e; try reflexivity; discriminate. }
  destruct (JSON_parse (updateJsonAtPath h (json st) (path n) (editValue v)))
    as [x|] eqn:E; cbn [snd]; apply sound_writes_app; try exact Hlog.
  - split.
    + intros u [[= <-] | [[=] | [[=] | []]]].
      split; [congruence | simpl; auto].
    + intros c a b [[=] | [[= <- <- <-] | [[=] | []]]].
      repeat split. simpl. auto.
  - apply sound_writes_quiet. intros e [<- | [<- | []]]; reflexivity.
Qed.

Lemma step_sound (h : Host) (s : State) (e : event) :
  exists added,
    trace (step h s e) = trace s ++ added /\ sound_writes added.
Proof.
  assert (Hnil : sound_writes []) by (apply sound_writes_quiet; intros x []).
  assert (Hsame : exists added,
            trace s = trace s ++ added /\ sound_writes added).
  { exists []. rewrite app_nil_r. auto. }
  destruct e; cbn [step].
  - destruct (isEditing (view s)); exact Hsame.
  - destruct (isEditing (view s)); exact Hsame.
  - destruct (isEditing (view s)) eqn:He; [|exact Hsame].
    pose proof (handleSave_sound h (stores s) (view s)) as Hs.
    destruct (handleSave h (stores s) (view s)) as [v' effs].
    exists effs. split; [reflexivity | exact Hs].
  - destruct (isEditing (view s)); exact Hsame.
  - exact Hsame.
  - exact Hsame.
  - exact Hsame.
  - exists (run_callback cb (nodes (stores s))). split; [reflexivity|].
    apply sound_writes_quiet. unfold run_callback. destruct cb as [i].
    destruct (find _ _); intros x Hin; [|destruct Hin].
    destruct Hin as [<- | []]. reflexivity.
Qed.

(** X3.  Validate, then commit: along any sequence of events, from any
    state, every text the component hands to the document store parses, the
    same text goes to the file-content store with [hasChanges] set, and the
    file-content store is written at no other occasion. *)
Theorem run_commits_only_valid_text (h : Host) (es : list event) :
  forall s, exists added,
    trace (run h s es) = trace s ++ added /\ sound_writes added.
Proof.
  unfold run. induction es as [|e es IH]; intros s.
  - exists []. rewrite app_nil_r. split; [reflexivity|].
    apply sound_writes_quiet. intros x [].
  - cbn [fold_left]. destruct (step_sound h s e) as (a1 & E1 & S1).
    destruct (IH (step h s e)) as (a2 & E2 & S2).
    exists (a1 ++ a2). rewrite E2, E1, app_assoc. split; [reflexivity|].
    apply sound_writes_app; assumption.
Qed.

(* ================================================================== *)
(** * Editing and cancelling *)

Lemma run_inputs (h : Host) (ts : list jstring) :
  forall s,
    isEditing (view s) = true ->
    exists b,
      fold_left (step h) (map Input ts) s
      = mkState (mkView true b) (stores s) (trace s).
Proof.
  induction ts as [|t ts IH]; intros [[e b] st tr] He; simpl in He; subst e.
  - exists b. reflexivity.
  - cbn [map fold_left]. unfold step at 2. cbn [view isEditing].
    destruct (IH (mkState (mkView true t) st tr) eq_refl) as [b' Hb].
    exists b'. exact Hb.
Qed.

(** X4.  Cancelling discards the edit: from Viewing, Edit followed by any
    typing and Cancel gives back the same screen, with the buffer emptied;
    the stores are as they were and nothing has been called on them. *)
Theorem edit_cancel_restores (h : Host) (s : State) (ts : list jstring) :
  isEditing (view s) = false ->
  let s' := run h s (ClickEdit :: map Input ts ++ [ClickCancel]) in
  screen s' = screen s
  /\ view s' = mkView false []
  /\ stores s' = stores s
  /\ trace s' = trace s.
Proof.
  intros He s'. unfold s', run. cbn [fold_left]. rewrite fold_left_app.
  set (s1 := step h s ClickEdit).
  assert (H1 : isEditing (view s1) = true /\ stores s1 = stores s
               /\ trace s1 = trace s).
  { unfold s1, step. rewrite He. cbn [view stores trace].
    rewrite rerender_isEditing. auto. }
  destruct H1 as (E1 & St1 & Tr1).
  destruct (run_inputs h ts s1 E1) as [b ->]. cbn [fold_left].
  unfold step. cbn [view isEditing stores trace].
  unfold rerender, handleCancel, sync_effect. cbn [isEditing].
  assert (Hv : (match selectedNode (stores s1) with
                | Some _ => mkView false []
                | None => mkView false []
                end) = mkView false [])
    by (destruct (selectedNode (stores s1)); reflexivity).
  rewrite Hv, St1, Tr1. unfold screen, render. cbn [view stores isEditing].
  rewrite He. auto.
Qed.

Lemma edit_cancel_restores_witness :
  let s' := run bare_host viewing_state
                (ClickEdit :: map Input [lit "{"; lit "{'x"] ++ [ClickCancel]) in
  screen s' = screen viewing_state
  /\ view s' = mkView false []
  /\ stores s' = stores viewing_state
  /\ trace s' = trace viewing_state.
Proof.
  apply (@edit_cancel_restores bare_host viewing_state [lit "{"; lit "{'x"]).
  reflexivity.
Defined.

(** X5.  Entering Editing keeps the text on screen: with a node selected,
    the text area opens with exactly the text the read-only panel was
    showing; the path panel is untouched and the buttons become Cancel and
    Save.  With no node selected the text area opens with the buffer left
    from before. *)
Theorem edit_opens_with_shown_text (h : Host) (s : State) :
  isEditing (view s) = false ->
  let s' := step h s ClickEdit in
  match selectedNode (stores s) with
  | Some _ =>
      exists shown,
        content (screen s) = CodeHighlight shown
        /\ content (screen s') = Textarea shown
  | None => content (screen s') = Textarea (editValue (view s))
  end
  /\ jsonPath (screen s') = jsonPath (screen s)
  /\ buttons (screen s) = [EditButton]
  /\ buttons (screen s') = [CancelButton; SaveButton].
Proof.
  intros He s'. unfold s', step, screen, render. rewrite He.
  cbn [view stores]. unfold rerender, handleEdit, sync_effect.
  destruct (selectedNode (stores s)) as [n|]; cbn [isEditing editValue];
    repeat split; try reflexivity.
  eexists. split; reflexivity.
Qed.

Lemma edit_opens_with_shown_text_witness :
  let s' := step bare_host viewing_state ClickEdit in
  match selectedNode (stores viewing_state) with
  | Some _ =>
      exists shown,
        content (screen viewing_state) = CodeHighlight shown
        /\ content (screen s') = Textarea shown
  | None => content (screen s') = Textarea (editValue (view viewing_state))
  end
  /\ jsonPath (screen s') = jsonPath (screen viewing_state)
  /\ buttons (screen viewing_state) = [EditButton]
  /\ buttons (screen s') = [CancelButton; SaveButton].
Proof.
  apply (@edit_opens_with_shown_text bare_host viewing_state). reflexivity.
Defined.

(* ================================================================== *)
(** * Paths as text *)

Lemma jsonPathToString_concat (p : Path) :
  jsonPathToString (Some p) = lit "$" ++ concat (map bracketed p).
Proof.
  destruct p as [|seg p]; [reflexivity|].
  rewrite <- join_brackets. reflexivity.
Qed.

(** X6.  The text of a longer path continues the text of the path it
    extends: one bracketed term is added per further segment. *)
Theorem jsonPathToString_app (p q : Path) :
  jsonPathToString (Some (p ++ q))
  = jsonPathToString (Some p) ++ concat (map bracketed q).
Proof.
  rewrite !jsonPathToString_concat, map_app, concat_app, app_assoc.
  reflexivity.
Qed.

Lemma split_unique (c : code_unit) (s t X Y : jstring) :
  ~ In c s -> ~ In c t ->
  s ++ c :: X = t ++ c :: Y -> s = t /\ X = Y.
Proof.
  revert t; induction s as [|a s IH]; intros [|b t] Hs Ht H; simpl in *.
  - injection H as <-. auto.
  - injection H as <- _. tauto.
  - injection H as -> _. tauto.
  - injection H as <- H. destruct (IH t) as [<- <-]; tauto.
Qed.

Lemma digit_chars_range (ds : list N) (c : code_unit) :
  In c (digit_chars ds) -> (48 <= c <= 57)%N.
Proof.
  unfold digit_chars. rewrite in_map_iff. intros [d [<- _]].
  unfold digit_char. pose proof (dig_lt d). lia.
Qed.

(** No closing bracket occurs in the text of a number. *)
Lemma Number_toString_no_bracket (x : number) :
  ~ In 93%N (Number_toString x).
Proof.
  destruct (Number_toString_shape x) as (sg & d & ip & fp & ex & -> & _).
  intros H. repeat (apply in_app_or in H; destruct H as [H | H]).
  - destruct sg; simpl in H; [destruct H as [[=] | []] | exact H].
  - apply digit_chars_range in H. lia.
  - destruct fp as [|f fp]; [exact H|]. destruct H as [[=] | H].
    apply digit_chars_range in H. lia.
  - destruct ex as [[neg eds]|]; [|exact H].
    destruct H as [[=] | [H | H]].
    + destruct neg; discriminate.
    + apply digit_chars_range in H. lia.
Qed.

Lemma bracketed_key (s R : jstring) :
  bracketed (SKey s) ++ R = 91%N :: 34%N :: s ++ 34%N :: 93%N :: R.
Proof.
  unfold bracketed. change (lit "[") with [91%N]. change (lit "]") with [93%N].
  cbn [app]. rewrite <- app_assoc. reflexivity.
Qed.

Lemma bracketed_number (n : number) (R : jstring) :
  bracketed (SIndex n) ++ R = 91%N :: Number_toString n ++ 93%N :: R.
Proof.
  unfold bracketed. change (lit "[") with [91%N]. change (lit "]") with [93%N].
  cbn [app]. rewrite <- app_assoc. reflexivity.
Qed.

Lemma bracketed_unique (a b : segment) (R R' : jstring) :
  quote_free [a] -> quote_free [b] ->
  bracketed a ++ R = bracketed b ++ R' ->
  segment_text a = segment_text b /\ is_number a = is_number b /\ R = R'.
Proof.
  intros Ha Hb H. destruct a as [s|n], b as [t|m];
    rewrite ?bracketed_key, ?bracketed_number in H; injection H as H.
  - apply split_unique in H.
    + destruct H as [-> H]. injection H as ->. auto.
    + apply Ha. left. reflexivity.
    + apply Hb. left. reflexivity.
  - destruct (Number_toString_head m) as (c & tl & E & Hc).
    rewrite E in H. injection H as <- _.
    destruct Hc as [[=] | [=]].
  - destruct (Number_toString_head n) as (c & tl & E & Hc).
    rewrite E in H. injection H as -> _.
    destruct Hc as [[=] | [=]].
  - apply split_unique in H; try apply Number_toString_no_bracket.
    destruct H as [E ->]. cbn [segment_text is_number]. rewrite E. auto.
Qed.

Lemma bracketed_terms_unique (p : Path) :
  forall q,
    quote_free p -> quote_free q ->
    concat (map bracketed p) = concat (map bracketed q) ->
    map segment_text p = map segment_text q
    /\ map is_number p = map is_number q.
Proof.
  induction p as [|a p IH]; intros [|b q] Hp Hq H.
  - auto.
  - destruct b; discriminate.
  - destruct a; discriminate.
  - cbn [map concat] in H. apply bracketed_unique in H.
    + destruct H as (Et & En & H). apply IH in H.
      * destruct H as [E1 E2]. cbn [map]. rewrite Et, En, E1, E2. auto.
      * intros s Hin. apply Hp. right. exact Hin.
      * intros s Hin. apply Hq. right. exact Hin.
    + intros s [-> | []]. apply Hp. left. reflexivity.
    + intros s [-> | []]. apply Hq. left. reflexivity.
Qed.

(** X7.  As long as no key holds a double quote, the text of a path tells
    the path: two paths with the same text have the same length, agree
    segment by segment on key against number, and on the key or on the
    decimal form of the number. *)
Theorem jsonPathToString_tells_path (p q : Path) :
  quote_free p -> quote_free q ->
  jsonPathToString (Some p) = jsonPathToString (Some q) ->
  map segment_text p = map segment_text q
  /\ map is_number p = map is_number q.
Proof.
  intros Hp Hq H. rewrite !jsonPathToString_concat in H.
  apply app_inv_head in H. apply bracketed_terms_unique; assumption.
Qed.

Lemma jsonPathToString_tells_path_witness :
  map segment_text [SKey (lit "a"); SIndex (of_N 0)]
  = map segment_text [SKey (lit "a"); SIndex (mkNumber false [] 0)]
  /\ map is_number [SKey (lit "a"); SIndex (of_N 0)]
     = map is_number [SKey (lit "a"); SIndex (mkNumber false [] 0)].
Proof.
  apply (@jsonPathToString_tells_path
           [SKey (lit "a"); SIndex (of_N 0)]
           [SKey (lit "a"); SIndex (mkNumber false [] 0)]).
  - intros s [[= <-] | [[=] | []]]. vm_compute. intuition discriminate.
  - intros s [[= <-] | [[=] | []]]. vm_compute. intuition discriminate.
  - reflexivity.
Defined.

(** A key with a double quote in it can be taken for two keys. *)
Example jsonPathToString_quote_in_key :
  jsonPathToString (Some [SKey (jsn "a']['b")])
  = jsonPathToString (Some [SKey (lit "a"); SKey (lit "b")]).
Proof. reflexivity. Qed.

(* ================================================================== *)
(** * The normalised text as JSON *)



(* ================================================================== *)
(** * Reading back what [updateJsonAtPath] wrote *)

Lemma nth_error_set_index_same (items : list value) (i : nat) (v : value) :
  nth_error (set_index items i v) i = Some v.
Proof.
  revert items; induction i as [|i IH]; intros [|x items]; simpl; auto.
Qed.

Lemma nth_error_set_index_other (items : list value) (i j : nat)
  (v w : value) :
  i <> j ->
  nth_error items j = Some w ->
  nth_error (set_index items i v) j = Some w.
Proof.
  revert items j; induction i as [|i IH]; intros [|x items] [|j] Hn H;
    simpl in *; try discriminate; try congruence; auto.
Qed.

Lemma own_get_replace_other (ps : props) (k k' : jstring) (v : value) :
  k' <> k -> own_get (own_replace ps k v) k' = own_get ps k'.
Proof.
  intros Hn. induction ps as [|[k0 v0] ps IH]; simpl; [reflexivity|].
  destruct (jstring_eqb k0 k) eqn:E; simpl.
  - apply jstring_eqb_eq in E. subst k0.
    assert (E' : jstring_eqb k k' = false)
      by (apply jstring_eqb_neq; congruence).
    rewrite E'. reflexivity.
  - rewrite IH. reflexivity.
Qed.

Lemma own_get_insert_index_other (ps : props) (i : N) (k k' : jstring)
  (v : value) :
  k' <> k -> own_get (own_insert_index ps i k v) k' = own_get ps k'.
Proof.
  intros Hn.
  assert (E' : jstring_eqb k k' = false)
    by (apply jstring_eqb_neq; congruence).
  induction ps as [|[k0 v0] ps IH]; simpl; [rewrite E'; reflexivity|].
  destruct (array_index k0) as [j|]; [destruct (j <? i)%N|]; simpl;
    rewrite ?E', ?IH; reflexivity.
Qed.

Lemma own_get_snoc_other (ps : props) (k k' : jstring) (v : value) :
  k' <> k -> own_get (ps ++ [(k, v)]) k' = own_get ps k'.
Proof.
  intros Hn.
  assert (E' : jstring_eqb k k' = false)
    by (apply jstring_eqb_neq; congruence).
  induction ps as [|[k0 v0] ps IH]; simpl; [rewrite E'; reflexivity|].
  rewrite IH. reflexivity.
Qed.

Lemma own_get_set_other (ps : props) (k k' : jstring) (v : value) :
  k' <> k -> own_get (own_set ps k v) k' = own_get ps k'.
Proof.
  intros Hn. unfold own_set, own_insert.
  destruct (has_own ps k); [apply own_get_replace_other, Hn|].
  destruct (array_index k).
  - apply own_get_insert_index_other, Hn.
  - apply own_get_snoc_other, Hn.
Qed.

Lemma entry_of_put_same (h : Host) (container : value) (k : jstring)
  (v : value) :
  addresses h container k = true \/ assignable container k = true ->
  entry_of (put container k v) k = Some v.
Proof.
  intros H. destruct container as [| | | |items|ps];
    try (destruct H; discriminate); simpl in *.
  - destruct (array_index k) as [i|] eqn:E; [|destruct H; discriminate].
    simpl. rewrite E. apply nth_error_set_index_same.
  - apply own_get_set.
Qed.

Lemma update_along_read (h : Host) (v : value) (p : Path) :
  forall current,
    within_document h current p = true ->
    get_at (update_along current p v) p = Some v.
Proof.
  induction p as [|key rest IH]; intros current Hw; [discriminate|].
  destruct rest as [|next rest].
  - cbn [update_along get_at]. cbn [within_document] in Hw.
    rewrite (entry_of_put_same h); auto.
  - change (within_document h current (key :: next :: rest))
      with (addresses h current (property_key key)
            && within_document h
                 (match entry_of current (property_key key) with
                  | Some c => c
                  | None => created next
                  end) (next :: rest)) in Hw.
    apply andb_true_iff in Hw. destruct Hw as [Ha Hw].
    change (update_along current (key :: next :: rest) v)
      with (put current (property_key key)
              (update_along
                 (match entry_of current (property_key key) with
                  | Some c => c
                  | None => created next
                  end) (next :: rest) v)).
    cbn [get_at]. rewrite (entry_of_put_same h) by auto.
    apply IH, Hw.
Qed.

Lemma updateJsonAtPath_within (h : Host) (json : jstring) (obj : value)
  (p : Path) (newValue : jstring) :
  JSON_parse json = Some obj ->
  within_document h obj p = true ->
  updateJsonAtPath h json (Some p) newValue
  = if stringify_raises h (update_along obj p (parse_or_raw newValue))
    then json
    else JSON_stringify (update_along obj p (parse_or_raw newValue)).
Proof.
  intros Hj Hw. unfold updateJsonAtPath.
  rewrite (@updateJsonAtPath_body_within h json obj p newValue Hj Hw).
  unfold stringify. destruct (stringify_raises h _); reflexivity.
Qed.

(* ================================================================== *)
(** * Saving an emptied buffer *)

(** C1, as stated, fails: on the document [{"a":1}] with the node at path
    [a] selected, Edit, an emptied buffer and Save commit the document with
    the empty string at [a]; no alert is shown and the view leaves the
    Editing state. *)
Lemma save_emptied_buffer_commits :
  let s := run bare_host viewing_state [ClickEdit; Input []; ClickSave] in
  view s = mkView false []
  /\ trace s = [SetJson emptied_text; SetContents emptied_text true false;
                SetTimeout (Reselect (id sample_node)) 200%N]
  /\ ~ (forall (h : Host) (st : Stores) (n : NodeData) (p : Path)
               (obj : value) (v : View) (tr : list effect),
           selectedNode st = Some n ->
           path n = Some p ->
           p <> [] ->
           JSON_parse (json st) = Some obj ->
           isEditing v = false ->
           let s := run h (mkState v st tr) [ClickEdit; Input []; ClickSave] in
           isEditing (view s) = true
           /\ In (Alert invalid_message) (trace s)).
Proof.
  split; [reflexivity|]. split; [reflexivity|].
  intros H.
  assert (Hp : [SKey (lit "a")] <> []) by discriminate.
  destruct (H bare_host (stores viewing_state) sample_node [SKey (lit "a")]
              (VObj [(lit "a", VNum (of_N 1))]) initial []
              eq_refl eq_refl Hp eq_refl eq_refl) as [He _].
  vm_compute in He. discriminate.
Qed.

(** C1, amended.  When the user enters Editing, empties the buffer and
    saves, on a node with a path in a document that parses, the emptied
    buffer does not parse as JSON, so the path update writes the empty
    string: when the walk stays in the document the updated document holds
    the empty string at the path and the updated text is its serialisation
    (the text as it was, should [JSON.stringify] raise on that document),
    and when the walk arrives at a primitive the text is left as it was.  In every case the
    updated text parses, so no alert is shown, the text is committed, and
    the view leaves the Editing state. *)
Theorem save_emptied_buffer (h : Host) (st : Stores) (n : NodeData)
  (p : Path) (obj : value) (v : View) (tr : list effect) :
  selectedNode st = Some n ->
  path n = Some p ->
  p <> [] ->
  JSON_parse (json st) = Some obj ->
  isEditing v = false ->
  let s := run h (mkState v st tr) [ClickEdit; Input []; ClickSave] in
  let updatedJson := updateJsonAtPath h (json st) (Some p) [] in
  parse_or_raw [] = VStr []
  /\ (within_document h obj p = true ->
      get_at (update_along obj p (VStr [])) p = Some (VStr [])
      /\ updatedJson
         = if stringify_raises h (update_along obj p (VStr []))
           then json st
           else JSON_stringify (update_along obj p (VStr [])))
  /\ (reaches_primitive obj p = true -> updatedJson = json st)
  /\ (exists x, JSON_parse updatedJson = Some x)
  /\ isEditing (view s) = false
  /\ exists log,
       trace s = tr ++ log ++
                 [SetJson updatedJson; SetContents updatedJson true false;
                  SetTimeout (Reselect (id n)) 200%N]
       /\ forallb (fun e => negb (is_alert e) && negb (is_store_write e)) log
          = true.
Proof.
  intros Hs Hp Hne Hj Hv s updatedJson.
  destruct (updateJsonAtPath_parses h (json st) (Some p) [] Hj) as [x Hx].
  set (s1 := mkState (mkView true []) st tr).
  assert (E : s = step h s1 ClickSave).
  { unfold s, run. destruct v as [e b]. simpl in Hv. subst e.
    cbn [fold_left]. f_equal.
    unfold step at 2. cbn [view isEditing stores trace].
    unfold rerender, sync_effect, handleEdit. rewrite Hs. reflexivity. }
  assert (Hsel : selectedNode (stores s1) = Some n) by exact Hs.
  assert (Hed : isEditing (view s1) = true) by reflexivity.
  assert (Hx' : JSON_parse
                  (updateJsonAtPath h (json (stores s1)) (path n)
                                    (editValue (view s1))) = Some x).
  { rewrite Hp. exact Hx. }
  rewrite (@save_accepted h s1 n Hed Hsel x Hx') in E.
  rewrite Hp in E. cbn [s1 view stores trace editValue json] in E.
  fold updatedJson in E.
  split; [reflexivity|].
  split.
  { intros Hw. split; [apply (@update_along_read h), Hw|].
    unfold updatedJson, updateJsonAtPath.
    rewrite (@updateJsonAtPath_body_within h (json st) obj p [] Hj Hw).
    unfold stringify. change (parse_or_raw []) with (VStr []).
    destruct (stringify_raises h _); reflexivity. }
  split.
  { intros Hr. unfold updatedJson, updateJsonAtPath.
    rewrite (@updateJsonAtPath_body_primitive h (json st) obj p [] Hj Hr).
    reflexivity. }
  split; [eauto|]. rewrite E.
  split; [reflexivity|]. eexists. split; [reflexivity|].
  apply forallb_forall. intros e Hin.
  apply updateJsonAtPath_log_quiet in Hin. destruct Hin as (-> & _ & ->).
  reflexivity.
Qed.

Lemma save_emptied_buffer_witness :
  let s := run bare_host viewing_state [ClickEdit; Input []; ClickSave] in
  let updatedJson :=
    updateJsonAtPath bare_host document_a (Some [SKey (lit "a")]) [] in
  parse_or_raw [] = VStr []
  /\ (within_document bare_host (VObj [(lit "a", VNum (of_N 1))])
                      [SKey (lit "a")] = true ->
      get_at (update_along (VObj [(lit "a", VNum (of_N 1))])
                           [SKey (lit "a")] (VStr []))
             [SKey (lit "a")]
      = Some (VStr [])
      /\ updatedJson
         = if stringify_raises bare_host
              (update_along (VObj [(lit "a", VNum (of_N 1))])
                            [SKey (lit "a")] (VStr []))
           then document_a
           else JSON_stringify
                  (update_along (VObj [(lit "a", VNum (of_N 1))])
                                [SKey (lit "a")] (VStr [])))
  /\ (reaches_primitive (VObj [(lit "a", VNum (of_N 1))]) [SKey (lit "a")]
      = true ->
      updatedJson = document_a)
  /\ (exists x, JSON_parse updatedJson = Some x)
  /\ isEditing (view s) = false
  /\ exists log,
       trace s = [] ++ log ++
                 [SetJson updatedJson; SetContents updatedJson true false;
                  SetTimeout (Reselect (id sample_node)) 200%N]
       /\ forallb (fun e => negb (is_alert e) && negb (is_store_write e)) log
          = true.
Proof.
  apply (@save_emptied_buffer bare_host (stores viewing_state) sample_node
           [SKey (lit "a")] (VObj [(lit "a", VNum (of_N 1))]) initial []).
  - reflexivity.
  - reflexivity.
  - discriminate.
  - vm_compute. reflexivity.
  - reflexivity.
Defined.

(* ================================================================== *)
(** * Array indices *)

Lemma digits_value_acc (s : jstring) (acc : N) :
  fold_left (fun a c => (10 * a + (c - 48))%N) s acc
  = (acc * 10 ^ N.of_nat (length s) + digits_value s)%N.
Proof.
  unfold digits_value. revert acc; induction s as [|c s IH]; intros acc.
  - simpl. lia.
  - cbn [fold_left length]. rewrite IH, (IH (10 * 0 + (c - 48))%N).
    rewrite Nat2N.inj_succ, N.pow_succ_r'. lia.
Qed.

Lemma digits_value_cons (c : code_unit) (s : jstring) :
  digits_value (c :: s)
  = ((c - 48) * 10 ^ N.of_nat (length s) + digits_value s)%N.
Proof.
  unfold digits_value at 1. cbn [fold_left]. rewrite digits_value_acc. lia.
Qed.

Lemma digits_value_lt (s : jstring) :
  forallb is_digit s = true ->
  (digits_value s < 10 ^ N.of_nat (length s))%N.
Proof.
  induction s as [|c s IH]; intros H.
  - reflexivity.
  - cbn [forallb] in H. apply andb_true_iff in H. destruct H as [Hc Hs].
    rewrite digits_value_cons. cbn [length].
    rewrite Nat2N.inj_succ, N.pow_succ_r'.
    unfold is_digit in Hc. apply andb_true_iff in Hc. destruct Hc as [H1 H2].
    apply N.leb_le in H1. apply N.leb_le in H2. specialize (IH Hs).
    set (P := (10 ^ N.of_nat (length s))%N) in *. nia.
Qed.

Lemma digits_same_length (a b : jstring) :
  length a = length b ->
  forallb is_digit a = true -> forallb is_digit b = true ->
  digits_value a = digits_value b -> a = b.
Proof.
  revert b; induction a as [|c a IH]; intros [|d b] Hl Ha Hb Hv;
    try discriminate; [reflexivity|].
  cbn [forallb] in Ha, Hb.
  apply andb_true_iff in Ha. destruct Ha as [Hc Ha].
  apply andb_true_iff in Hb. destruct Hb as [Hd Hb].
  injection Hl as Hl. rewrite !digits_value_cons, Hl in Hv.
  pose proof (digits_value_lt a Ha) as La.
  pose proof (digits_value_lt b Hb) as Lb. rewrite Hl in La.
  unfold is_digit in Hc, Hd.
  apply andb_true_iff in Hc. destruct Hc as [C1 C2].
  apply andb_true_iff in Hd. destruct Hd as [D1 D2].
  apply N.leb_le in C1. apply N.leb_le in C2.
  apply N.leb_le in D1. apply N.leb_le in D2.
  set (P := (10 ^ N.of_nat (length b))%N) in *.
  assert (Hcd : c = d) by nia. subst d.
  assert (Hv' : digits_value a = digits_value b) by nia.
  rewrite (IH b Hl Ha Hb Hv'). reflexivity.
Qed.

Lemma digits_value_ge (c : code_unit) (s : jstring) :
  is_digit c = true -> c <> 48%N ->
  (10 ^ N.of_nat (length s) <= digits_value (c :: s))%N.
Proof.
  intros Hc Hn. rewrite digits_value_cons.
  unfold is_digit in Hc. apply andb_true_iff in Hc. destruct Hc as [H1 H2].
  apply N.leb_le in H1.
  set (P := (10 ^ N.of_nat (length s))%N). nia.
Qed.

(** An array index has one spelling. *)
Lemma array_index_inj (k1 k2 : jstring) (i : N) :
  array_index k1 = Some i -> array_index k2 = Some i -> k1 = k2.
Proof.
  assert (Hcanon : forall k j,
            array_index k = Some j ->
            exists c r, k = c :: r /\ forallb is_digit k = true
                        /\ ((c <> 48%N) \/ r = []) /\ j = digits_value k).
  { intros [|c r] j; [discriminate|]. unfold array_index.
    destruct (forallb is_digit (c :: r)) eqn:Ed; [|discriminate].
    destruct (negb (c =? 48)%N || match r with [] => true | _ => false end)
      eqn:Ec; [|discriminate].
    destruct (digits_value (c :: r) <? 4294967295)%N; [|discriminate].
    cbn [andb]. intros H. injection H as <-.
    exists c, r. repeat split.
    apply orb_true_iff in Ec. destruct Ec as [Ec | Ec].
    - left. apply negb_true_iff, N.eqb_neq in Ec. exact Ec.
    - right. destruct r; [reflexivity | discriminate]. }
  intros H1 H2.
  destruct (Hcanon _ _ H1) as (c1 & r1 & -> & D1 & C1 & V1).
  destruct (Hcanon _ _ H2) as (c2 & r2 & -> & D2 & C2 & V2).
  assert (Hd1 : is_digit c1 = true)
    by (cbn [forallb] in D1; apply andb_true_iff in D1; tauto).
  assert (Hd2 : is_digit c2 = true)
    by (cbn [forallb] in D2; apply andb_true_iff in D2; tauto).
  assert (Hv : digits_value (c1 :: r1) = digits_value (c2 :: r2))
    by congruence.
  assert (Hlen : length r1 = length r2).
  { pose proof (digits_value_lt _ D1) as L1.
    pose proof (digits_value_lt _ D2) as L2.
    cbn [length] in L1, L2.
    destruct (N.eq_dec c1 48) as [Z1 | N1], (N.eq_dec c2 48) as [Z2 | N2].
    - destruct C1 as [C1 | ->]; [contradiction|].
      destruct C2 as [C2 | ->]; [contradiction|]. reflexivity.
    - destruct C1 as [C1 | ->]; [contradiction|]. subst c1.
      pose proof (digits_value_ge r2 Hd2 N2) as G2.
      rewrite <- Hv in G2. change (digits_value [48%N]) with 0%N in G2.
      pose proof (N.pow_nonzero 10 (N.of_nat (length r2))). lia.
    - destruct C2 as [C2 | ->]; [contradiction|]. subst c2.
      pose proof (digits_value_ge r1 Hd1 N1) as G1.
      rewrite Hv in G1. change (digits_value [48%N]) with 0%N in G1.
      pose proof (N.pow_nonzero 10 (N.of_nat (length r1))). lia.
    - pose proof (digits_value_ge r1 Hd1 N1) as G1.
      pose proof (digits_value_ge r2 Hd2 N2) as G2.
      rewrite Hv in L1, G1.
      destruct (Nat.lt_trichotomy (length r1) (length r2)) as [Lt | [E | Lt]];
        [|exact E|].
      + assert (10 ^ N.of_nat (S (length r1)) <= 10 ^ N.of_nat (length r2))%N
          by (apply N.pow_le_mono_r; lia).
        lia.
      + assert (10 ^ N.of_nat (S (length r2)) <= 10 ^ N.of_nat (length r1))%N
          by (apply N.pow_le_mono_r; lia).
        lia. }
  apply digits_same_length; try assumption. cbn [length]. lia.
Qed.

(* ================================================================== *)
(** * What [updateJsonAtPath] leaves alone *)

Lemma entry_of_put_existing (container : value) (k : jstring) (c v : value) :
  entry_of container k = Some c ->
  entry_of (put container k v) k = Some v.
Proof.
  destruct container as [| | | |items|ps]; try discriminate; simpl.
  - destruct (array_index k) as [i|] eqn:E; [|discriminate].
    intros _. simpl. rewrite E. apply nth_error_set_index_same.
  - intros _. apply own_get_set.
Qed.

Lemma entry_of_put_other (container : value) (k k' : jstring) (c v : value) :
  k' <> k ->
  entry_of container k' = Some c ->
  entry_of (put container k v) k' = Some c.
Proof.
  intros Hn. destruct container as [| | | |items|ps]; try discriminate; simpl.
  - destruct (array_index k') as [j|] eqn:Ej; [|discriminate].
    destruct (array_index k) as [i|] eqn:Ei; simpl; rewrite Ej; [|auto].
    intros H. apply nth_error_set_index_other; [|exact H].
    intros E. apply N2Nat.inj in E. subst j.
    apply Hn. eapply array_index_inj; eassumption.
  - rewrite own_get_set_other by exact Hn. auto.
Qed.

Lemma update_along_put (current : value) (key : segment) (p : Path)
  (v : value) :
  exists x,
    update_along current (key :: p) v = put current (property_key key) x.
Proof. destruct p; eexists; reflexivity. Qed.

Lemma update_along_frame (v : value) (p q : Path) :
  part_ways p q ->
  forall current w,
    get_at current q = Some w ->
    get_at (update_along current p v) q = Some w.
Proof.
  induction 1 as [k1 k2 p q Hne | k1 k2 p q Heq Hpw IH]; intros current w Hg;
    cbn [get_at] in Hg |- *;
    destruct (entry_of current (property_key k2)) as [c|] eqn:Ec;
    try discriminate.
  - destruct (update_along_put current k1 p v) as [x ->].
    rewrite (@entry_of_put_other current (property_key k1) (property_key k2)
               c x (not_eq_sym Hne) Ec).
    exact Hg.
  - rewrite <- Heq in Ec |- *.
    destruct p as [|next rest]; [inversion Hpw|].
    change (update_along current (k1 :: next :: rest) v)
      with (put current (property_key k1)
              (update_along
                 (match entry_of current (property_key k1) with
                  | Some c => c
                  | None => created next
                  end) (next :: rest) v)).
    rewrite Ec.
    rewrite (@entry_of_put_existing current (property_key k1) c _ Ec).
    apply IH, Hg.
Qed.

(* ================================================================== *)
(** * Writing an element of an array, a field of an object *)

Lemma set_index_spelled (items : list value) (i : nat) (v : value) :
  set_index items i v
  = firstn i items ++ repeat VNull (i - length items) ++ v :: skipn (S i) items.
Proof.
  revert items; induction i as [|i IH]; intros [|x items]; simpl;
    try reflexivity.
  - rewrite IH. simpl. rewrite Nat.sub_0_r. destruct i; reflexivity.
  - rewrite IH. reflexivity.
Qed.

(** X11.  Writing an element of an array that is the whole document: the
    elements before the index stay, a gap up to the index is filled with
    [null], the element at the index is the new value, and the elements
    after it stay.  The result is the serialisation of that array, and the
    text as it was given when [JSON.stringify] raises on it. *)
Theorem updateJsonAtPath_array_element (h : Host) (json : jstring)
  (items : list value) (key : segment) (i : N) (newValue : jstring) :
  JSON_parse json = Some (VArr items) ->
  array_index (property_key key) = Some i ->
  let d :=
    VArr (firstn (N.to_nat i) items
          ++ repeat VNull (N.to_nat i - length items)
          ++ parse_or_raw newValue :: skipn (S (N.to_nat i)) items) in
  updateJsonAtPath h json (Some [key]) newValue
  = if stringify_raises h d then json else JSON_stringify d.
Proof.
  intros Hj Hi d. unfold updateJsonAtPath, updateJsonAtPath_body. rewrite Hj.
  cbn [descend bind assign]. rewrite Hi. cbn [bind plug].
  rewrite set_index_spelled. fold d. unfold stringify.
  destruct (stringify_raises h d); reflexivity.
Qed.

Lemma updateJsonAtPath_array_element_witness :
  let d :=
    VArr (firstn (N.to_nat 3) [VNum (of_N 1)]
          ++ repeat VNull (N.to_nat 3 - length [VNum (of_N 1)])
          ++ parse_or_raw (lit "5") :: skipn (S (N.to_nat 3)) [VNum (of_N 1)])
  in
  updateJsonAtPath bare_host (jsn "[1]") (Some [SIndex (of_N 3)]) (lit "5")
  = if stringify_raises bare_host d then jsn "[1]" else JSON_stringify d.
Proof.
  apply (@updateJsonAtPath_array_element bare_host (jsn "[1]")
           [VNum (of_N 1)] (SIndex (of_N 3)) 3%N (lit "5")); reflexivity.
Defined.

Lemma keys_own_replace (ps : props) (k : jstring) (v : value) :
  keys (own_replace ps k v) = keys ps.
Proof.
  unfold keys. induction ps as [|[k0 v0] ps IH]; simpl; [reflexivity|].
  destruct (jstring_eqb k0 k); simpl; congruence.
Qed.

(** X12.  Writing a field the document object already has keeps the fields
    in their order: the keys are the same, in the same order, the field
    holds the new value, and every other field holds what it held.  The
    result is the serialisation of that object, and the text as it was
    given when [JSON.stringify] raises on it. *)
Theorem updateJsonAtPath_existing_field (h : Host) (json : jstring)
  (ps : props) (k : jstring) (newValue : jstring) :
  JSON_parse json = Some (VObj ps) ->
  has_own ps k = true ->
  exists ps',
    updateJsonAtPath h json (Some [SKey k]) newValue
    = (if stringify_raises h (VObj ps') then json
       else JSON_stringify (VObj ps'))
    /\ keys ps' = keys ps
    /\ own_get ps' k = Some (parse_or_raw newValue)
    /\ forall k', k' <> k -> own_get ps' k' = own_get ps k'.
Proof.
  intros Hj Ho. exists (own_replace ps k (parse_or_raw newValue)).
  split; [|split; [|split]].
  - unfold updateJsonAtPath, updateJsonAtPath_body. rewrite Hj.
    cbn [descend bind assign property_key segment_text].
    rewrite Ho, andb_false_r. cbn [bind plug]. unfold own_set. rewrite Ho.
    unfold stringify. destruct (stringify_raises h _); reflexivity.
  - apply keys_own_replace.
  - apply own_get_replace, Ho.
  - intros k' Hn. apply own_get_replace_other, Hn.
Qed.

Lemma updateJsonAtPath_existing_field_witness :
  exists ps',
    updateJsonAtPath bare_host (jsn "{'a':1,'b':2}") (Some [SKey (lit "a")])
                     (lit "7")
    = (if stringify_raises bare_host (VObj ps') then jsn "{'a':1,'b':2}"
       else JSON_stringify (VObj ps'))
    /\ keys ps' = keys [(lit "a", VNum (of_N 1)); (lit "b", VNum (of_N 2))]
    /\ own_get ps' (lit "a") = Some (parse_or_raw (lit "7"))
    /\ forall k', k' <> lit "a" ->
                  own_get ps' k'
                  = own_get [(lit "a", VNum (of_N 1)); (lit "b", VNum (of_N 2))]
                            k'.
Proof.
  apply (@updateJsonAtPath_existing_field bare_host (jsn "{'a':1,'b':2}")
           [(lit "a", VNum (of_N 1)); (lit "b", VNum (of_N 2))]
           (lit "a") (lit "7")); reflexivity.
Defined.

(** X13.  Writing a field the document object does not have, under a key
    that is neither an array index nor [__proto__], adds it after all the
    fields there are.  The result is the serialisation of that object, and
    the text as it was given when [JSON.stringify] raises on it. *)
Theorem updateJsonAtPath_new_field (h : Host) (json : jstring)
  (ps : props) (k : jstring) (newValue : jstring) :
  JSON_parse json = Some (VObj ps) ->
  has_own ps k = false ->
  array_index k = None ->
  k <> proto_key ->
  let d := VObj (ps ++ [(k, parse_or_raw newValue)]) in
  updateJsonAtPath h json (Some [SKey k]) newValue
  = if stringify_raises h d then json else JSON_stringify d.
Proof.
  intros Hj Ho Hi Hp d. unfold updateJsonAtPath, updateJsonAtPath_body.
  rewrite Hj. cbn [descend bind assign property_key segment_text].
  apply jstring_eqb_neq in Hp. rewrite Hp. cbn [andb bind plug].
  unfold own_set, own_insert. rewrite Ho, Hi. fold d. unfold stringify.
  destruct (stringify_raises h d); reflexivity.
Qed.

Lemma updateJsonAtPath_new_field_witness :
  let d :=
    VObj ([(lit "b", VNum (of_N 1))] ++ [(lit "a", parse_or_raw (lit "2"))]) in
  updateJsonAtPath bare_host (jsn "{'b':1}") (Some [SKey (lit "a")]) (lit "2")
  = if stringify_raises bare_host d then jsn "{'b':1}" else JSON_stringify d.
Proof.
  apply (@updateJsonAtPath_new_field bare_host (jsn "{'b':1}")
           [(lit "b", VNum (of_N 1))] (lit "a") (lit "2"));
    try reflexivity.
  discriminate.
Defined.

(* ================================================================== *)
(** * Numbers read back *)

Lemma uint_chars_acc (u : Decimal.uint) (acc : positive) :
  fold_left (fun a c => (10 * a + (c - 48))%N) (uint_chars u) (N.pos acc)
  = N.pos (Pos.of_uint_acc u acc).
Proof.
  revert acc.
  induction u as [|u IH|u IH|u IH|u IH|u IH|u IH|u IH|u IH|u IH|u IH];
    intros acc; cbn [uint_chars fold_left Pos.of_uint_acc];
    [reflexivity|..];
    rewrite <- IH; f_equal; lia.
Qed.

Lemma uint_chars_value (u : Decimal.uint) :
  digits_value (uint_chars u) = N.of_uint u.
Proof.
  unfold digits_value, N.of_uint.
  induction u as [|u IH|u IH|u IH|u IH|u IH|u IH|u IH|u IH|u IH|u IH];
    cbn [uint_chars fold_left Pos.of_uint];
    [reflexivity | exact IH |..];
    match goal with
    | |- fold_left _ _ ?a = _ =>
        let p := eval cbv in a in change a with p
    end;
    apply uint_chars_acc.
Qed.

Lemma decimal_value (n : N) : digits_value (decimal n) = n.
Proof. unfold decimal. rewrite uint_chars_value. apply DecimalN.Unsigned.of_to. Qed.

Lemma digits_Z_chars (eds : list N) :
  digits_Z (map dig eds) = Z.of_N (digits_value (digit_chars eds)).
Proof.
  unfold digits_Z, digits_value, digit_chars. f_equal.
  generalize 0%N. induction eds as [|d eds IH]; intros acc; simpl;
    [reflexivity|].
  rewrite digit_char_value. apply IH.
Qed.

Lemma parse_exponent_value (ex : option (bool * list N)) (rest : jstring) :
  follows rest ->
  match ex with Some (_, eds) => eds <> [] | None => True end ->
  parse_exponent (exponent_text ex ++ rest) = Some (exponent_value ex, rest).
Proof.
  intros Hf He. destruct ex as [[neg eds]|].
  - unfold exponent_text, exponent_value.
    destruct eds as [|d eds]; [congruence|].
    destruct neg; simpl app; unfold parse_exponent;
      change (101 =? 101)%N with true; cbv iota beta;
      change (orb true _) with true; cbv iota.
    + change (45 =? 45)%N with true. cbv iota.
      change (digit_char d :: digit_chars eds ++ rest)
        with (digit_chars (d :: eds) ++ rest).
      rewrite span_digits_chars by (apply follows_stops, Hf).
      reflexivity.
    + change (43 =? 45)%N with false. change (43 =? 43)%N with true.
      cbv iota.
      change (digit_char d :: digit_chars eds ++ rest)
        with (digit_chars (d :: eds) ++ rest).
      rewrite span_digits_chars by (apply follows_stops, Hf).
      reflexivity.
  - simpl. destruct Hf as [-> | [r [-> | ->]]]; reflexivity.
Qed.

Lemma parse_unsigned_value (neg : bool) (d : N) (ip fp : list N)
  (ex : option (bool * list N)) (rest : jstring) :
  dig d <> 0%N \/ ip = [] ->
  match ex with Some (_, eds) => eds <> [] | None => True end ->
  follows rest ->
  parse_unsigned neg
    (digit_chars (d :: ip) ++ fraction_text fp ++ exponent_text ex ++ rest)
  = Some (canon (mkNumber neg (map dig (d :: ip) ++ map dig fp)
                          (Z.of_nat (length (d :: ip)) + exponent_value ex)),
          rest).
Proof.
  intros Hd He Hf. unfold parse_unsigned.
  destruct (exponent_text_head ex Hf) as [Hs Hp].
  rewrite span_digits_chars.
  2:{ destruct fp; [exact Hs | reflexivity]. }
  simpl map.
  assert (Hz : (dig d =? 0)%N
               && negb match map dig ip with [] => true | _ => false end
               = false).
  { destruct Hd as [Hd | ->]; [|apply andb_false_r].
    apply N.eqb_neq in Hd. rewrite Hd. reflexivity. }
  cbv iota beta. rewrite Hz. rewrite parse_fraction_text by assumption.
  rewrite parse_exponent_value by assumption.
  cbn [length]. rewrite length_map. reflexivity.
Qed.

(** Digits below ten are their own residues. *)
Lemma map_dig_small (ds : list N) :
  forallb (fun d => (d <? 10)%N) ds = true -> map dig ds = ds.
Proof.
  induction ds as [|d ds IH]; simpl; [reflexivity|].
  intros H. apply andb_true_iff in H. destruct H as [H1 H2].
  apply N.ltb_lt in H1. rewrite IH by assumption.
  unfold dig. rewrite N.mod_small by assumption. reflexivity.
Qed.

Lemma drop_zeros_zeros (m : nat) (ds : list N) :
  drop_zeros (repeat 0%N m ++ ds) = drop_zeros ds.
Proof. induction m as [|m IH]; simpl; [reflexivity | exact IH]. Qed.

Lemma drop_zeros_keep (d : N) (ds : list N) :
  dig d <> 0%N -> drop_zeros (d :: ds) = d :: ds.
Proof. intros H. simpl. apply N.eqb_neq in H. rewrite H. reflexivity. Qed.

Lemma rev_repeat (A : Type) (a : A) (m : nat) : rev (repeat a m) = repeat a m.
Proof.
  induction m as [|m IH]; simpl; [reflexivity|].
  rewrite IH. clear IH. induction m as [|m IH]; simpl; [reflexivity|].
  rewrite IH. reflexivity.
Qed.

(** The digits of a canonical number that is not zero. *)
Lemma canonical_digits (x : number) (d : N) (r : list N) :
  canonical_number x = true ->
  ndigits x = d :: r ->
  map dig (d :: r) = d :: r
  /\ dig d <> 0%N
  /\ exists l t, rev (d :: r) = l :: t /\ dig l <> 0%N.
Proof.
  unfold canonical_number. intros H E. rewrite E in H.
  apply andb_true_iff in H. destruct H as [Hs H].
  apply andb_true_iff in H. destruct H as [Hd Hl].
  pose proof (@map_dig_small _ Hs) as Hm. split; [exact Hm|].
  apply negb_true_iff, N.eqb_neq in Hd.
  apply negb_true_iff, N.eqb_neq in Hl.
  injection Hm as Hm1 Hm2.
  split; [rewrite Hm1; exact Hd|].
  destruct (exists_last (l := d :: r)) as [t [l Et]]; [discriminate|].
  exists l, (rev t). rewrite Et, rev_app_distr. split; [reflexivity|].
  rewrite Et, last_last in Hl.
  assert (Hin : In l (d :: r)) by (rewrite Et; apply in_or_app; right; left; reflexivity).
  rewrite forallb_forall in Hs. apply Hs, N.ltb_lt in Hin.
  unfold dig. rewrite N.mod_small by assumption. exact Hl.
Qed.

(** Zeros written before and after the digits do not change the number. *)
Lemma canon_padded (x : number) (d : N) (r : list N) (a b : nat) (e : Z) :
  canonical_number x = true ->
  ndigits x = d :: r ->
  e = (nexp x + Z.of_nat a)%Z ->
  canon (mkNumber (nneg x) (repeat 0%N a ++ (d :: r) ++ repeat 0%N b) e) = x.
Proof.
  intros H E ->.
  destruct (@canonical_digits x d r H E) as (_ & Hd & l & t & Er & Hl).
  unfold canon. cbn [ndigits nneg nexp].
  rewrite drop_zeros_zeros.
  change ((d :: r) ++ repeat 0%N b) with (d :: r ++ repeat 0%N b).
  rewrite drop_zeros_keep by exact Hd.
  change (d :: r ++ repeat 0%N b) with ((d :: r) ++ repeat 0%N b).
  rewrite rev_app_distr, rev_repeat, drop_zeros_zeros, Er.
  rewrite drop_zeros_keep by exact Hl. rewrite <- Er, rev_involutive.
  rewrite !length_app, repeat_length.
  destruct x as [sg ds ex]. cbn [ndigits nneg nexp] in *. subst ds.
  f_equal. lia.
Qed.

Lemma canon_canonical (x : number) :
  canonical_number x = true -> canon x = x.
Proof.
  intros H. destruct (ndigits x) as [|d r] eqn:E.
  - unfold canonical_number in H. rewrite E in H. simpl in H.
    apply andb_true_iff in H. destruct H as [Hn He].
    apply negb_true_iff in Hn. apply Z.eqb_eq in He.
    destruct x as [sg ds ex]. simpl in *. subst. reflexivity.
  - pose proof (@canon_padded x d r 0 0 (nexp x) H E) as P.
    simpl in P. rewrite app_nil_r, <- E in P.
    destruct x as [sg ds ex]. simpl in *. apply P. lia.
Qed.

(** The text of a canonical number, read as the parser reads it, gives the
    number back. *)
Lemma Number_toString_reads (x : number) :
  canonical_number x = true ->
  exists (sg : bool) (d : N) (ip fp : list N) (ex : option (bool * list N)),
    Number_toString x
    = (if sg then [45%N] else [])
      ++ digit_chars (d :: ip) ++ fraction_text fp ++ exponent_text ex
    /\ (dig d <> 0%N \/ ip = [])
    /\ match ex with Some (_, eds) => eds <> [] | None => True end
    /\ canon (mkNumber sg (map dig (d :: ip) ++ map dig fp)
                       (Z.of_nat (length (d :: ip)) + exponent_value ex)) = x.
Proof.
  intros Hc. unfold Number_toString. rewrite (@canon_canonical x Hc).
  destruct (ndigits x) as [|d1 r] eqn:E.
  - exists false, 0%N, [], [], None. repeat split; auto.
    unfold canonical_number in Hc. rewrite E in Hc. simpl in Hc.
    apply andb_true_iff in Hc. destruct Hc as [Hn He].
    apply negb_true_iff in Hn. apply Z.eqb_eq in He.
    destruct x as [sg ds ex]. simpl in *. subst. reflexivity.
  - destruct (@canonical_digits x d1 r Hc E) as (Hm & Hd & _).
    set (k := Z.of_nat (length (d1 :: r))).
    set (n := nexp x).
    exists (nneg x).
    destruct ((k <=? n)%Z && (n <=? 21)%Z) eqn:C1;
      [|destruct ((0 <? n)%Z && (n <=? 21)%Z) eqn:C2;
        [|destruct ((-6 <? n)%Z && (n <=? 0)%Z) eqn:C3]].
    + exists d1, (r ++ repeat 0%N (Z.to_nat (n - k))), [], None.
      apply andb_true_iff in C1. destruct C1 as [C1 _]. apply Z.leb_le in C1.
      split; [|split; [auto | split; [exact I|]]].
      * f_equal.
        simpl fraction_text. simpl exponent_text. rewrite !app_nil_r.
        rewrite zeros_chars. unfold digit_chars.
        change (d1 :: r ++ repeat 0%N (Z.to_nat (n - k)))
          with ((d1 :: r) ++ repeat 0%N (Z.to_nat (n - k))).
        rewrite map_app. reflexivity.
      * change (d1 :: r ++ repeat 0%N (Z.to_nat (n - k)))
          with ((d1 :: r) ++ repeat 0%N (Z.to_nat (n - k))).
        rewrite map_app, Hm, app_nil_r.
        assert (Hz : map dig (repeat 0%N (Z.to_nat (n - k)))
                     = repeat 0%N (Z.to_nat (n - k))).
        { rewrite map_repeat. reflexivity. }
        rewrite Hz.
        pose proof (@canon_padded x d1 r 0 (Z.to_nat (n - k))) as P.
        cbn [repeat app] in P. apply P; [assumption | assumption |].
        rewrite length_app, repeat_length. cbn [exponent_value].
        fold n. unfold k in *. lia.
    + apply andb_true_iff in C2. destruct C2 as [C2 C2'].
      apply Z.ltb_lt in C2. apply Z.leb_le in C2'.
      assert (Hlt : (n < k)%Z).
      { destruct (k <=? n)%Z eqn:C; [|apply Z.leb_gt, C].
        simpl in C1. apply Z.leb_gt in C1. lia. }
      destruct (Z.to_nat n) as [|m] eqn:Em; [lia|].
      exists d1, (firstn m r), (skipn m r), None.
      split; [|split; [auto | split; [exact I|]]].
      * f_equal.
        simpl firstn. simpl skipn. simpl exponent_text. rewrite app_nil_r.
        assert (Hne : skipn m r <> []).
        { intros H. apply (f_equal (@length N)) in H.
          rewrite length_skipn in H. simpl in H. unfold k in Hlt.
          simpl length in Hlt. lia. }
        unfold fraction_text. destruct (skipn m r); [congruence|]. reflexivity.
      * rewrite <- map_app.
        change ((d1 :: firstn m r) ++ skipn m r)
          with (d1 :: firstn m r ++ skipn m r).
        rewrite firstn_skipn, Hm.
        pose proof (@canon_padded x d1 r 0 0) as P.
        cbn [repeat app] in P. rewrite app_nil_r in P.
        apply P; [assumption | assumption |].
        cbn [exponent_value length]. unfold k in Hlt. cbn [length] in Hlt.
        assert (m < length r)%nat by lia.
        rewrite length_firstn. fold n. lia.
    + apply andb_true_iff in C3. destruct C3 as [C3 C3'].
      apply Z.ltb_lt in C3. apply Z.leb_le in C3'.
      exists 0%N, [], (repeat 0%N (Z.to_nat (- n)) ++ d1 :: r), None.
      split; [|split; [auto | split; [exact I|]]].
      * f_equal.
        simpl exponent_text. rewrite app_nil_r.
        unfold fraction_text.
        destruct (repeat 0%N (Z.to_nat (- n)) ++ d1 :: r) eqn:Ef.
        { destruct (repeat 0%N (Z.to_nat (- n))); discriminate. }
        rewrite <- Ef. unfold digit_chars at 3. rewrite map_app.
        fold (digit_chars (repeat 0%N (Z.to_nat (- n)))).
        rewrite <- zeros_chars. reflexivity.
      * rewrite map_app, Hm, map_repeat.
        change (map dig [0%N]) with [0%N]. change (dig 0) with 0%N.
        change ([0%N] ++ repeat 0%N (Z.to_nat (- n)) ++ d1 :: r)
          with (repeat 0%N (S (Z.to_nat (- n))) ++ d1 :: r).
        pose proof (@canon_padded x d1 r (S (Z.to_nat (- n))) 0) as P.
        cbn [repeat] in P. rewrite app_nil_r in P.
        apply P; [assumption | assumption |].
        cbn [exponent_value length]. fold n. lia.
    + destruct (decimal_digits (Z.to_N (Z.abs (n - 1)))) as [eds [Ed Hn]].
      exists d1, [], r, (Some ((n - 1 <? 0)%Z, eds)).
      split; [|split; [auto | split; [exact Hn|]]].
      * f_equal. cbv zeta. rewrite Ed.
        destruct r as [|d2 r]; reflexivity.
      * change (map dig [d1] ++ map dig r) with (map dig (d1 :: r)).
        rewrite Hm.
        pose proof (@canon_padded x d1 r 0 0) as P.
        cbn [repeat app] in P. rewrite app_nil_r in P.
        apply P; [assumption | assumption |].
        cbn [exponent_value length].
        rewrite digits_Z_chars, <- Ed, decimal_value. fold n.
        destruct (n - 1 <? 0)%Z eqn:Cn;
          [apply Z.ltb_lt in Cn | apply Z.ltb_ge in Cn]; lia.
Qed.

Lemma number_reads (x : number) (rest : jstring) :
  canonical_number x = true ->
  follows rest ->
  parse_number (Number_toString x ++ rest) = Some (x, rest).
Proof.
  intros Hc Hf.
  destruct (@Number_toString_reads x Hc)
    as (sg & d & ip & fp & ex & -> & Hd & He & Hx).
  pose proof (@parse_unsigned_value sg d ip fp ex rest Hd He Hf) as Hn.
  rewrite Hx in Hn.
  unfold parse_number.
  rewrite <- !app_assoc.
  destruct sg.
  - simpl. exact Hn.
  - change (digit_chars (d :: ip)) with (digit_char d :: digit_chars ip) in *.
    cbn [app] in *. rewrite parse_sign_digit. exact Hn.
Qed.

(* ================================================================== *)
(** * Strings read back *)

Lemma hex4_digits (c : code_unit) :
  (c < 65536)%N ->
  hex4 (hex_digit ((c / 4096) mod 16)) (hex_digit ((c / 256) mod 16))
       (hex_digit ((c / 16) mod 16)) (hex_digit (c mod 16)) = Some c.
Proof.
  intros Hc.
  assert (H16 : forall x, (x mod 16 < 16)%N)
    by (intros x; apply N.mod_upper_bound; discriminate).
  unfold hex4. rewrite !hex_value_hex_digit by apply H16. f_equal.
  assert (E2 : (c / 256 = c / 16 / 16)%N)
    by (rewrite N.Div0.div_div; reflexivity).
  assert (E3 : (c / 4096 = c / 16 / 16 / 16)%N)
    by (rewrite !N.Div0.div_div; reflexivity).
  rewrite E2, E3.
  pose proof (N.div_mod c 16) as D1.
  pose proof (N.div_mod (c / 16) 16) as D2.
  pose proof (N.div_mod (c / 16 / 16) 16) as D3.
  pose proof (N.div_mod (c / 16 / 16 / 16) 16) as D4.
  pose proof (H16 c) as B1. pose proof (H16 (c / 16)%N) as B2.
  pose proof (H16 (c / 16 / 16)%N) as B3.
  pose proof (H16 (c / 16 / 16 / 16)%N) as B4.
  clear H16 E2 E3.
  generalize dependent (c / 16 / 16 / 16 / 16)%N.
  generalize dependent ((c / 16 / 16 / 16) mod 16)%N.
  generalize dependent (c / 16 / 16 / 16)%N.
  generalize dependent ((c / 16 / 16) mod 16)%N.
  generalize dependent (c / 16 / 16)%N.
  generalize dependent ((c / 16) mod 16)%N.
  generalize dependent (c / 16)%N.
  generalize dependent (c mod 16)%N.
  intros. lia.
Qed.

Lemma unicode_escape_reads (c : code_unit) (t : jstring) :
  (c < 65536)%N ->
  parse_string_chars (unicode_escape c ++ t)
  = cons_fst c (parse_string_chars t).
Proof.
  intros Hc. unfold unicode_escape. cbn [app].
  rewrite parse_string_chars_unicode, hex4_digits by assumption.
  reflexivity.
Qed.

Lemma surrogate_small (c : code_unit) :
  is_high_surrogate c = true \/ is_low_surrogate c = true -> (c < 65536)%N.
Proof.
  unfold is_high_surrogate, is_low_surrogate.
  intros [H | H]; apply andb_true_iff in H; destruct H as [_ H];
    apply N.leb_le in H; lia.
Qed.

Ltac short_read E Ht :=
  apply N.eqb_eq in E; subst; cbn [app]; simpl; rewrite Ht; reflexivity.
Ltac long_read Ht :=
  rewrite <- app_assoc, unicode_escape_reads, Ht; [reflexivity|].

Lemma quoted_reads_bounded (n : nat) :
  forall s rest,
    length s <= n ->
    parse_string_chars (quote_chars s ++ 34%N :: rest) = Some (s, rest).
Proof.
  induction n as [|n IH]; intros s rest Hl.
  - destruct s; [|simpl in Hl; lia]. reflexivity.
  - destruct s as [|c t]; [reflexivity|]. simpl in Hl.
    assert (Ht : parse_string_chars (quote_chars t ++ 34%N :: rest)
                 = Some (t, rest)) by (apply IH; lia).
    rewrite quote_chars_cons.
    destruct (c =? 8)%N eqn:E8; [short_read E8 Ht|].
    destruct (c =? 9)%N eqn:E9; [short_read E9 Ht|].
    destruct (c =? 10)%N eqn:E10; [short_read E10 Ht|].
    destruct (c =? 12)%N eqn:E12; [short_read E12 Ht|].
    destruct (c =? 13)%N eqn:E13; [short_read E13 Ht|].
    destruct (c =? 34)%N eqn:E34; [short_read E34 Ht|].
    destruct (c =? 92)%N eqn:E92; [short_read E92 Ht|].
    destruct (c <? 32)%N eqn:E32.
    { long_read Ht. apply N.ltb_lt in E32. lia. }
    destruct (is_high_surrogate c) eqn:Eh.
    { assert (Hc : (c < 65536)%N) by (apply surrogate_small; auto).
      destruct t as [|lo t'].
      - rewrite unicode_escape_reads by assumption. reflexivity.
      - destruct (is_low_surrogate lo) eqn:Elo.
        + destruct (low_surrogate_raw lo Elo) as (L1 & L2 & L3).
          assert (Ht' : parse_string_chars (quote_chars t' ++ 34%N :: rest)
                        = Some (t', rest))
            by (apply IH; simpl in Hl; lia).
          cbn [app]. rewrite parse_string_chars_raw by assumption.
          rewrite parse_string_chars_raw by assumption.
          rewrite Ht'. reflexivity.
        + long_read Ht. assumption. }
    destruct (is_low_surrogate c) eqn:El.
    { long_read Ht. apply surrogate_small; auto. }
    cbn [app]. rewrite parse_string_chars_raw by assumption.
    rewrite Ht. reflexivity.
Qed.

Lemma quoted_reads (s rest : jstring) :
  parse_string_chars (quote_chars s ++ 34%N :: rest) = Some (s, rest).
Proof. apply (@quoted_reads_bounded (length s)). lia. Qed.

(* ================================================================== *)
(** * Values read back *)

Lemma keys_app (a b : props) : keys (a ++ b) = keys a ++ keys b.
Proof. apply map_app. Qed.

Lemma ordered_not_own (acc : props) (k : jstring) (r : list jstring) :
  keys_ordered (keys acc ++ k :: r) = true -> has_own acc k = false.
Proof.
  unfold has_own. induction acc as [|[a va] acc IH]; [reflexivity|].
  cbn [keys map app keys_ordered fst own_get]. intros H.
  apply andb_true_iff in H. destruct H as [Ha Ho].
  rewrite forallb_app in Ha. apply andb_true_iff in Ha.
  destruct Ha as [_ Ha]. cbn [forallb] in Ha.
  apply andb_true_iff in Ha. destruct Ha as [Ha _].
  unfold may_follow in Ha. apply andb_true_iff in Ha. destruct Ha as [Ha _].
  apply negb_true_iff in Ha. rewrite Ha. apply IH, Ho.
Qed.

Lemma ordered_insert_index (acc : props) (k : jstring) (i : N) (v : value)
  (r : list jstring) :
  keys_ordered (keys acc ++ k :: r) = true ->
  array_index k = Some i ->
  own_insert_index acc i k v = acc ++ [(k, v)].
Proof.
  intros H Hi. induction acc as [|[a va] acc IH]; [reflexivity|].
  cbn [keys map app keys_ordered fst] in H.
  apply andb_true_iff in H. destruct H as [Ha Ho].
  rewrite forallb_app in Ha. apply andb_true_iff in Ha.
  destruct Ha as [_ Ha]. cbn [forallb] in Ha.
  apply andb_true_iff in Ha. destruct Ha as [Ha _].
  unfold may_follow in Ha. apply andb_true_iff in Ha. destruct Ha as [_ Ha].
  rewrite Hi in Ha. cbn [own_insert_index app].
  destruct (array_index a) as [j|]; [|discriminate].
  rewrite Ha, (IH Ho). reflexivity.
Qed.

Lemma ordered_set (acc : props) (k : jstring) (v : value) (r : list jstring) :
  keys_ordered (keys acc ++ k :: r) = true ->
  own_set acc k v = acc ++ [(k, v)].
Proof.
  intros H. unfold own_set, own_insert.
  rewrite (@ordered_not_own acc k r H).
  destruct (array_index k) as [i|] eqn:Ei; [|reflexivity].
  apply (@ordered_insert_index acc k i v r H Ei).
Qed.

Lemma ordered_fold (qs acc : props) :
  keys_ordered (keys (acc ++ qs)) = true ->
  fold_left (fun o kv => own_set o (fst kv) (snd kv)) qs acc = acc ++ qs.
Proof.
  revert acc. induction qs as [|[k v] qs IH]; intros acc H.
  - rewrite app_nil_r. reflexivity.
  - cbn [fold_left fst snd].
    rewrite (@ordered_set acc k v (keys qs)).
    + rewrite IH; rewrite <- app_assoc; [reflexivity | exact H].
    + rewrite keys_app in H. exact H.
Qed.

Lemma object_of_ordered (ps : props) :
  keys_ordered (keys ps) = true -> object_of ps = VObj ps.
Proof. intros H. unfold object_of. rewrite (@ordered_fold ps [] H). reflexivity. Qed.

Lemma value_back_step (f : nat) :
  value_back f -> elements_back f -> members_back f -> value_back (S f).
Proof.
  intros IHv IHe IHm v indent rest Hc Hl Hf.
  destruct v as [|[|]|n|s|[|x xs]|[|p ps]]; try reflexivity.
  - (* number *)
    destruct (Number_toString_head n) as (c & tl & E & Hd).
    pose proof (@number_reads n rest Hc Hf) as Hn.
    change (serialize indent (VNum n)) with (Number_toString n).
    rewrite E in *. cbn [app] in *.
    rewrite (parse_value_number f _ Hd), Hn. reflexivity.
  - (* string *)
    change (serialize indent (VStr s)) with (QuoteJSONString s).
    unfold QuoteJSONString. cbn [app]. rewrite <- app_assoc. cbn [app].
    rewrite parse_value_string, quoted_reads. reflexivity.
  - (* array *)
    rewrite serialize_array in *. cbn [app]. rewrite close_app.
    set (J := join separator (map (element_text (indent + 2)) (x :: xs))) in *.
    assert (HJ : S (length J) < f).
    { simpl length in Hl. rewrite length_app in Hl. simpl length in Hl. lia. }
    destruct (elements_text_cons (indent + 2) x xs) as [tail Et].
    fold J in Et.
    destruct (skip_ws_element (indent + 2) x (tail ++ closing indent 93%N rest))
      as (c & r & Hs & Hb).
    rewrite (@parse_value_open_array f _ c r).
    + rewrite (parse_elements_ws f _ (J ++ closing indent 93%N rest))
        by reflexivity.
      unfold J. rewrite (IHe (indent + 2) (x :: xs) indent rest);
        [reflexivity | discriminate | exact Hc | exact HJ].
    + change (skip_ws (nl :: J ++ closing indent 93%N rest))
        with (skip_ws (J ++ closing indent 93%N rest)).
      rewrite Et, <- app_assoc. exact Hs.
    + exact Hb.
  - (* object *)
    cbn [canonical] in Hc. apply andb_true_iff in Hc. destruct Hc as [Ho Hc].
    rewrite serialize_object in *. cbn [app]. rewrite close_app.
    set (J := join separator (map (member_text (indent + 2)) (p :: ps))) in *.
    assert (HJ : S (length J) < f).
    { simpl length in Hl. rewrite length_app in Hl. simpl length in Hl. lia. }
    destruct (members_text_cons (indent + 2) p ps) as [tail Et].
    fold J in Et.
    rewrite (@parse_value_open_object f _ 34%N
               (quote_chars (fst p)
                ++ 34%N :: 58%N :: 32%N :: serialize (indent + 2) (snd p)
                ++ tail ++ closing indent 125%N rest)).
    + rewrite (parse_members_ws f _ (J ++ closing indent 125%N rest))
        by reflexivity.
      unfold J. rewrite (IHm (indent + 2) (p :: ps) indent rest);
        [| discriminate | exact Hc | exact HJ].
      cbn [lift_result]. rewrite (object_of_ordered _ Ho). reflexivity.
    + change (skip_ws (nl :: J ++ closing indent 125%N rest))
        with (skip_ws (J ++ closing indent 125%N rest)).
      rewrite Et, <- app_assoc. apply skip_ws_member.
    + discriminate.
Qed.

Lemma elements_back_step (f : nat) :
  value_back f -> elements_back f -> elements_back (S f).
Proof.
  intros IHv IHe indent items ci rest Hne Hc Hl.
  destruct items as [|x xs]; [congruence|].
  cbn [forallb] in Hc. apply andb_true_iff in Hc. destruct Hc as [Hx Hxs].
  rewrite parse_elements_S.
  destruct xs as [|y ys].
  - change (join separator (map (element_text indent) [x]))
      with (element_text indent x) in *.
    unfold element_text in *. rewrite <- app_assoc.
    rewrite (parse_value_ws f _ (serialize indent x ++ closing ci 93%N rest))
      by apply skip_ws_spaces.
    rewrite (IHv x indent (closing ci 93%N rest)).
    + rewrite skip_ws_closing by reflexivity. reflexivity.
    + exact Hx.
    + rewrite length_app in Hl. lia.
    + apply follows_closing.
  - change (map (element_text indent) (x :: y :: ys))
      with (element_text indent x :: element_text indent y
            :: map (element_text indent) ys) in *.
    rewrite join_two in *.
    change (element_text indent y :: map (element_text indent) ys)
      with (map (element_text indent) (y :: ys)) in *.
    set (J := join separator (map (element_text indent) (y :: ys))) in *.
    unfold element_text at 1. rewrite <- !app_assoc.
    rewrite (parse_value_ws f _
               (serialize indent x ++ separator ++ J ++ closing ci 93%N rest))
      by apply skip_ws_spaces.
    rewrite !length_app in Hl. unfold element_text at 1 in Hl.
    rewrite length_app in Hl. simpl length in Hl.
    rewrite (IHv x indent (separator ++ J ++ closing ci 93%N rest));
      [| exact Hx | lia | right; eexists; left; reflexivity].
    cbn [separator app skip_ws is_ws]. simpl.
    rewrite (parse_elements_ws f _ (J ++ closing ci 93%N rest)) by reflexivity.
    unfold J. rewrite (IHe indent (y :: ys) ci rest);
      [reflexivity | discriminate | exact Hxs | fold J; lia].
Qed.

Lemma members_back_step (f : nat) :
  value_back f -> members_back f -> members_back (S f).
Proof.
  intros IHv IHm indent items ci rest Hne Hc Hl.
  destruct items as [|p ps]; [congruence|].
  cbn [forallb] in Hc. apply andb_true_iff in Hc. destruct Hc as [Hx Hxs].
  assert (Hp : forall tail,
            follows tail ->
            length (serialize indent (snd p)) < f ->
            parse_members (S f) (member_text indent p ++ tail)
            = match skip_ws tail with
              | [] => PErr
              | c' :: r4 =>
                  if (c' =? 44)%N then
                    lift_result (cons p) (parse_members f r4)
                  else if (c' =? 125)%N then POk [p] r4
                  else PErr
              end).
  { intros tail Hf Hlen.
    pose proof (quoted_reads (fst p)
                  (58%N :: 32%N :: serialize indent (snd p) ++ tail)) as Hk.
    rewrite (@parse_members_S f _ _ (fst p)
               (32%N :: serialize indent (snd p) ++ tail)
               (skip_ws_member indent p tail) Hk).
    rewrite (parse_value_ws f _ (serialize indent (snd p) ++ tail))
      by reflexivity.
    rewrite (IHv (snd p) indent tail Hx Hlen Hf).
    destruct p as [k v]. reflexivity. }
  destruct ps as [|y ys].
  - change (join separator (map (member_text indent) [p]))
      with (member_text indent p) in *.
    rewrite (Hp (closing ci 125%N rest)).
    + rewrite skip_ws_closing by reflexivity. reflexivity.
    + apply follows_closing.
    + unfold member_text in Hl. rewrite !length_app in Hl.
      simpl length in Hl. lia.
  - change (map (member_text indent) (p :: y :: ys))
      with (member_text indent p :: member_text indent y
            :: map (member_text indent) ys) in *.
    rewrite join_two in *.
    change (member_text indent y :: map (member_text indent) ys)
      with (map (member_text indent) (y :: ys)) in *.
    set (J := join separator (map (member_text indent) (y :: ys))) in *.
    rewrite <- !app_assoc.
    rewrite !length_app in Hl. unfold member_text at 1 in Hl.
    rewrite !length_app in Hl. simpl length in Hl.
    rewrite (Hp (separator ++ J ++ closing ci 125%N rest));
      [| right; eexists; left; reflexivity | lia].
    cbn [separator app skip_ws is_ws]. simpl.
    rewrite (parse_members_ws f _ (J ++ closing ci 125%N rest)) by reflexivity.
    unfold J. rewrite (IHm indent (y :: ys) ci rest);
      [reflexivity | discriminate | exact Hxs | fold J; lia].
Qed.

Lemma serialized_back (f : nat) :
  value_back f /\ elements_back f /\ members_back f.
Proof.
  induction f as [|f (IHv & IHe & IHm)].
  - repeat split; intro; intros; lia.
  - repeat split.
    + apply value_back_step; assumption.
    + apply elements_back_step; assumption.
    + apply members_back_step; assumption.
Qed.

(** Parsing the 2-space serialisation of a canonical value gives it back. *)
Lemma JSON_parse_stringify (v : value) :
  canonical v = true -> JSON_parse (JSON_stringify v) = Some v.
Proof.
  intros Hc. unfold JSON_parse, JSON_stringify.
  destruct (serialized_back (S (2 * length (serialize 0 v)))) as [Hv _].
  pose proof (Hv v 0 [] Hc) as E. rewrite app_nil_r in E.
  rewrite E; [reflexivity | lia | left; reflexivity].
Qed.

(* ================================================================== *)
(** * What [JSON.parse] returns is canonical *)

Lemma drop_zeros_incl (ds : list N) (x : N) :
  In x (drop_zeros ds) -> In x ds.
Proof.
  destruct (drop_zeros_suffix ds) as [p Hp]. intros H.
  rewrite Hp. apply in_or_app. right. exact H.
Qed.

Lemma dig_nonzero (d : N) : dig d <> 0%N -> (d =? 0)%N = false.
Proof. intros H. apply N.eqb_neq. intros ->. apply H. reflexivity. Qed.

Lemma canon_is_canonical (m : number) :
  small_digits (ndigits m) = true -> canonical_number (canon m) = true.
Proof.
  intros Hs. unfold canonical_number.
  destruct (ndigits (canon m)) as [|d r] eqn:E.
  - unfold canon in *.
    destruct (rev (drop_zeros (rev (drop_zeros (ndigits m))))); [reflexivity|].
    discriminate.
  - pose proof (canon_head m E) as Hd.
    rewrite (dig_nonzero _ Hd). cbn [negb andb].
    unfold canon in E.
    destruct (drop_zeros (rev (drop_zeros (ndigits m)))) as [|l t] eqn:Et;
      [discriminate|].
    assert (Er : d :: r = rev (l :: t)).
    { destruct (rev (l :: t)) eqn:Ex; [discriminate|].
      cbn [ndigits] in E. symmetry. exact E. }
    apply andb_true_iff. split.
    + apply forallb_forall. intros x Hx. rewrite Er in Hx.
      apply in_rev in Hx. rewrite <- Et in Hx.
      apply drop_zeros_incl, in_rev, drop_zeros_incl in Hx.
      unfold small_digits in Hs. rewrite forallb_forall in Hs. apply Hs, Hx.
    + rewrite Er. cbn [rev]. rewrite last_last.
      rewrite (dig_nonzero _ (@drop_zeros_head _ _ _ Et)). reflexivity.
Qed.

Lemma span_digits_small (s : jstring) :
  small_digits (fst (span_digits s)) = true.
Proof.
  induction s as [|c s IH]; [reflexivity|]. simpl.
  destruct (is_digit c) eqn:Ec; [|reflexivity].
  destruct (span_digits s) as [ds r]. simpl in *. rewrite IH.
  unfold is_digit in Ec. apply andb_true_iff in Ec. destruct Ec as [H1 H2].
  apply N.leb_le in H1. apply N.leb_le in H2.
  assert (H : (c - 48 <? 10)%N = true) by (apply N.ltb_lt; lia).
  rewrite H. reflexivity.
Qed.

Lemma parse_fraction_small (s : jstring) (fp : list N) (r : jstring) :
  parse_fraction s = Some (fp, r) -> small_digits fp = true.
Proof.
  unfold parse_fraction. destruct s as [|c s]; [intros [= <- _]; reflexivity|].
  destruct (c =? 46)%N; [|intros [= <- _]; reflexivity].
  pose proof (span_digits_small s) as H.
  destruct (span_digits s) as [[|d ds] r']; [discriminate|].
  intros [= <- _]. exact H.
Qed.

Lemma parse_number_canonical (s : jstring) (n : number) (r : jstring) :
  parse_number s = Some (n, r) -> canonical_number n = true.
Proof.
  unfold parse_number. destruct (parse_sign s) as [neg s1].
  unfold parse_unsigned.
  pose proof (span_digits_small s1) as H1.
  destruct (span_digits s1) as [[|d ip] s2]; [discriminate|].
  destruct ((d =? 0)%N && negb match ip with [] => true | _ => false end);
    [discriminate|].
  destruct (parse_fraction s2) as [[fp s3]|] eqn:Ef; [|discriminate].
  destruct (parse_exponent s3) as [[e s4]|]; [|discriminate].
  intros [= <- _]. apply canon_is_canonical. cbn [ndigits].
  change (d :: ip ++ fp) with ((d :: ip) ++ fp). unfold small_digits in *. rewrite forallb_app. cbn [fst] in H1.
  rewrite H1. apply (parse_fraction_small _ Ef).
Qed.

(** ** Own properties *)

Lemma keys_insert_index (ps : props) (i : N) (k : jstring) (v : value)
  (x : jstring) :
  In x (keys (own_insert_index ps i k v)) <-> x = k \/ In x (keys ps).
Proof.
  induction ps as [|[a va] ps IH]; cbn [own_insert_index keys map fst In].
  - intuition congruence.
  - destruct (array_index a) as [j|];
      [destruct (j <? i)%N|]; cbn [keys map fst In]; fold (keys ps);
      try (fold (keys (own_insert_index ps i k v)); rewrite IH);
      intuition congruence.
Qed.

Lemma may_follow_index (a k : jstring) (j i : N) :
  array_index a = Some j -> array_index k = Some i ->
  jstring_eqb a k = false -> (j <? i)%N = false ->
  may_follow k a = true.
Proof.
  intros Ha Hk Hne Hlt. unfold may_follow. rewrite Ha, Hk.
  assert (Hka : jstring_eqb k a = false).
  { apply jstring_eqb_neq. apply jstring_eqb_neq in Hne. congruence. }
  rewrite Hka. cbn [negb andb]. apply N.ltb_lt. apply N.ltb_ge in Hlt.
  assert (i <> j).
  { intros ->. apply jstring_eqb_neq in Hne. apply Hne.
    apply (@array_index_inj a k j); assumption. }
  lia.
Qed.

Lemma may_follow_trans_index (a k x : jstring) (j i : N) :
  array_index a = Some j -> array_index k = Some i -> (i < j)%N ->
  may_follow a x = true -> may_follow k x = true.
Proof.
  intros Ha Hk Hlt. unfold may_follow. rewrite Ha, Hk. intros H.
  apply andb_true_iff in H. destruct H as [_ H].
  destruct (array_index x) as [m|] eqn:Ex.
  - apply N.ltb_lt in H.
    assert (Hne : jstring_eqb k x = false).
    { apply jstring_eqb_neq. intros ->. rewrite Hk in Ex.
      injection Ex as ->. lia. }
    rewrite Hne. apply N.ltb_lt. lia.
  - assert (Hne : jstring_eqb k x = false).
    { apply jstring_eqb_neq. intros ->. congruence. }
    rewrite Hne. reflexivity.
Qed.

Lemma keys_ordered_insert_index (ps : props) (i : N) (k : jstring)
  (v : value) :
  array_index k = Some i ->
  has_own ps k = false ->
  keys_ordered (keys ps) = true ->
  keys_ordered (keys (own_insert_index ps i k v)) = true.
Proof.
  intros Hk. unfold has_own.
  induction ps as [|[a va] ps IH]; [reflexivity|].
  cbn [own_get keys map fst keys_ordered own_insert_index]. fold (keys ps).
  destruct (jstring_eqb a k) eqn:Eak; [discriminate|].
  intros Hn Ho. apply andb_true_iff in Ho. destruct Ho as [Ha Ho].
  destruct (array_index a) as [j|] eqn:Ea; [destruct (j <? i)%N eqn:Eji|].
  - cbn [keys map fst keys_ordered].
    fold (keys (own_insert_index ps i k v)).
    rewrite (IH Hn Ho), andb_true_r.
    apply forallb_forall. intros x Hx. apply keys_insert_index in Hx.
    destruct Hx as [-> | Hx].
    + unfold may_follow. rewrite Eak, Ea, Hk. exact Eji.
    + rewrite forallb_forall in Ha. apply Ha, Hx.
  - cbn [keys map fst keys_ordered forallb]. fold (keys ps).
    rewrite Ha, Ho, !andb_true_r.
    pose proof (@may_follow_index a k j i Ea Hk Eak Eji) as Hka. rewrite Hka.
    cbn [andb]. apply forallb_forall. intros x Hx.
    rewrite forallb_forall in Ha.
    apply (@may_follow_trans_index a k x j i Ea Hk); [|apply Ha, Hx].
    unfold may_follow in Hka. rewrite Hk, Ea in Hka.
    apply andb_true_iff in Hka. destruct Hka as [_ Hka].
    apply N.ltb_lt, Hka.
  - cbn [keys map fst keys_ordered forallb]. fold (keys ps).
    rewrite Ha, Ho, !andb_true_r.
    assert (Hka : jstring_eqb k a = false).
    { apply jstring_eqb_neq. apply jstring_eqb_neq in Eak. congruence. }
    assert (Hf : may_follow k a = true).
    { unfold may_follow. rewrite Hka, Hk, Ea. reflexivity. }
    rewrite Hf. cbn [andb]. apply forallb_forall. intros x Hx.
    rewrite forallb_forall in Ha. specialize (Ha x Hx).
    unfold may_follow in *. rewrite Ea in Ha. rewrite Hk.
    apply andb_true_iff in Ha. destruct Ha as [_ Ha].
    destruct (array_index x) as [m|] eqn:Ex; [discriminate|].
    assert (Hne : jstring_eqb k x = false).
    { apply jstring_eqb_neq. intros ->. congruence. }
    rewrite Hne. reflexivity.
Qed.

Lemma keys_ordered_snoc (ps : props) (k : jstring) (v : value) :
  array_index k = None ->
  has_own ps k = false ->
  keys_ordered (keys ps) = true ->
  keys_ordered (keys (ps ++ [(k, v)])) = true.
Proof.
  intros Hk. unfold has_own.
  induction ps as [|[a va] ps IH]; [reflexivity|].
  cbn [own_get keys map fst keys_ordered app]. fold (keys ps).
  fold (keys (ps ++ [(k, v)])).
  destruct (jstring_eqb a k) eqn:Eak; [discriminate|].
  intros Hn Ho. apply andb_true_iff in Ho. destruct Ho as [Ha Ho].
  rewrite (IH Hn Ho), andb_true_r, keys_app, forallb_app, Ha.
  cbn [keys map fst forallb andb]. rewrite andb_true_r.
  unfold may_follow. rewrite Eak, Hk.
  destruct (array_index a); reflexivity.
Qed.

Lemma keys_ordered_set (ps : props) (k : jstring) (v : value) :
  keys_ordered (keys ps) = true ->
  keys_ordered (keys (own_set ps k v)) = true.
Proof.
  intros Ho. unfold own_set.
  destruct (has_own ps k) eqn:Eh.
  - rewrite keys_own_replace. exact Ho.
  - unfold own_insert. destruct (array_index k) as [i|] eqn:Ek.
    + apply keys_ordered_insert_index; assumption.
    + apply keys_ordered_snoc; assumption.
Qed.

Lemma In_own_replace (ps : props) (k : jstring) (v : value)
  (e : jstring * value) :
  In e (own_replace ps k v) -> In e ps \/ snd e = v.
Proof.
  induction ps as [|[a va] ps IH]; cbn [own_replace]; [auto|].
  destruct (jstring_eqb a k); cbn [In].
  - intros [<- | H]; auto.
  - intros [<- | H]; [auto|]. destruct (IH H); auto.
Qed.

Lemma In_own_insert_index (ps : props) (i : N) (k : jstring) (v : value)
  (e : jstring * value) :
  In e (own_insert_index ps i k v) -> In e ps \/ snd e = v.
Proof.
  induction ps as [|[a va] ps IH]; cbn [own_insert_index In].
  - intros [<- | []]. auto.
  - destruct (array_index a) as [j|]; [destruct (j <? i)%N|]; cbn [In].
    + intros [<- | H]; [auto|]. destruct (IH H); auto.
    + intros [<- | H]; auto.
    + intros [<- | H]; auto.
Qed.

Lemma In_own_set (ps : props) (k : jstring) (v : value)
  (e : jstring * value) :
  In e (own_set ps k v) -> In e ps \/ snd e = v.
Proof.
  unfold own_set, own_insert. destruct (has_own ps k).
  - apply In_own_replace.
  - destruct (array_index k).
    + apply In_own_insert_index.
    + intros H. apply in_app_or in H. destruct H as [H | [<- | []]]; auto.
Qed.

Lemma canonical_set (ps : props) (k : jstring) (v : value) :
  canonical (VObj ps) = true -> canonical v = true ->
  canonical (VObj (own_set ps k v)) = true.
Proof.
  cbn [canonical]. intros H Hv. apply andb_true_iff in H.
  destruct H as [Ho Hc]. rewrite (@keys_ordered_set ps k v Ho). cbn [andb].
  apply forallb_forall. intros e He.
  destruct (@In_own_set ps k v e He) as [H | H].
  - rewrite forallb_forall in Hc. apply Hc, H.
  - rewrite H. exact Hv.
Qed.

Lemma canonical_object_of (kvs : props) :
  forallb (fun kv => canonical (snd kv)) kvs = true ->
  canonical (object_of kvs) = true.
Proof.
  unfold object_of.
  assert (G : forall acc,
             canonical (VObj acc) = true ->
             forallb (fun kv => canonical (snd kv)) kvs = true ->
             canonical
               (VObj (fold_left (fun o kv => own_set o (fst kv) (snd kv))
                                kvs acc)) = true).
  { induction kvs as [|[k v] kvs IH]; intros acc Ha H; [exact Ha|].
    cbn [forallb snd] in H. apply andb_true_iff in H. destruct H as [Hv H].
    cbn [fold_left fst snd]. apply IH; [|exact H].
    apply canonical_set; assumption. }
  apply G. reflexivity.
Qed.

(** ** The parser *)

Lemma value_canonical_step (f : nat) :
  value_canonical f -> elements_canonical f -> members_canonical f ->
  value_canonical (S f).
Proof.
  intros IHv IHe IHm s v r. rewrite parse_value_S.
  destruct (skip_ws s) as [|c t]; [discriminate|].
  destruct (c =? 123)%N.
  { destruct (skip_ws t) as [|c' t']; [discriminate|].
    destruct (c' =? 125)%N; [intros [= <- _]; reflexivity|].
    destruct (parse_members f (c' :: t')) as [kvs rest| |] eqn:E;
      try discriminate.
    cbn [lift_result]. intros [= <- _].
    apply canonical_object_of, (IHm _ _ _ E). }
  destruct (c =? 91)%N.
  { destruct (skip_ws t) as [|c' t']; [discriminate|].
    destruct (c' =? 93)%N; [intros [= <- _]; reflexivity|].
    destruct (parse_elements f (c' :: t')) as [vs rest| |] eqn:E;
      try discriminate.
    cbn [lift_result]. intros [= <- _]. apply (IHe _ _ _ E). }
  destruct (c =? 34)%N.
  { destruct (parse_string_chars t) as [[str rest]|]; [|discriminate].
    intros [= <- _]. reflexivity. }
  destruct (c =? 116)%N.
  { destruct (strip_prefix (lit "rue") t); [|discriminate].
    cbn [lift_result]. intros [= <- _]. reflexivity. }
  destruct (c =? 102)%N.
  { destruct (strip_prefix (lit "alse") t); [|discriminate].
    cbn [lift_result]. intros [= <- _]. reflexivity. }
  destruct (c =? 110)%N.
  { destruct (strip_prefix (lit "ull") t); [|discriminate].
    cbn [lift_result]. intros [= <- _]. reflexivity. }
  destruct (parse_number (c :: t)) as [[n rest]|] eqn:E; [|discriminate].
  intros [= <- _]. apply (@parse_number_canonical _ _ _ E).
Qed.

Lemma elements_canonical_step (f : nat) :
  value_canonical f -> elements_canonical f -> elements_canonical (S f).
Proof.
  intros IHv IHe s vs r. rewrite parse_elements_S.
  destruct (parse_value f s) as [v t| |] eqn:Ev; try discriminate.
  destruct (skip_ws t) as [|c t']; [discriminate|].
  destruct (c =? 44)%N.
  { destruct (parse_elements f t') as [ws rest| |] eqn:E; try discriminate.
    cbn [lift_result]. intros [= <- _]. cbn [forallb].
    rewrite (IHv _ _ _ Ev), (IHe _ _ _ E). reflexivity. }
  destruct (c =? 93)%N; [|discriminate].
  intros [= <- _]. cbn [forallb]. rewrite (IHv _ _ _ Ev). reflexivity.
Qed.

Lemma members_canonical_step (f : nat) :
  value_canonical f -> members_canonical f -> members_canonical (S f).
Proof.
  intros IHv IHm s kvs r. cbn [parse_members].
  destruct (skip_ws s) as [|q t]; [discriminate|].
  destruct (q =? 34)%N; [|discriminate].
  destruct (parse_string_chars t) as [[k r1]|]; [|discriminate].
  destruct (skip_ws r1) as [|c r2]; [discriminate|].
  destruct (c =? 58)%N; [|discriminate].
  destruct (parse_value f r2) as [v r3| |] eqn:Ev; try discriminate.
  destruct (skip_ws r3) as [|c' r4]; [discriminate|].
  destruct (c' =? 44)%N.
  { destruct (parse_members f r4) as [ws rest| |] eqn:E; try discriminate.
    intros [= <- _]. cbn [forallb snd].
    rewrite (IHv _ _ _ Ev), (IHm _ _ _ E). reflexivity. }
  destruct (c' =? 125)%N; [|discriminate].
  intros [= <- _]. cbn [forallb snd]. rewrite (IHv _ _ _ Ev). reflexivity.
Qed.

Lemma parser_canonical (f : nat) :
  value_canonical f /\ elements_canonical f /\ members_canonical f.
Proof.
  induction f as [|f (IHv & IHe & IHm)].
  - repeat split; intro; intros; discriminate.
  - repeat split.
    + apply value_canonical_step; assumption.
    + apply elements_canonical_step; assumption.
    + apply members_canonical_step; assumption.
Qed.

(** What [JSON.parse] returns is canonical. *)
Lemma JSON_parse_canonical (s : jstring) (v : value) :
  JSON_parse s = Some v -> canonical v = true.
Proof.
  unfold JSON_parse.
  destruct (parse_value (S (2 * length s)) s) as [x rest| |] eqn:E;
    try discriminate.
  destruct (skip_ws rest); [|discriminate].
  intros [= <-].
  destruct (parser_canonical (S (2 * length s))) as [Hv _].
  apply (Hv _ _ _ E).
Qed.

Lemma parse_or_raw_canonical (newValue : jstring) :
  canonical (parse_or_raw newValue) = true.
Proof.
  unfold parse_or_raw. destruct (JSON_parse newValue) eqn:E; [|reflexivity].
  apply (@JSON_parse_canonical _ _ E).
Qed.

(** Reading back what was serialised. *)
Lemma parse_or_raw_stringify (v : value) :
  canonical v = true -> parse_or_raw (JSON_stringify v) = v.
Proof.
  intros H. unfold parse_or_raw. rewrite (JSON_parse_stringify _ H).
  reflexivity.
Qed.

(** ** Containers *)

Lemma canonical_set_index (items : list value) (i : nat) (v : value) :
  forallb canonical items = true -> canonical v = true ->
  forallb canonical (set_index items i v) = true.
Proof.
  intros Hi Hv. revert items Hi.
  induction i as [|i IH]; intros [|x items] Hi; cbn [set_index forallb].
  - rewrite Hv. reflexivity.
  - cbn [forallb] in Hi. apply andb_true_iff in Hi. destruct Hi as [_ Hi].
    rewrite Hv, Hi. reflexivity.
  - cbn [canonical]. apply IH. reflexivity.
  - cbn [forallb] in Hi. apply andb_true_iff in Hi. destruct Hi as [Hx Hi].
    rewrite Hx. apply IH, Hi.
Qed.

Lemma canonical_put (container : value) (k : jstring) (v : value) :
  canonical container = true -> canonical v = true ->
  canonical (put container k v) = true.
Proof.
  intros Hc Hv. destruct container as [| | | |items|ps]; try exact Hc.
  - cbn [put]. destruct (array_index k); [|exact Hc].
    cbn [canonical] in *. apply canonical_set_index; assumption.
  - cbn [put]. apply canonical_set; assumption.
Qed.

Lemma own_get_In (ps : props) (k : jstring) (x : value) :
  own_get ps k = Some x -> exists k', In (k', x) ps.
Proof.
  induction ps as [|[a va] ps IH]; cbn [own_get]; [discriminate|].
  destruct (jstring_eqb a k).
  - intros [= <-]. exists a. left. reflexivity.
  - intros H. destruct (IH H) as [k' Hk]. exists k'. right. exact Hk.
Qed.

Lemma canonical_entry (container : value) (k : jstring) (x : value) :
  canonical container = true -> entry_of container k = Some x ->
  canonical x = true.
Proof.
  intros Hc He. destruct container as [| | | |items|ps]; try discriminate.
  - cbn [entry_of] in He. destruct (array_index k); [|discriminate].
    apply nth_error_In in He. cbn [canonical] in Hc.
    rewrite forallb_forall in Hc. apply Hc, He.
  - cbn [entry_of] in He. destruct (own_get_In _ _ He) as [k' Hk].
    cbn [canonical] in Hc. apply andb_true_iff in Hc. destruct Hc as [_ Hc].
    rewrite forallb_forall in Hc. apply (Hc _ Hk).
Qed.

Lemma canonical_created (next : segment) : canonical (created next) = true.
Proof. unfold created. destruct (is_number next); reflexivity. Qed.

Lemma canonical_update_along (p : Path) (v : value) :
  canonical v = true ->
  forall current,
    canonical current = true -> canonical (update_along current p v) = true.
Proof.
  intros Hv. induction p as [|key rest IH]; intros current Hc; [exact Hc|].
  destruct rest as [|next rest].
  - cbn [update_along]. apply canonical_put; assumption.
  - change (update_along current (key :: next :: rest) v)
      with (put current (property_key key)
              (update_along
                 (match entry_of current (property_key key) with
                  | Some c => c
                  | None => created next
                  end) (next :: rest) v)).
    apply canonical_put; [exact Hc|]. apply IH.
    destruct (entry_of current (property_key key)) as [c|] eqn:E.
    + apply (@canonical_entry current _ c Hc E).
    + apply canonical_created.
Qed.

(** ** Writing back what is there *)

Lemma own_replace_same (ps : props) (k : jstring) (x : value) :
  own_get ps k = Some x -> own_replace ps k x = ps.
Proof.
  induction ps as [|[a va] ps IH]; cbn [own_get own_replace]; [reflexivity|].
  destruct (jstring_eqb a k).
  - intros [= ->]. reflexivity.
  - intros H. rewrite (IH H). reflexivity.
Qed.

Lemma set_index_same (items : list value) (i : nat) (x : value) :
  nth_error items i = Some x -> set_index items i x = items.
Proof.
  revert items. induction i as [|i IH]; intros [|y items];
    cbn [nth_error set_index]; try discriminate.
  - intros [= ->]. reflexivity.
  - intros H. rewrite (IH _ H). reflexivity.
Qed.

Lemma put_same (container : value) (k : jstring) (x : value) :
  entry_of container k = Some x -> put container k x = container.
Proof.
  destruct container as [| | | |items|ps]; try discriminate; cbn [entry_of put].
  - destruct (array_index k); [|discriminate].
    intros H. rewrite (set_index_same _ _ H). reflexivity.
  - intros H. unfold own_set, has_own. rewrite H.
    rewrite (own_replace_same _ _ H). reflexivity.
Qed.

Lemma update_along_same (p : Path) :
  forall current x,
    p <> [] ->
    get_at current p = Some x -> update_along current p x = current.
Proof.
  induction p as [|key rest IH]; intros current x Hp Hg; [congruence|].
  cbn [get_at] in Hg.
  destruct (entry_of current (property_key key)) as [c|] eqn:E;
    [|discriminate].
  destruct rest as [|next rest].
  - cbn [get_at] in Hg. injection Hg as ->. cbn [update_along].
    apply put_same, E.
  - change (update_along current (key :: next :: rest) x)
      with (put current (property_key key)
              (update_along
                 (match entry_of current (property_key key) with
                  | Some c => c
                  | None => created next
                  end) (next :: rest) x)).
    rewrite E, (IH c x); [apply put_same, E | discriminate | exact Hg].
Qed.

Lemma entry_addresses (h : Host) (container : value) (k : jstring)
  (x : value) :
  entry_of container k = Some x -> addresses h container k = true.
Proof.
  destruct container as [| | | |items|ps]; try discriminate;
    cbn [entry_of addresses].
  - destruct (array_index k) as [i|]; [|discriminate]. intros H.
    assert (Hl : (i <? N.of_nat (length items))%N = true).
    { apply N.ltb_lt. assert (N.to_nat i < length items)%nat; [|lia].
      apply nth_error_Some. congruence. }
    rewrite Hl. reflexivity.
  - intros H. unfold has_own. rewrite H. reflexivity.
Qed.

Lemma entry_assignable (container : value) (k : jstring) (x : value) :
  entry_of container k = Some x -> assignable container k = true.
Proof.
  destruct container as [| | | |items|ps]; try discriminate;
    cbn [entry_of assignable].
  - destruct (array_index k); [reflexivity | discriminate].
  - intros H. unfold has_own. rewrite H. apply orb_true_r.
Qed.

Lemma get_at_within (h : Host) (p : Path) :
  forall current x,
    p <> [] -> get_at current p = Some x ->
    within_document h current p = true.
Proof.
  induction p as [|key rest IH]; intros current x Hp Hg; [congruence|].
  cbn [get_at] in Hg.
  destruct (entry_of current (property_key key)) as [c|] eqn:E;
    [|discriminate].
  destruct rest as [|next rest].
  - cbn [within_document]. apply (entry_assignable _ _ E).
  - change (within_document h current (key :: next :: rest))
      with (addresses h current (property_key key)
            && within_document h
                 (match entry_of current (property_key key) with
                  | Some c => c
                  | None => created next
                  end) (next :: rest)).
    rewrite (entry_addresses h _ _ E), E. cbn [andb].
    apply (IH c x); [discriminate | exact Hg].
Qed.

Lemma get_at_canonical (p : Path) :
  forall current x,
    canonical current = true -> get_at current p = Some x ->
    canonical x = true.
Proof.
  induction p as [|key rest IH]; intros current x Hc Hg.
  - cbn [get_at] in Hg. injection Hg as <-. exact Hc.
  - cbn [get_at] in Hg.
    destruct (entry_of current (property_key key)) as [c|] eqn:E;
      [|discriminate].
    apply (IH c x); [|exact Hg]. apply (@canonical_entry current _ c Hc E).
Qed.

(* ================================================================== *)
(** * The object built from the rows *)






(* ================================================================== *)
(** * The update, revisited *)


Lemma replacement_canonical (h : Host) (newValue : jstring) :
  canonical (replacement h newValue) = true.
Proof.
  unfold replacement. destruct (JSON_parse newValue) as [v|] eqn:E;
    [|reflexivity].
  destruct (stringify_raises h v); [reflexivity|].
  apply (@JSON_parse_canonical _ _ E).
Qed.

Lemma updateJsonAtPath_body_root (h : Host) (json : jstring) (obj : value)
  (p : option Path) (newValue : jstring) :
  JSON_parse json = Some obj ->
  p = None \/ p = Some [] ->
  updateJsonAtPath_body h json p newValue
  = Ok (JSON_stringify (replacement h newValue)).
Proof.
  intros Hj Hp. unfold updateJsonAtPath_body, replacement, parse, stringify.
  rewrite Hj.
  destruct Hp as [-> | ->]; destruct (JSON_parse newValue) as [v|];
    cbn [bind catch]; try reflexivity;
    destruct (stringify_raises h v); reflexivity.
Qed.

(** The update on a path that is empty, or whose walk stays in the
    document and leaves a document whose serialisation completes. *)
Lemma updateJsonAtPath_at (h : Host) (json : jstring) (obj : value)
  (p : Path) (newValue : jstring) :
  JSON_parse json = Some obj ->
  p = [] \/ within_document h obj p = true ->
  (p <> [] ->
   stringify_raises h (update_along obj p (parse_or_raw newValue)) = false) ->
  exists d,
    updateJsonAtPath h json (Some p) newValue = JSON_stringify d
    /\ updateJsonAtPath_log h json (Some p) newValue = []
    /\ JSON_parse (JSON_stringify d) = Some d
    /\ d = match p with
           | [] => replacement h newValue
           | _ => update_along obj p (parse_or_raw newValue)
           end.
Proof.
  intros Hj Hp Hq. unfold updateJsonAtPath, updateJsonAtPath_log.
  destruct p as [|key rest].
  - rewrite (@updateJsonAtPath_body_root h json obj (@Some Path []) newValue Hj
               (or_intror eq_refl)).
    eexists. repeat split.
    apply JSON_parse_stringify, replacement_canonical.
  - destruct Hp as [Hp | Hw]; [discriminate|].
    rewrite (@updateJsonAtPath_body_within h json obj (key :: rest) newValue
               Hj Hw).
    rewrite stringify_quiet by (apply Hq; discriminate).
    eexists. repeat split.
    apply JSON_parse_stringify, canonical_update_along;
      [apply parse_or_raw_canonical | apply (@JSON_parse_canonical _ _ Hj)].
Qed.


(* ================================================================== *)
(** * The text returned, parsed *)

(** X9.  What is written can be read back.  When the walk stays in the
    document and the serialisation of the updated document completes, the
    text returned is the serialisation of a document that holds, at the
    path, the parsed new value (or the raw string); and the text parses, to
    a document that holds at the path a value written like the parsed new
    value. *)
Theorem updateJsonAtPath_reads_back (h : Host) (json : jstring)
  (obj : value) (p : Path) (newValue : jstring) :
  JSON_parse json = Some obj ->
  within_document h obj p = true ->
  stringify_raises h (update_along obj p (parse_or_raw newValue)) = false ->
  exists d,
    updateJsonAtPath h json (Some p) newValue = JSON_stringify d
    /\ get_at d p = Some (parse_or_raw newValue)
    /\ exists d' w,
         JSON_parse (updateJsonAtPath h json (Some p) newValue) = Some d'
         /\ get_at d' p = Some w
         /\ written_alike w (parse_or_raw newValue).
Proof.
  intros Hj Hw Hq.
  destruct (@updateJsonAtPath_at h json obj p newValue Hj (or_intror Hw)
              (fun _ => Hq))
    as (d & Hu & _ & Hd & Hs).
  assert (Hg : get_at d p = Some (parse_or_raw newValue)).
  { destruct p as [|key rest]; [discriminate|]. rewrite Hs.
    apply (@update_along_read h), Hw. }
  exists d. rewrite Hu. split; [reflexivity|]. split; [exact Hg|].
  exists d, (parse_or_raw newValue).
  split; [exact Hd|]. split; [exact Hg | reflexivity].
Qed.

Lemma updateJsonAtPath_reads_back_witness :
  exists d,
    updateJsonAtPath bare_host (jsn "{'a':1}")
                     (Some [SKey (lit "b"); SIndex (of_N 0)]) (lit "5")
    = JSON_stringify d
    /\ get_at d [SKey (lit "b"); SIndex (of_N 0)]
       = Some (parse_or_raw (lit "5"))
    /\ exists d' w,
         JSON_parse
           (updateJsonAtPath bare_host (jsn "{'a':1}")
                             (Some [SKey (lit "b"); SIndex (of_N 0)])
                             (lit "5"))
         = Some d'
         /\ get_at d' [SKey (lit "b"); SIndex (of_N 0)] = Some w
         /\ written_alike w (parse_or_raw (lit "5")).
Proof.
  apply (@updateJsonAtPath_reads_back bare_host (jsn "{'a':1}")
           (VObj [(lit "a", VNum (of_N 1))])
           [SKey (lit "b"); SIndex (of_N 0)] (lit "5")); reflexivity.
Defined.

(** X10.  What lies off the path is left alone.  When the walk stays in the
    document and the serialisation of the updated document completes, every
    value the document held at a path that parts ways with the written one
    is still there in the document whose serialisation is returned; and in
    the document the returned text parses to, a value written like it is
    there. *)
Theorem updateJsonAtPath_frame (h : Host) (json : jstring) (obj : value)
  (p : Path) (newValue : jstring) :
  JSON_parse json = Some obj ->
  within_document h obj p = true ->
  stringify_raises h (update_along obj p (parse_or_raw newValue)) = false ->
  exists d d',
    updateJsonAtPath h json (Some p) newValue = JSON_stringify d
    /\ JSON_parse (updateJsonAtPath h json (Some p) newValue) = Some d'
    /\ forall q w, part_ways p q ->
                   get_at obj q = Some w ->
                   get_at d q = Some w
                   /\ exists w', get_at d' q = Some w' /\ written_alike w' w.
Proof.
  intros Hj Hw Hq.
  destruct (@updateJsonAtPath_at h json obj p newValue Hj (or_intror Hw)
              (fun _ => Hq))
    as (d & Hu & _ & Hd & Hs).
  exists d, d. rewrite Hu. split; [reflexivity|]. split; [exact Hd|].
  intros q w Hpw Hg.
  assert (Hgq : get_at d q = Some w).
  { destruct p as [|key rest]; [discriminate|]. rewrite Hs.
    apply update_along_frame; assumption. }
  split; [exact Hgq|]. exists w. split; [exact Hgq | reflexivity].
Qed.

Lemma updateJsonAtPath_frame_witness :
  exists d d',
    updateJsonAtPath bare_host (jsn "{'a':1}")
                     (Some [SKey (lit "b"); SIndex (of_N 0)]) (lit "5")
    = JSON_stringify d
    /\ JSON_parse
         (updateJsonAtPath bare_host (jsn "{'a':1}")
                           (Some [SKey (lit "b"); SIndex (of_N 0)]) (lit "5"))
       = Some d'
    /\ forall q w, part_ways [SKey (lit "b"); SIndex (of_N 0)] q ->
                   get_at (VObj [(lit "a", VNum (of_N 1))]) q = Some w ->
                   get_at d q = Some w
                   /\ exists w', get_at d' q = Some w' /\ written_alike w' w.
Proof.
  apply (@updateJsonAtPath_frame bare_host (jsn "{'a':1}")
           (VObj [(lit "a", VNum (of_N 1))])
           [SKey (lit "b"); SIndex (of_N 0)] (lit "5")); reflexivity.
Defined.

(** X14.  With an absent or empty path, on a document that parses, the
    text returned parses, to a value written like the new value: like what
    the new value parses to, or like the new value as a string when it does
    not parse, or when [JSON.stringify] raises on what it parses to. *)
Theorem updateJsonAtPath_whole_document_reads_back (h : Host)
  (json : jstring) (p : option Path) (newValue : jstring) :
  JSON_parse json <> None ->
  p = None \/ p = Some [] ->
  exists w,
    JSON_parse (updateJsonAtPath h json p newValue) = Some w
    /\ written_alike w
         (match JSON_parse newValue with
          | Some v => if stringify_raises h v then VStr newValue else v
          | None => VStr newValue
          end).
Proof.
  intros Hj Hp. destruct (JSON_parse json) as [obj|] eqn:Ej; [|congruence].
  unfold updateJsonAtPath.
  rewrite (@updateJsonAtPath_body_root h json obj p newValue Ej Hp).
  exists (replacement h newValue). split; [|reflexivity].
  apply JSON_parse_stringify, replacement_canonical.
Qed.

Lemma updateJsonAtPath_whole_document_reads_back_witness :
  exists w,
    JSON_parse (updateJsonAtPath bare_host document_a None (jsn "[1, 'x']"))
    = Some w
    /\ written_alike w
         (match JSON_parse (jsn "[1, 'x']") with
          | Some v =>
              if stringify_raises bare_host v then VStr (jsn "[1, 'x']")
              else v
          | None => VStr (jsn "[1, 'x']")
          end).
Proof.
  apply (@updateJsonAtPath_whole_document_reads_back bare_host document_a
           None (jsn "[1, 'x']")).
  - vm_compute. discriminate.
  - left. reflexivity.
Defined.

(** X15.  Writing back the value found at a path only reformats the
    document: with the serialisation of the value the document holds at the
    path as new value, the result is the serialisation of the document.
    When [JSON.stringify] raises on the document, the result is the text as
    it was given, and with the empty path, which is the branch without
    path, the new value as a string literal. *)
Theorem updateJsonAtPath_same_value (h : Host) (json : jstring) (obj : value)
  (p : Path) (x : value) :
  JSON_parse json = Some obj ->
  get_at obj p = Some x ->
  updateJsonAtPath h json (Some p) (JSON_stringify x)
  = if stringify_raises h obj
    then match p with
         | [] => QuoteJSONString (JSON_stringify x)
         | _ :: _ => json
         end
    else JSON_stringify obj.
Proof.
  intros Hj Hg.
  pose proof (@JSON_parse_canonical json obj Hj) as Hc.
  pose proof (@get_at_canonical p obj x Hc Hg) as Hcx.
  destruct p as [|key rest].
  - cbn [get_at] in Hg. injection Hg as ->.
    unfold updateJsonAtPath.
    rewrite (@updateJsonAtPath_body_root h json x (@Some Path [])
               (JSON_stringify x) Hj (or_intror eq_refl)).
    unfold replacement. rewrite (@JSON_parse_stringify x Hcx).
    destruct (stringify_raises h x); reflexivity.
  - rewrite (@updateJsonAtPath_within h json obj (key :: rest)
               (JSON_stringify x) Hj
               (@get_at_within h (key :: rest) obj x
                  ltac:(discriminate) Hg)).
    rewrite (@parse_or_raw_stringify x Hcx),
      (@update_along_same (key :: rest) obj x);
      [reflexivity | discriminate | exact Hg].
Qed.

Lemma updateJsonAtPath_same_value_witness :
  updateJsonAtPath bare_host (jsn "{'x':{'a':1,'b':{'c':2}}}")
                   (Some [SKey (lit "x"); SKey (lit "b")])
                   (JSON_stringify (VObj [(lit "c", VNum (of_N 2))]))
  = JSON_stringify
      (VObj [(lit "x", VObj [(lit "a", VNum (of_N 1));
                             (lit "b", VObj [(lit "c", VNum (of_N 2))])])]).
Proof.
  apply (@updateJsonAtPath_same_value bare_host
           (jsn "{'x':{'a':1,'b':{'c':2}}}")
           (VObj [(lit "x", VObj [(lit "a", VNum (of_N 1));
                                  (lit "b", VObj [(lit "c", VNum (of_N 2))])])])
           [SKey (lit "x"); SKey (lit "b")]
           (VObj [(lit "c", VNum (of_N 2))])); reflexivity.
Defined.

(** X16.  Saving the same value at the same path a second time changes
    nothing: when the path is empty or the walk stays in the document,
    [updateJsonAtPath] applied to its own result, with the same path and
    new value, returns that result. *)
Theorem updateJsonAtPath_idempotent (h : Host) (json : jstring) (obj : value)
  (p : Path) (newValue : jstring) :
  JSON_parse json = Some obj ->
  p = [] \/ within_document h obj p = true ->
  let u := updateJsonAtPath h json (Some p) newValue in
  updateJsonAtPath h u (Some p) newValue = u.
Proof.
  intros Hj Hp u. destruct p as [|key rest].
  - unfold u, updateJsonAtPath.
    rewrite (@updateJsonAtPath_body_root h json obj (@Some Path []) newValue
               Hj (or_intror eq_refl)).
    rewrite (@updateJsonAtPath_body_root h _ (replacement h newValue)
               (@Some Path []) newValue
               (@JSON_parse_stringify _ (replacement_canonical h newValue))
               (or_intror eq_refl)).
    reflexivity.
  - destruct Hp as [Hp | Hw]; [discriminate|].
    set (d := update_along obj (key :: rest) (parse_or_raw newValue)).
    pose proof (@updateJsonAtPath_within h json obj (key :: rest) newValue
                  Hj Hw) as Hu.
    fold u d in Hu.
    destruct (stringify_raises h d) eqn:Hq.
    + (* the serialisation raised: the text came back as it was given *)
      rewrite Hu. exact Hu.
    + assert (Hg : get_at d (key :: rest) = Some (parse_or_raw newValue)).
      { apply (@update_along_read h), Hw. }
      assert (Hd : JSON_parse u = Some d).
      { rewrite Hu. apply JSON_parse_stringify, canonical_update_along;
          [apply parse_or_raw_canonical | apply (@JSON_parse_canonical _ _ Hj)]. }
      rewrite (@updateJsonAtPath_within h u d (key :: rest) newValue Hd
                 (@get_at_within h (key :: rest) d _ ltac:(discriminate) Hg)).
      rewrite (@update_along_same (key :: rest) d (parse_or_raw newValue)
                 ltac:(discriminate) Hg), Hq.
      symmetry. exact Hu.
Qed.

Lemma updateJsonAtPath_idempotent_witness :
  let u := updateJsonAtPath bare_host document_a
             (Some [SKey (lit "b"); SIndex (of_N 0)]) (lit "5") in
  updateJsonAtPath bare_host u (Some [SKey (lit "b"); SIndex (of_N 0)])
                   (lit "5")
  = u.
Proof.
  apply (@updateJsonAtPath_idempotent bare_host document_a
           (VObj [(lit "a", VNum (of_N 1))])
           [SKey (lit "b"); SIndex (of_N 0)] (lit "5")).
  - reflexivity.
  - right. reflexivity.
Defined.

(* ================================================================== *)
(** * Reading back the text shown for a node *)



(** A [__proto__] row with value [null] removes the prototype of the object
    being filled, and the [__proto__] row after it creates a property; a
    [__proto__] row with a number, before it, is ignored. *)
Example normalizeNodeData_proto_rows :
  normalizeNodeData (Some proto_rows)
  = unlines (map jsn ["{"; "  '__proto__': 5"; "}"]%string)
  /\ rows_value proto_rows = VObj [(proto_key, VNum (of_N 5))]
  /\ normalizeNodeData (Some (rev proto_rows)) = lit "{}".
Proof. repeat split; reflexivity. Qed.

(* ================================================================== *)
(** * Saving without typing, saving through a primitive *)



(** The nested object under [b] is lost by Edit followed by Save. *)
Example save_unedited_loses_nested :
  json (stores nested_state)
  = jsn "{'x':{'a':1,'b':{'c':2}}}"
  /\ exists rest,
       trace (run bare_host nested_state [ClickEdit; ClickSave])
       = SetJson (unlines (map jsn ["{"; "  'x': {"; "    'a': 1"; "  }"; "}"]%string))
         :: rest.
Proof. split; [reflexivity|]. eexists. vm_compute. reflexivity. Qed.

(** X19.  When the document parses but the path walks into a primitive
    value, [updateJsonAtPath] fails and Save does not notice: it logs
    "Failed to update JSON:", then commits the text of the document store
    as it is, with [hasChanges] set, leaves Editing and schedules the
    reselection.  No alert is shown and what was typed is not written. *)
Theorem save_through_primitive (h : Host) (s : State) (n : NodeData)
  (p : Path) (obj : value) :
  isEditing (view s) = true ->
  selectedNode (stores s) = Some n ->
  path n = Some p ->
  JSON_parse (json (stores s)) = Some obj ->
  reaches_primitive obj p = true ->
  step h s ClickSave
  = mkState (mkView false (editValue (view s))) (stores s)
            (trace s ++
             [ConsoleError (lit "Failed to update JSON:") TypeError;
              SetJson (json (stores s));
              SetContents (json (stores s)) true false;
              SetTimeout (Reselect (id n)) 200%N]).
Proof.
  intros He Hs Hp Hj Hr.
  pose proof (@updateJsonAtPath_body_primitive h (json (stores s)) obj p
                (editValue (view s)) Hj Hr) as Hb.
  assert (Hu : updateJsonAtPath h (json (stores s)) (path n)
                                (editValue (view s)) = json (stores s)).
  { unfold updateJsonAtPath. rewrite Hp, Hb. reflexivity. }
  assert (Hx : JSON_parse
                 (updateJsonAtPath h (json (stores s)) (path n)
                                   (editValue (view s))) = Some obj).
  { rewrite Hu. exact Hj. }
  rewrite (@save_accepted h s n He Hs obj Hx), Hu.
  unfold updateJsonAtPath_log. rewrite Hp, Hb. reflexivity.
Qed.

Lemma save_through_primitive_witness :
  step bare_host deep_state ClickSave
  = mkState (mkView false (editValue (view deep_state))) (stores deep_state)
            (trace deep_state ++
             [ConsoleError (lit "Failed to update JSON:") TypeError;
              SetJson (json (stores deep_state));
              SetContents (json (stores deep_state)) true false;
              SetTimeout (Reselect (id deep_node)) 200%N]).
Proof.
  apply (@save_through_primitive bare_host deep_state deep_node path_a_b_c
           (VObj [(lit "a", VNum (of_N 1))])); reflexivity.
Defined.
